(** * The proper-noun aware translation route (POST /api/translate)

    A shallow embedding of the route handler: the glossary loader with its
    process-wide cache, the proper-noun guard ([protectProperNouns],
    [detectUnknownProperNouns]), the sentence segmenter
    ([splitIntoSentences]), the sentence translator wrapper
    ([translateSentence]), the restorer ([restoreProperNouns]) and the
    orchestrator ([POST]).

    JavaScript strings are sequences of UTF-16 code units; they are modelled
    as lists of code units, each a number of type [N].  The library string
    methods the handler calls ([includes], [replaceAll], [trim], [split],
    [join]) are written out over that representation. *)

From Stdlib Require Import String Ascii.
From Stdlib Require Import List NArith Arith Lia Bool.
From Stdlib Require Import DecimalNat.
Import ListNotations.

(** ** Code units and string literals *)

Module Js.

Definition unit16 := N.
Definition jsstring := list unit16.

(** Decoding of the UTF-8 bytes of a literal of this file into UTF-16 code
    units, so that examples can be written as readable text. *)
Fixpoint utf16_of_bytes (bs : list N) : jsstring :=
  match bs with
  | [] => []
  | b0 :: r0 =>
    if (b0 <? 128)%N then b0 :: utf16_of_bytes r0
    else if (b0 <? 224)%N then
      match r0 with
      | b1 :: r1 => ((b0 mod 32) * 64 + b1 mod 64)%N :: utf16_of_bytes r1
      | _ => []
      end
    else if (b0 <? 240)%N then
      match r0 with
      | b1 :: b2 :: r2 =>
        ((b0 mod 16) * 4096 + (b1 mod 64) * 64 + b2 mod 64)%N
          :: utf16_of_bytes r2
      | _ => []
      end
    else
      match r0 with
      | b1 :: b2 :: b3 :: r3 =>
        let cp := ((b0 mod 8) * 262144 + (b1 mod 64) * 4096
                   + (b2 mod 64) * 64 + b3 mod 64 - 65536)%N in
        (55296 + cp / 1024)%N :: (56320 + cp mod 1024)%N :: utf16_of_bytes r3
      | _ => []
      end
  end.

Definition utf16 (s : String.string) : jsstring :=
  utf16_of_bytes (map Ascii.N_of_ascii (String.list_ascii_of_string s)).

Arguments utf16 s%_string.

(** Literals are only ever evaluated, never unfolded during unification. *)
Global Opaque utf16.

(** Named code units used by the handler. *)
Definition LF : unit16 := 10%N.
Definition DOLLAR : unit16 := 36%N.
Definition AMPERSAND : unit16 := 38%N.
Definition APOSTROPHE : unit16 := 39%N.
Definition BACKTICK : unit16 := 96%N.
Definition UNDERSCORE : unit16 := 95%N.
Definition LETTER_P : unit16 := 80%N.
Definition LETTER_N : unit16 := 78%N.
Definition IDEOGRAPHIC_FULL_STOP : unit16 := 12290%N.   (* U+3002 *)
Definition FULLWIDTH_EXCLAMATION : unit16 := 65281%N.   (* U+FF01 *)
Definition FULLWIDTH_QUESTION : unit16 := 65311%N.      (* U+FF1F *)

Definition isDigit (c : unit16) : bool := ((48 <=? c) && (c <=? 57))%N.

(** [WhiteSpace] and [LineTerminator] code units, the ones [trim] strips. *)
Definition isWhiteSpace (c : unit16) : bool :=
  ((c =? 9) || (c =? 10) || (c =? 11) || (c =? 12) || (c =? 13) || (c =? 32)
   || (c =? 160) || (c =? 5760) || ((8192 <=? c) && (c <=? 8202))
   || (c =? 8232) || (c =? 8233) || (c =? 8239) || (c =? 8287)
   || (c =? 12288) || (c =? 65279))%N.

(** ** Equality, prefixes and [String.prototype.includes] *)

Fixpoint eqs (a b : jsstring) : bool :=
  match a, b with
  | [], [] => true
  | x :: a', y :: b' => (x =? y)%N && eqs a' b'
  | _, _ => false
  end.

(** [startsWith s p]: [p] occurs in [s] at position 0. *)
Fixpoint startsWith (s p : jsstring) {struct p} : bool :=
  match p with
  | [] => true
  | y :: p' =>
    match s with
    | [] => false
    | x :: s' => (x =? y)%N && startsWith s' p'
    end
  end.

(** [includes s p]: [p] occurs in [s] at some position. *)
Fixpoint includes (s p : jsstring) : bool :=
  startsWith s p ||
  match s with
  | [] => false
  | _ :: s' => includes s' p
  end.

(** ** [String.prototype.replaceAll] with a string pattern *)

(** [GetSubstitution] for a string pattern (no capture groups): the
    replacement text may refer to the match ([$&]), the text before it
    ([$`]) and after it ([$']); [$$] is a dollar sign; every other use of
    the dollar sign stands for itself. *)
Fixpoint getSubstitution (matched before after repl : jsstring) : jsstring :=
  match repl with
  | [] => []
  | c :: rest =>
    if (c =? DOLLAR)%N then
      match rest with
      | [] => [c]
      | d :: rest' =>
        if (d =? DOLLAR)%N then
          DOLLAR :: getSubstitution matched before after rest'
        else if (d =? AMPERSAND)%N then
          matched ++ getSubstitution matched before after rest'
        else if (d =? BACKTICK)%N then
          before ++ getSubstitution matched before after rest'
        else if (d =? APOSTROPHE)%N then
          after ++ getSubstitution matched before after rest'
        else c :: getSubstitution matched before after rest
      end
    else c :: getSubstitution matched before after rest
  end.

Section ReplaceAll.

Variables searchValue replaceValue : jsstring.

(** Left-to-right scan for a non-empty pattern: at a match the
    substitution is emitted and the scan resumes after the match. *)
Fixpoint replaceFrom (fuel : nat) (before rest : jsstring) : jsstring :=
  match fuel with
  | O => rest
  | S fuel' =>
    match rest with
    | [] => []
    | c :: rest' =>
      if startsWith rest searchValue then
        let after := skipn (length searchValue) rest in
        getSubstitution searchValue before after replaceValue
          ++ replaceFrom fuel' (before ++ searchValue) after
      else c :: replaceFrom fuel' (before ++ [c]) rest'
    end
  end.

(** The empty pattern matches at every position, end included. *)
Fixpoint replaceEmpty (before rest : jsstring) : jsstring :=
  getSubstitution [] before rest replaceValue ++
  match rest with
  | [] => []
  | c :: rest' => c :: replaceEmpty (before ++ [c]) rest'
  end.

Definition replaceAll (s : jsstring) : jsstring :=
  match searchValue with
  | [] => replaceEmpty [] s
  | _ :: _ => replaceFrom (length s) [] s
  end.

End ReplaceAll.

(** ** [trim], [join] *)

Fixpoint trimStart (s : jsstring) : jsstring :=
  match s with
  | [] => []
  | c :: s' => if isWhiteSpace c then trimStart s' else s
  end.

Definition trimEnd (s : jsstring) : jsstring := rev (trimStart (rev s)).

Definition trim (s : jsstring) : jsstring := trimEnd (trimStart s).

Fixpoint join (sep : jsstring) (l : list jsstring) : jsstring :=
  match l with
  | [] => []
  | [x] => x
  | x :: l' => x ++ sep ++ join sep l'
  end.

(** Decimal rendering of a non-negative integer (template literal
    interpolation of a counter). *)
Fixpoint units_of_uint (d : Decimal.uint) : jsstring :=
  match d with
  | Decimal.Nil => []
  | Decimal.D0 d' => 48%N :: units_of_uint d'
  | Decimal.D1 d' => 49%N :: units_of_uint d'
  | Decimal.D2 d' => 50%N :: units_of_uint d'
  | Decimal.D3 d' => 51%N :: units_of_uint d'
  | Decimal.D4 d' => 52%N :: units_of_uint d'
  | Decimal.D5 d' => 53%N :: units_of_uint d'
  | Decimal.D6 d' => 54%N :: units_of_uint d'
  | Decimal.D7 d' => 55%N :: units_of_uint d'
  | Decimal.D8 d' => 56%N :: units_of_uint d'
  | Decimal.D9 d' => 57%N :: units_of_uint d'
  end.

Definition toDecimal (n : nat) : jsstring := units_of_uint (Nat.to_uint n).

End Js.

Import Js.

(** ** Text constants of the handler *)

Definition PLACEHOLDER_PREFIX : jsstring := Eval vm_compute in utf16 "__PN_".
Definition PLACEHOLDER_SUFFIX : jsstring := Eval vm_compute in utf16 "__".
Definition SPACE : jsstring := Eval vm_compute in utf16 " ".
Definition COMMA_SPACE : jsstring := Eval vm_compute in utf16 ", ".
Definition VISA_STRICT : jsstring := Eval vm_compute in utf16 "visa-strict".
Definition NO_RESPONSE : jsstring :=
  Eval vm_compute in utf16 "No response from OpenAI".
Definition NOT_A_FUNCTION : jsstring :=
  Eval vm_compute in utf16 "restored.replaceAll is not a function".
Definition UNDEFINED_MEMBER : jsstring :=
  Eval vm_compute in utf16 "Cannot read properties of undefined".
Definition KEY_NOT_CONFIGURED : jsstring :=
  Eval vm_compute in utf16 "OpenAI API key not configured".
Definition INVALID_TEXT : jsstring :=
  Eval vm_compute in utf16 "Invalid text input".
Definition ONLY_VISA_STRICT : jsstring :=
  Eval vm_compute in utf16 "Only visa-strict mode is supported".
Definition INTERNAL_ERROR : jsstring :=
  Eval vm_compute in utf16 "Internal server error".
Definition RED_HEAD : jsstring :=
  Eval vm_compute in
    utf16 "該当する固有名詞が、ナレッジベースに登録されていない状態です。: ".
Definition RED_TAIL : jsstring :=
  Eval vm_compute in
    utf16 "ビザ申請の提出前に、パスポート記載の綴りに誤りがないかご確認ください。".
Definition BREAKS : jsstring := Eval vm_compute in utf16 "</br></br>".
Definition DOT_SPACE : jsstring := Eval vm_compute in utf16 ". ".
Definition YELLOW_HEAD : jsstring :=
  Eval vm_compute in utf16 "Some proper nouns not found in knowledge base: ".
Definition YELLOW_TAIL : jsstring :=
  Eval vm_compute in utf16 "Please verify translations.".

(** ** Exceptions

    A computation either completes normally or throws; [try_catch] is the
    [try { ... } catch (error) { ... }] statement. *)

Inductive Completion (A : Type) : Type :=
| Normal (value : A)
| Throw (message : jsstring).

Arguments Normal {A} value.
Arguments Throw {A} message.

Definition bind {A B : Type} (c : Completion A) (k : A -> Completion B)
  : Completion B :=
  match c with
  | Normal a => k a
  | Throw e => Throw e
  end.

Notation "x <- c ;; k" := (bind c (fun x => k))
  (at level 61, c at next level, right associativity).

Definition try_catch {A : Type} (body : Completion A)
  (handler : jsstring -> Completion A) : Completion A :=
  match body with
  | Normal a => Normal a
  | Throw e => handler e
  end.

Fixpoint mapM {A B : Type} (f : A -> Completion B) (l : list A)
  : Completion (list B) :=
  match l with
  | [] => Normal []
  | a :: l' => b <- f a ;; bs <- mapM f l' ;; Normal (b :: bs)
  end.

(** ** The glossary and its cache *)

Record GlossaryEntry : Type := { en : jsstring; confidence : jsstring }.

(** A glossary object: its categories, and in each category its entries, in
    the order in which [for ... in] enumerates them. *)
Definition Glossary : Type := list (jsstring * list (jsstring * GlossaryEntry)).

(** What reading and parsing [data/glossary.json] can come to. *)
Inductive GlossaryFile : Type :=
| Unreadable (message : jsstring)      (* [readFileSync] throws *)
| Unparsable (message : jsstring)      (* [JSON.parse] throws *)
| Holds (glossary : Glossary).          (* parsed; asserted, not checked *)

Definition readAndParse (file : GlossaryFile) : Completion Glossary :=
  match file with
  | Unreadable e => Throw e
  | Unparsable e => Throw e
  | Holds g => Normal g
  end.

(** [loadGlossary], with the module variable [glossaryCache] passed in and
    out. *)
Definition loadGlossary (file : GlossaryFile) (glossaryCache : option Glossary)
  : Completion Glossary * option Glossary :=
  match glossaryCache with
  | Some cached => (Normal cached, glossaryCache)
  | None =>
    match readAndParse file with
    | Normal glossary => (Normal glossary, Some glossary)
    | Throw _ => (Normal [], glossaryCache)
    end
  end.

(** ** The proper-noun guard *)

Definition placeholderOf (placeholderIndex : nat) : jsstring :=
  PLACEHOLDER_PREFIX ++ toDecimal placeholderIndex ++ PLACEHOLDER_SUFFIX.

(** [Map.prototype.set] on an insertion-ordered map. *)
Fixpoint Map_set (key value : jsstring) (m : list (jsstring * jsstring))
  : list (jsstring * jsstring) :=
  match m with
  | [] => [(key, value)]
  | (k, v) :: m' =>
    if eqs k key then (k, value) :: m' else (k, v) :: Map_set key value m'
  end.

Record Protection : Type := {
  protectedText : jsstring;
  placeholderMap : list (jsstring * jsstring);
  foundProperNouns : list jsstring;
  placeholderIndex : nat
}.

(** The body of the inner loop, for one entry of one category. *)
Definition protectEntry (st : Protection) (item : jsstring * GlossaryEntry)
  : Protection :=
  let (japanese, entry) := item in
  if includes (protectedText st) japanese then
    let placeholder := placeholderOf (placeholderIndex st) in
    {| protectedText := replaceAll japanese placeholder (protectedText st);
       placeholderMap := Map_set placeholder (en entry) (placeholderMap st);
       foundProperNouns := foundProperNouns st ++ [japanese];
       placeholderIndex := S (placeholderIndex st) |}
  else st.

Definition protectCategory (st : Protection)
  (category : jsstring * list (jsstring * GlossaryEntry)) : Protection :=
  fold_left protectEntry (snd category) st.

Definition protectProperNouns (text : jsstring) (glossary : Glossary)
  : Protection :=
  fold_left protectCategory glossary
    {| protectedText := text; placeholderMap := [];
       foundProperNouns := []; placeholderIndex := 0 |}.

(** [/[一-龯]{2,}/g]: the maximal runs of two or more code units of
    the range. *)
Definition isKanji (c : unit16) : bool := ((19968 <=? c) && (c <=? 40879))%N.

Definition emitRun (run : jsstring) : list jsstring :=
  if 2 <=? length run then [run] else [].

Fixpoint kanjiRunsFrom (run s : jsstring) : list jsstring :=
  match s with
  | [] => emitRun run
  | c :: s' =>
    if isKanji c then kanjiRunsFrom (run ++ [c]) s'
    else emitRun run ++ kanjiRunsFrom [] s'
  end.

Definition matchKanji (text : jsstring) : list jsstring := kanjiRunsFrom [] text.

(** [Set.prototype.add] and [has]. *)
Definition Set_has (s : list jsstring) (x : jsstring) : bool :=
  existsb (eqs x) s.

Definition Set_add (s : list jsstring) (x : jsstring) : list jsstring :=
  if Set_has s x then s else s ++ [x].

Definition knownNounsOf (glossary : Glossary) : list jsstring :=
  fold_left
    (fun known category =>
       fold_left (fun known' item => Set_add known' (fst item))
                 (snd category) known)
    glossary [].

Definition detectUnknownProperNouns (text : jsstring) (glossary : Glossary)
  : list jsstring :=
  let matches := matchKanji text in
  let knownNouns := knownNounsOf glossary in
  filter
    (fun m =>
       if Set_has knownNouns m then false
       else negb (existsb (fun known => includes known m || includes m known)
                          knownNouns))
    matches.

(** ** The sentence segmenter *)

Definition isTerminator (c : unit16) : bool :=
  ((c =? IDEOGRAPHIC_FULL_STOP) || (c =? FULLWIDTH_EXCLAMATION)
   || (c =? FULLWIDTH_QUESTION) || (c =? LF))%N.

Definition isClosingMark (c : unit16) : bool :=
  ((c =? IDEOGRAPHIC_FULL_STOP) || (c =? FULLWIDTH_EXCLAMATION)
   || (c =? FULLWIDTH_QUESTION))%N.

(** [text.split(/([。！？\n]+)/)]: the pieces between the maximal runs of
    terminators, with the runs themselves (the capture group) in between.
    [inRun] tells whether [cur] is a run of terminators or a piece. *)
Fixpoint splitFrom (inRun : bool) (cur s : jsstring) : list jsstring :=
  match s with
  | [] => if inRun then [cur; []] else [cur]
  | c :: s' =>
    if isTerminator c then
      if inRun then splitFrom true (cur ++ [c]) s'
      else cur :: splitFrom true [c] s'
    else
      if inRun then cur :: splitFrom false [c] s'
      else splitFrom false (cur ++ [c]) s'
  end.

Definition split (text : jsstring) : list jsstring := splitFrom false [] text.

(** [/^[。！？]+$/.test(s)] *)
Definition isPunctuationOnly (s : jsstring) : bool :=
  match s with
  | [] => false
  | _ :: _ => forallb isClosingMark s
  end.

Definition nonEmpty (s : jsstring) : bool := 0 <? length s.

(** One round of the re-merging loop. *)
Definition mergeStep (result : list jsstring) (sentence : jsstring)
  : list jsstring :=
  if isPunctuationOnly sentence then
    match result with
    | [] => result
    | _ :: _ => removelast result ++ [last result [] ++ sentence]
    end
  else result ++ [sentence].

Definition splitIntoSentences (text : jsstring) : list jsstring :=
  let sentences :=
    map trim (filter (fun s => nonEmpty (trim s)) (split text)) in
  let result := fold_left mergeStep sentences [] in
  filter nonEmpty result.

(** ** Values that need not be strings

    The [translated] member of the model's answer comes out of
    [JSON.parse] and is used unchecked.  A value that is not a string is
    represented by what converting it to a string comes to: a text, or a
    [TypeError] (an object with a [toString] member of its own has no
    primitive value). *)

Inductive JsValue : Type :=
| JsString (s : jsstring)
| JsOther (shown : Completion jsstring).

(** The conversion [Array.prototype.join] applies to an element. *)
Definition toText (value : JsValue) : Completion jsstring :=
  match value with
  | JsString s => Normal s
  | JsOther shown => shown
  end.

(** ** The sentence translator *)

(** What one call of the chat-completion capability can come to.  In
    [Answer] the content parses as JSON and its [translated] member is a
    string, or is missing or falsy ([None]); in [AnswerOther] the member is
    a truthy value that is not a string (a number, [true], an array, an
    object).  [MalformedContent] covers a content that does not parse and
    one that parses to [null], of which no member can be read. *)
Inductive ModelReply : Type :=
| CallFailed (message : jsstring)   (* the call rejects: network, timeout *)
| NoContent                         (* no [content] in the first choice *)
| MalformedContent (message : jsstring) (* [JSON.parse(content)] throws *)
| Answer (translated : option jsstring)
| AnswerOther (shown : Completion jsstring).

Record Translated : Type := { translated : JsValue }.

Definition completeAndParse (reply : ModelReply) (sentence : jsstring)
  : Completion Translated :=
  match reply with
  | CallFailed e => Throw e
  | NoContent => Throw NO_RESPONSE
  | MalformedContent e => Throw e
  | Answer None => Normal {| translated := JsString sentence |}
  | Answer (Some t) =>
    Normal {| translated := JsString (if nonEmpty t then t else sentence) |}
  | AnswerOther shown => Normal {| translated := JsOther shown |}
  end.

Definition translateSentence (reply : ModelReply) (sentence : jsstring)
  : Completion Translated :=
  try_catch (completeAndParse reply sentence)
            (fun _ => Normal {| translated := JsString sentence |}).

(** ** The restorer *)

Definition restoreProperNouns (translatedText : jsstring)
  (placeholderMap : list (jsstring * jsstring)) : jsstring :=
  fold_left (fun restored kv => replaceAll (fst kv) (snd kv) restored)
            placeholderMap translatedText.

(** [restoreProperNouns] as the response builder calls it, on the
    [translated] member of a sentence translation: on a value that is not a
    string the first round of the loop calls a [replaceAll] that the value
    does not have; with an empty map the loop does not run and the value is
    handed back. *)
Definition restoreTranslated (value : JsValue)
  (placeholderMap : list (jsstring * jsstring)) : Completion JsValue :=
  match value with
  | JsString translatedText =>
    Normal (JsString (restoreProperNouns translatedText placeholderMap))
  | JsOther _ =>
    match placeholderMap with
    | [] => Normal value
    | _ :: _ => Throw NOT_A_FUNCTION
    end
  end.

(** ** The orchestrator *)

Inductive RiskLevel : Type := GREEN | YELLOW | RED.

Module Sentence.
Record t : Type := { original : jsstring; translated : JsValue }.
End Sentence.

Record TranslationResponse : Type := {
  outputText : jsstring;
  riskLevel : RiskLevel;
  warnings : list jsstring;
  appliedGlossary : list jsstring;
  sentences : list Sentence.t
}.

Inductive HttpResponse : Type :=
| Ok200 (body : TranslationResponse)
| Failed (status : nat) (error : jsstring).

(** Step 7: the risk level and the warnings. *)
Definition hasUnknownPersonNames (unknownProperNouns : list jsstring) : bool :=
  existsb (fun noun => (2 <=? length noun) && (length noun <=? 4))
          unknownProperNouns.

Definition warningRED (unknownProperNouns : list jsstring) : jsstring :=
  RED_HEAD ++ join COMMA_SPACE unknownProperNouns ++ DOT_SPACE
    ++ BREAKS ++ RED_TAIL.

Definition warningYELLOW (unknownProperNouns : list jsstring) : jsstring :=
  YELLOW_HEAD ++ join COMMA_SPACE unknownProperNouns ++ DOT_SPACE
    ++ YELLOW_TAIL.

Definition determineRisk (unknownProperNouns : list jsstring)
  : RiskLevel * list jsstring :=
  if 0 <? length unknownProperNouns then
    if hasUnknownPersonNames unknownProperNouns
    then (RED, [warningRED unknownProperNouns])
    else (YELLOW, [warningYELLOW unknownProperNouns])
  else (GREEN, []).

Record Environment : Type := { OPENAI_API_KEY : option jsstring }.

(** The parsed request body: [text] is [None] when the member is absent or
    not a string. *)
Inductive RequestBody : Type :=
| InvalidJson (message : jsstring)
| Body (text : option jsstring) (mode : jsstring).

(** Steps 1 to 7 and the response, for a validated [text].  [oracle i s] is
    what the capability answers to the [i]-th call, made for sentence [s]. *)
Definition pipeline (oracle : nat -> jsstring -> ModelReply)
  (glossary : Glossary) (text : jsstring) : Completion TranslationResponse :=
  let p := protectProperNouns text glossary in
  let unknownProperNouns := detectUnknownProperNouns text glossary in
  let originalSentences := splitIntoSentences text in
  let protectedSentences := splitIntoSentences (protectedText p) in
  sentenceTranslations <-
    mapM (fun ix => translateSentence (oracle (fst ix) (snd ix)) (snd ix))
         (combine (seq 0 (length protectedSentences)) protectedSentences) ;;
  translatedTexts <- mapM toText (map translated sentenceTranslations) ;;
  let combinedTranslated := join SPACE translatedTexts in
  let outputText := restoreProperNouns combinedTranslated (placeholderMap p) in
  let (riskLevel, warnings) := determineRisk unknownProperNouns in
  sentences <-
    mapM (fun io =>
            match nth_error sentenceTranslations (fst io) with
            | Some st =>
              restored <- restoreTranslated (translated st)
                                            (placeholderMap p) ;;
              Normal {| Sentence.original := snd io;
                        Sentence.translated := restored |}
            | None =>
              Throw UNDEFINED_MEMBER
            end)
         (combine (seq 0 (length originalSentences)) originalSentences) ;;
  Normal {| outputText := outputText;
            riskLevel := riskLevel;
            warnings := warnings;
            appliedGlossary := foundProperNouns p;
            sentences := sentences |}.

Definition hasApiKey (env : Environment) : bool :=
  match OPENAI_API_KEY env with
  | Some k => nonEmpty k
  | None => false
  end.

Definition POST (env : Environment) (file : GlossaryFile)
  (oracle : nat -> jsstring -> ModelReply)
  (request : RequestBody) (glossaryCache : option Glossary)
  : HttpResponse * option Glossary :=
  if negb (hasApiKey env) then
    (Failed 500 KEY_NOT_CONFIGURED, glossaryCache)
  else
    match request with
    | InvalidJson _ => (Failed 500 INTERNAL_ERROR, glossaryCache)
    | Body text mode =>
      match text with
      | None => (Failed 400 INVALID_TEXT, glossaryCache)
      | Some text =>
        if negb (nonEmpty text) then
          (Failed 400 INVALID_TEXT, glossaryCache)
        else if negb (eqs mode VISA_STRICT) then
          (Failed 400 ONLY_VISA_STRICT, glossaryCache)
        else
          let (loaded, cache') := loadGlossary file glossaryCache in
          match (glossary <- loaded ;; pipeline oracle glossary text) with
          | Normal response => (Ok200 response, cache')
          | Throw _ => (Failed 500 INTERNAL_ERROR, cache')
          end
      end
    end.

(** * Earlier versions of the route

    The repository keeps two earlier versions of the handler, without
    glossary.  Their segmenter is the one above; their response has the
    combined translation and the sentences only. *)

Definition TRANSLATION_FAILED_PREFIX : jsstring :=
  Eval vm_compute in utf16 "Translation failed: ".
Definition ONLY_VISA_STRICT_MVP : jsstring :=
  Eval vm_compute in utf16 "Only visa-strict mode is supported in MVP".

Module Legacy.

Record TranslationResponse : Type := {
  translatedText : jsstring;
  sentences : list Sentence.t
}.

Inductive HttpResponse : Type :=
| Ok200 (body : TranslationResponse)
| Failed (status : nat) (error : jsstring).

(** The reasons of the promises that reject, in the order of the list. *)
Definition rejections {A : Type} (promises : list (Completion A))
  : list jsstring :=
  flat_map (fun c => match c with
                     | Throw reason => [reason]
                     | Normal _ => []
                     end) promises.

(** [Promise.all]: fulfilled with all the values, or rejected with the
    reason of the promise that rejects first in time; [race] is the
    position of that promise among those that reject. *)
Definition Promise_all {A : Type} (race : nat)
  (promises : list (Completion A)) : Completion (list A) :=
  match rejections promises with
  | [] => mapM (fun c => c) promises
  | reason :: reasons => Throw (nth race (reason :: reasons) reason)
  end.

(** The response both versions build from the sentences and their
    translations. *)
Definition buildResponse (sentences : list jsstring)
  (sentenceTranslations : list Translated) : Completion TranslationResponse :=
  translatedTexts <- mapM toText (map translated sentenceTranslations) ;;
  let translatedText := join SPACE translatedTexts in
  paired <-
    mapM (fun io =>
            match nth_error sentenceTranslations (fst io) with
            | Some st =>
              Normal {| Sentence.original := snd io;
                        Sentence.translated := translated st |}
            | None => Throw UNDEFINED_MEMBER
            end)
         (combine (seq 0 (length sentences)) sentences) ;;
  Normal {| translatedText := translatedText; sentences := paired |}.

(** The first version: a failing call of the model rejects. *)
Module First.

Definition translateSentence (reply : ModelReply) (sentence : jsstring)
  : Completion Translated :=
  completeAndParse reply sentence.

Definition POST (env : Environment) (oracle : nat -> jsstring -> ModelReply)
  (race : nat) (request : RequestBody) : HttpResponse :=
  if negb (hasApiKey env) then Failed 500 KEY_NOT_CONFIGURED
  else
    let attempt :=
      match request with
      | InvalidJson e => Throw e
      | Body text mode =>
        match text with
        | None => Normal (Failed 400 INVALID_TEXT)
        | Some text =>
          if negb (nonEmpty text) then Normal (Failed 400 INVALID_TEXT)
          else if negb (eqs mode VISA_STRICT) then
            Normal (Failed 400 ONLY_VISA_STRICT)
          else
            let sentences := splitIntoSentences text in
            sentenceTranslations <-
              Promise_all race
                (map (fun ix =>
                        translateSentence (oracle (fst ix) (snd ix)) (snd ix))
                     (combine (seq 0 (length sentences)) sentences)) ;;
            response <- buildResponse sentences sentenceTranslations ;;
            Normal (Ok200 response)
        end
      end in
    match attempt with
    | Normal response => response
    | Throw errorMessage =>
      Failed 500 (TRANSLATION_FAILED_PREFIX ++ errorMessage)
    end.

End First.

(** The second version: [translateSentence] catches and falls back, as in
    the final version, so that no promise rejects. *)
Module Second.

Definition translateSentence (reply : ModelReply) (sentence : jsstring)
  : Completion Translated :=
  try_catch (completeAndParse reply sentence)
            (fun _ => Normal {| translated := JsString sentence |}).

Definition POST (env : Environment) (oracle : nat -> jsstring -> ModelReply)
  (request : RequestBody) : HttpResponse :=
  if negb (hasApiKey env) then Failed 500 KEY_NOT_CONFIGURED
  else
    let attempt :=
      match request with
      | InvalidJson e => Throw e
      | Body text mode =>
        match text with
        | None => Normal (Failed 400 INVALID_TEXT)
        | Some text =>
          if negb (nonEmpty text) then Normal (Failed 400 INVALID_TEXT)
          else if negb (eqs mode VISA_STRICT) then
            Normal (Failed 400 ONLY_VISA_STRICT_MVP)
          else
            let sentences := splitIntoSentences text in
            sentenceTranslations <-
              mapM (fun ix =>
                      translateSentence (oracle (fst ix) (snd ix)) (snd ix))
                   (combine (seq 0 (length sentences)) sentences) ;;
            response <- buildResponse sentences sentenceTranslations ;;
            Normal (Ok200 response)
        end
      end in
    match attempt with
    | Normal response => response
    | Throw _ => Failed 500 INTERNAL_ERROR
    end.

End Second.

End Legacy.

(** * The page

    The click handler of the page, as a function from the state of the
    component before the click to its state once the handler has run. *)

Definition PLEASE_ENTER_TEXT : jsstring :=
  Eval vm_compute in utf16 "Please enter text to translate".
Definition TRANSLATION_FAILED : jsstring :=
  Eval vm_compute in utf16 "Translation failed".
Definition UNDEFINED : jsstring := Eval vm_compute in utf16 "undefined".
Definition COLON_SPACE : jsstring := Eval vm_compute in utf16 ": ".

(** The body of a response that is not ok, as the handler reads it. *)
Module ErrorData.
Record t : Type := { error : option jsstring; details : option jsstring }.
End ErrorData.

Module Page.

Record State : Type := {
  inputText : jsstring;
  translation : option TranslationResponse;
  editableTranslation : jsstring;
  isLoading : bool;
  error : option jsstring
}.

(** [response.json()]: the parsed body, or a syntax error. *)
Inductive Parsed (A : Type) : Type :=
| Json (value : A)
| NotJson (message : jsstring).
Arguments Json {A} value.
Arguments NotJson {A} message.

(** What [fetch] comes to: it rejects, or answers with a status that is
    not ok, or with one that is. *)
Inductive FetchOutcome : Type :=
| Rejected (message : jsstring)
| NotOk (body : Parsed ErrorData.t)
| Okay (body : Parsed TranslationResponse).

(** A string member in a condition, and in a template literal. *)
Definition truthy (member : option jsstring) : bool :=
  match member with
  | Some s => nonEmpty s
  | None => false
  end.

Definition interpolate (member : option jsstring) : jsstring :=
  match member with
  | Some s => s
  | None => UNDEFINED
  end.

Definition errorMsg (errorData : ErrorData.t) : jsstring :=
  if truthy (ErrorData.details errorData) then
    interpolate (ErrorData.error errorData) ++ COLON_SPACE
      ++ interpolate (ErrorData.details errorData)
  else if truthy (ErrorData.error errorData) then
    interpolate (ErrorData.error errorData)
  else TRANSLATION_FAILED.

Definition handleTranslate (fetch : RequestBody -> FetchOutcome) (st : State)
  : State :=
  if negb (nonEmpty (trim (inputText st))) then
    {| inputText := inputText st;
       translation := translation st;
       editableTranslation := editableTranslation st;
       isLoading := isLoading st;
       error := Some PLEASE_ENTER_TEXT |}
  else
    let attempt : Completion TranslationResponse :=
      match fetch (Body (Some (inputText st)) VISA_STRICT) with
      | Rejected message => Throw message
      | NotOk (NotJson message) => Throw message
      | NotOk (Json errorData) => Throw (errorMsg errorData)
      | Okay (NotJson message) => Throw message
      | Okay (Json data) => Normal data
      end in
    match attempt with
    | Normal data =>
      {| inputText := inputText st;
         translation := Some data;
         editableTranslation := outputText data;
         isLoading := false;
         error := None |}
    | Throw message =>
      {| inputText := inputText st;
         translation := None;
         editableTranslation := [];
         isLoading := false;
         error := Some message |}
    end.

End Page.

(** The final route as the page reaches it: the response is serialised by
    [NextResponse.json] and read back by [response.json()]; the statuses
    400 and 500 are not ok. *)
Definition viaRoute (env : Environment) (file : GlossaryFile)
  (oracle : nat -> jsstring -> ModelReply) (glossaryCache : option Glossary)
  (request : RequestBody) : Page.FetchOutcome :=
  match fst (POST env file oracle request glossaryCache) with
  | Ok200 body => Page.Okay (Page.Json body)
  | Failed _ error =>
    Page.NotOk (Page.Json {| ErrorData.error := Some error;
                             ErrorData.details := None |})
  end.

(** * Vocabulary of the statements

    Predicates, auxiliary functions and example data used to state and
    prove the properties of the handler. *)

(** ** Classes of strings *)

(** A replacement text without dollar sign is inserted as it is. *)
Definition noDollar (r : jsstring) : bool :=
  forallb (fun c => negb (c =? DOLLAR)%N) r.

Definition noUnderscore (s : jsstring) : bool :=
  forallb (fun c => negb (c =? UNDERSCORE)%N) s.

Definition noTerminator (s : jsstring) : bool :=
  forallb (fun c => negb (isTerminator c)) s.

(** White space only, the empty string included. *)
Definition blank (s : jsstring) : bool := forallb isWhiteSpace s.

(** The code units placeholders are made of. *)
Definition isPlaceholderUnit (c : unit16) : bool :=
  ((c =? UNDERSCORE) || (c =? LETTER_P) || (c =? LETTER_N))%N || isDigit c.

(** A term that is not empty and shares no code unit with placeholders. *)
Definition clean (A : jsstring) : Prop :=
  A <> [] /\ forallb (fun c => negb (isPlaceholderUnit c)) A = true.

(** A rendering with neither underscore nor dollar sign. *)
Definition plainRendering (v : jsstring) : bool := noUnderscore v && noDollar v.

(** A substring of the shape [__PN_<digits>__]. *)
Definition hasPlaceholderToken (s : jsstring) : Prop :=
  exists digits,
    digits <> [] /\ forallb isDigit digits = true /\
    includes s (PLACEHOLDER_PREFIX ++ digits ++ PLACEHOLDER_SUFFIX) = true.

(** A candidate the classifier takes for a personal name. *)
Definition nameShaped (noun : jsstring) : Prop :=
  2 <= length noun /\ length noun <= 4.

(** ** The loader *)

(** The file cannot be read, or what it holds is not valid JSON. *)
Definition loadFails (file : GlossaryFile) : Prop :=
  match file with
  | Holds _ => False
  | _ => True
  end.

(** Successive calls of [loadGlossary], one per state of the file. *)
Fixpoint loadRepeatedly (files : list GlossaryFile)
  (glossaryCache : option Glossary)
  : list (Completion Glossary) * option Glossary :=
  match files with
  | [] => ([], glossaryCache)
  | file :: files' =>
    let (result, cache') := loadGlossary file glossaryCache in
    let (results, cache'') := loadRepeatedly files' cache' in
    (result :: results, cache'')
  end.

(** ** The translator and the response *)

(** The replies [translateSentence] treats as failures. *)
Definition failed (reply : ModelReply) : Prop :=
  match reply with
  | CallFailed _ | NoContent | MalformedContent _ => True
  | Answer _ | AnswerOther _ => False
  end.

(** The replies that leave a string in the sentence translation: the
    failures and the answers whose [translated] member is a string, or is
    missing or falsy. *)
Definition textual (reply : ModelReply) : Prop :=
  match reply with
  | AnswerOther _ => False
  | _ => True
  end.

(** The replies that leave a value that can be converted to a string. *)
Definition showable (reply : ModelReply) : Prop :=
  match reply with
  | AnswerOther (Throw _) => False
  | _ => True
  end.

Definition served {A : Type} (c : Completion A) : Prop :=
  exists a, c = Normal a.

(** The value [translateSentence] hands back: the model's translation when
    there is one, the sentence itself after a failure and when the
    translation is missing or falsy. *)
Definition handedBack (reply : ModelReply) (sentence : jsstring) : JsValue :=
  match reply with
  | Answer (Some t) => JsString (if nonEmpty t then t else sentence)
  | AnswerOther shown => JsOther shown
  | _ => JsString sentence
  end.

(** The text of a value; empty when the conversion throws. *)
Definition stringOf (value : JsValue) : jsstring :=
  match toText value with
  | Normal s => s
  | Throw _ => []
  end.

(** The text of what [translateSentence] hands back: for a textual reply
    the model's translation when there is a non-empty one, and the sentence
    itself otherwise. *)
Definition translationOrFallback (reply : ModelReply) (sentence : jsstring)
  : jsstring :=
  stringOf (handedBack reply sentence).

(** The translations in the order of the protected sentences. *)
Definition translationsOf (oracle : nat -> jsstring -> ModelReply)
  (glossary : Glossary) (text : jsstring) : list Translated :=
  let protectedSentences :=
    splitIntoSentences (protectedText (protectProperNouns text glossary)) in
  map (fun ix => {| translated :=
                      handedBack (oracle (fst ix) (snd ix)) (snd ix) |})
      (combine (seq 0 (length protectedSentences)) protectedSentences).

(** A value after the restorer, when the restorer does not throw. *)
Definition restoredValue (value : JsValue)
  (placeholderMap : list (jsstring * jsstring)) : JsValue :=
  match value with
  | JsString s => JsString (restoreProperNouns s placeholderMap)
  | JsOther _ => value
  end.

(** The entry built for the [i]-th original sentence. *)
Definition entryOf (oracle : nat -> jsstring -> ModelReply)
  (glossary : Glossary) (text : jsstring) (io : nat * jsstring) : Sentence.t :=
  {| Sentence.original := snd io;
     Sentence.translated :=
       restoredValue
         (translated (nth (fst io) (translationsOf oracle glossary text)
                          {| translated := JsString [] |}))
         (placeholderMap (protectProperNouns text glossary)) |}.

(** What the answers of the model must be for the response to be built:
    every translation can be converted to a string, for the combined text;
    and the translations paired with the original sentences are strings,
    unless the placeholder map is empty. *)
Definition answersFit (oracle : nat -> jsstring -> ModelReply)
  (glossary : Glossary) (text : jsstring) : Prop :=
  let p := protectProperNouns text glossary in
  let protectedSentences := splitIntoSentences (protectedText p) in
  (forall i s, nth_error protectedSentences i = Some s ->
               showable (oracle i s)) /\
  (placeholderMap p = [] \/
   forall i s, i < length (splitIntoSentences text) ->
               nth_error protectedSentences i = Some s ->
               textual (oracle i s)).

(** The response the handler builds when it builds one. *)
Definition responseOf (oracle : nat -> jsstring -> ModelReply)
  (glossary : Glossary) (text : jsstring) : TranslationResponse :=
  let originalSentences := splitIntoSentences text in
  {| outputText :=
       restoreProperNouns
         (join SPACE (map (fun st => stringOf (translated st))
                          (translationsOf oracle glossary text)))
         (placeholderMap (protectProperNouns text glossary));
     riskLevel := fst (determineRisk (detectUnknownProperNouns text glossary));
     warnings := snd (determineRisk (detectUnknownProperNouns text glossary));
     appliedGlossary := foundProperNouns (protectProperNouns text glossary);
     sentences :=
       map (entryOf oracle glossary text)
           (combine (seq 0 (length originalSentences)) originalSentences) |}.

(** ** The segmenter *)

(** The tokens that survive the first filter, trimmed. *)
Definition trimmedTokens (text : jsstring) : list jsstring :=
  map trim (filter (fun s => nonEmpty (trim s)) (split text)).

(** A text transformation is segment preserving when it maps the tokens of
    a text to the tokens of the transformed text, keeps pieces free of
    terminators and as blank or non-blank as they were, and leaves runs of
    terminators alone. *)
Definition segmentPreserving (f : jsstring -> jsstring) : Prop :=
  (forall s, split (f s) = map f (split s)) /\
  (forall x, noTerminator x = true ->
             noTerminator (f x) = true /\ blank (f x) = blank x) /\
  (forall m, forallb isTerminator m = true -> f m = m).

(** Two sentences cut from the same piece of text, one before and one after
    the transformation, with the same closing marks attached. *)
Definition alignedWith (f : jsstring -> jsstring) (o q : jsstring) : Prop :=
  exists piece marks,
    o = trim piece ++ marks /\ q = trim (f piece) ++ marks /\
    forallb isClosingMark marks = true.

(** ** The protection loop *)

(** The entries of all categories, in iteration order. *)
Definition entriesOf (glossary : Glossary) : list (jsstring * GlossaryEntry) :=
  flat_map (fun category => snd category) glossary.

Definition sourceTerms (glossary : Glossary) : list jsstring :=
  map fst (entriesOf glossary).

(** The state of the loop before the first entry. *)
Definition start (text : jsstring) : Protection :=
  {| protectedText := text; placeholderMap := [];
     foundProperNouns := []; placeholderIndex := 0 |}.

(** Keys are the placeholders numbered so far, one per recorded term. *)
Definition wellFormed (st : Protection) : Prop :=
  length (foundProperNouns st) = placeholderIndex st /\
  map fst (placeholderMap st)
  = map placeholderOf (seq 0 (placeholderIndex st)).

(** What a run of the loop adds: terms and map entries, in step. *)
Definition extends (st st' : Protection) (fs : list jsstring)
  (ps : list (jsstring * jsstring)) : Prop :=
  foundProperNouns st' = foundProperNouns st ++ fs /\
  placeholderMap st' = placeholderMap st ++ ps /\
  length fs = length ps.

(** A list of replacements made one after the other. *)
Definition substitute (subs : list (jsstring * jsstring)) (s : jsstring)
  : jsstring :=
  fold_left (fun acc tp => replaceAll (fst tp) (snd tp) acc) subs s.

(** ** Marked texts *)

(** A translated text seen as plain code units and placeholders. *)
Inductive Chunk : Type :=
| Plain (c : unit16)
| Hole (k : nat).

Fixpoint render (chunks : list Chunk) : jsstring :=
  match chunks with
  | [] => []
  | Plain c :: rest => c :: render rest
  | Hole k :: rest => placeholderOf k ++ render rest
  end.

(** The text with the placeholder numbered [from + i] taken to be the
    [i]-th value. *)
Fixpoint fill (from : nat) (values : list jsstring) (chunks : list Chunk)
  : jsstring :=
  match chunks with
  | [] => []
  | Plain c :: rest => c :: fill from values rest
  | Hole k :: rest => nth (k - from) values [] ++ fill from values rest
  end.

(** The chunks after the holes numbered [k] have been given the text [v]. *)
Fixpoint expand (k : nat) (v : jsstring) (chunks : list Chunk) : list Chunk :=
  match chunks with
  | [] => []
  | Plain c :: rest => Plain c :: expand k v rest
  | Hole j :: rest =>
    if j =? k then map Plain v ++ expand k v rest
    else Hole j :: expand k v rest
  end.

(** Plain code units are not underscores; holes are numbered from [lo]
    up to, not including, [hi]. *)
Definition wellMarked (lo hi : nat) (chunks : list Chunk) : bool :=
  forallb (fun ch => match ch with
                     | Plain c => negb (c =? UNDERSCORE)%N
                     | Hole k => (lo <=? k) && (k <? hi)
                     end) chunks.

(** ** Example data *)

Definition HIGH : jsstring := Eval vm_compute in utf16 "high".

Definition EN_TAG : jsstring := Eval vm_compute in utf16 "EN:".

Definition entry (rendering : jsstring) : GlossaryEntry :=
  {| en := rendering; confidence := HIGH |}.

Definition configured : Environment :=
  Eval vm_compute in {| OPENAI_API_KEY := Some (utf16 "sk") |}.

(** A capability that answers every call with a translation. *)
Definition obliging : nat -> jsstring -> ModelReply :=
  fun _ sentence => Answer (Some (EN_TAG ++ sentence)).

(** A capability whose second call fails. *)
Definition secondFails : nat -> jsstring -> ModelReply :=
  fun i sentence =>
    if i =? 1 then CallFailed NO_RESPONSE else obliging i sentence.

(** A capability that never answers. *)
Definition silent : nat -> jsstring -> ModelReply := fun _ _ => NoContent.

(** A capability that answers every call with the number 42 where the
    translation should be. *)
Definition FORTY_TWO : jsstring := Eval vm_compute in utf16 "42".

Definition numeric : nat -> jsstring -> ModelReply :=
  fun _ _ => AnswerOther (Normal FORTY_TWO).

(** A capability whose second answer has the number 42 where the
    translation should be. *)
Definition secondIsNumber : nat -> jsstring -> ModelReply :=
  fun i sentence =>
    if i =? 1 then AnswerOther (Normal FORTY_TWO) else obliging i sentence.

(** A glossary with a space as source term. *)
Definition blankTerm : Glossary :=
  Eval vm_compute in [(utf16 "misc", [(utf16 " ", entry (utf16 "blank"))])].

Definition people : Glossary :=
  Eval vm_compute in
    [(utf16 "people", [(utf16 "田中太郎", entry (utf16 "Taro Tanaka"))])].

(** A registered name that ends with a full stop. *)
Definition groups : Glossary :=
  Eval vm_compute in
    [(utf16 "groups", [(utf16 "モーニング娘。", entry (utf16 "Morning Musume"))])].

(** One name is the beginning of another. *)
Definition overlapping : Glossary :=
  Eval vm_compute in
    [(utf16 "people", [(utf16 "田中太郎", entry (utf16 "Taro Tanaka"));
                       (utf16 "田中", entry (utf16 "Tanaka"))])].

(** The same term, a letter of the placeholders, in two categories. *)
Definition letters : Glossary :=
  Eval vm_compute in
    [(utf16 "compass", [(utf16 "N", entry (utf16 "North"))]);
     (utf16 "elements", [(utf16 "N", entry (utf16 "Nitrogen"))])].

(** The same name in two categories, with two renderings. *)
Definition twoRenderings : Glossary :=
  Eval vm_compute in
    [(utf16 "people", [(utf16 "田中", entry (utf16 "Tanaka"))]);
     (utf16 "places", [(utf16 "田中", entry (utf16 "Tanaka Town"))])].

Definition threeSentences : jsstring :=
  Eval vm_compute in
    utf16 "田中太郎は来日した。彼は学生です。住所は東京都です。".

(** ** Shapes of sentences *)

(** No white space at the start, or at the end. *)
Definition startsClear (s : jsstring) : Prop :=
  match s with
  | [] => True
  | c :: _ => isWhiteSpace c = false
  end.

Definition endsClear (s : jsstring) : Prop := startsClear (rev s).

(** What the segmenter returns: a trimmed piece of text followed by the
    closing marks merged into it, or a trimmed run of terminators that is
    not made of closing marks only (it holds a newline). *)
Definition sentenceShaped (s : jsstring) : Prop :=
  (exists P M,
      s = P ++ M /\ P <> [] /\ noTerminator P = true /\
      startsClear P /\ endsClear P /\ forallb isClosingMark M = true) \/
  (s <> [] /\ forallb isTerminator s = true /\
   startsClear s /\ endsClear s /\ isPunctuationOnly s = false).

(** ** The detector *)

(** A text that does not go on with a kanji, or does not end with one. *)
Definition startsOutside (post : jsstring) : Prop :=
  match post with
  | [] => True
  | c :: _ => isKanji c = false
  end.

Definition endsOutside (pre : jsstring) : Prop := startsOutside (rev pre).

(** [m] is a run of two or more kanji of [text] that cannot be extended on
    either side. *)
Definition maximalKanjiRun (text m : jsstring) : Prop :=
  exists pre post,
    text = pre ++ m ++ post /\ forallb isKanji m = true /\ 2 <= length m /\
    endsOutside pre /\ startsOutside post.

(** No source term of the glossary holds [m] or occurs in [m]. *)
Definition unrelated (glossary : Glossary) (m : jsstring) : Prop :=
  forall known,
    In known (sourceTerms glossary) ->
    includes known m = false /\ includes m known = false.

(** What the detector reports, read off the text and the glossary. *)
Definition reportable (text : jsstring) (glossary : Glossary) (m : jsstring)
  : Prop :=
  maximalKanjiRun text m /\ unrelated glossary m.

(** A glossary whose only source term is the empty string. *)
Definition emptyTerm : Glossary :=
  Eval vm_compute in [(utf16 "misc", [([], entry (utf16 "unknown"))])].

(** ** Sequences of requests *)

(** One request, with the environment, the state of the glossary file and
    the behaviour of the model at the time it is served. *)
Record Call : Type := {
  callEnv : Environment;
  callFile : GlossaryFile;
  callOracle : nat -> jsstring -> ModelReply;
  callRequest : RequestBody
}.

(** Requests served one after the other by the same process: the cache is
    handed from each to the next. *)
Fixpoint serveAll (calls : list Call) (glossaryCache : option Glossary)
  : list HttpResponse * option Glossary :=
  match calls with
  | [] => ([], glossaryCache)
  | c :: calls' =>
    let (response, cache') :=
      POST (callEnv c) (callFile c) (callOracle c) (callRequest c)
           glossaryCache in
    let (responses, cache'') := serveAll calls' cache' in
    (response :: responses, cache'')
  end.

(** Two calls that differ at most in the state of the glossary file. *)
Definition sameButFile (c c' : Call) : Prop :=
  callEnv c = callEnv c' /\ callOracle c = callOracle c' /\
  callRequest c = callRequest c'.

(** Renderings of the glossary without dollar sign. *)
Definition literalRenderings (glossary : Glossary) : bool :=
  forallb (fun item => noDollar (en (snd item))) (entriesOf glossary).

(** ** The earlier versions *)

(** The translations of the sentences of the text itself. *)
Definition plainTranslations (oracle : nat -> jsstring -> ModelReply)
  (text : jsstring) : list Translated :=
  let sentences := splitIntoSentences text in
  map (fun ix => {| translated :=
                      handedBack (oracle (fst ix) (snd ix)) (snd ix) |})
      (combine (seq 0 (length sentences)) sentences).

(** The response of the earlier versions when they build one. *)
Definition plainResponse (oracle : nat -> jsstring -> ModelReply)
  (text : jsstring) : Legacy.TranslationResponse :=
  let sentences := splitIntoSentences text in
  {| Legacy.translatedText :=
       join SPACE (map (fun st => stringOf (translated st))
                       (plainTranslations oracle text));
     Legacy.sentences :=
       map (fun io =>
              {| Sentence.original := snd io;
                 Sentence.translated :=
                   translated (nth (fst io) (plainTranslations oracle text)
                                   {| translated := JsString [] |}) |})
           (combine (seq 0 (length sentences)) sentences) |}.

(** A state of the page with the given text in the input field and nothing
    shown. *)
Definition typed (text : jsstring) : Page.State :=
  {| Page.inputText := text;
     Page.translation := None;
     Page.editableTranslation := [];
     Page.isLoading := false;
     Page.error := None |}.

(** ** What the segmenter keeps *)

(** The text without its white space. *)
Definition stripWhite (s : jsstring) : jsstring :=
  filter (fun c => negb (isWhiteSpace c)) s.

(** * Facts about the string operations *)

Section StringFacts.

Lemma eqs_true (a b : jsstring) : eqs a b = true <-> a = b.
Proof.
  revert b; induction a as [|x a IH]; intros [|y b]; simpl;
    try (split; [discriminate | congruence]); try tauto.
  rewrite andb_true_iff, N.eqb_eq, IH.
  split; [intros [-> ->]; reflexivity | intros H; inversion H; auto].
Qed.

Lemma eqs_refl (a : jsstring) : eqs a a = true.
Proof. apply eqs_true; reflexivity. Qed.

Lemma startsWith_true (s p : jsstring) :
  startsWith s p = true <-> exists r, s = p ++ r.
Proof.
  revert s; induction p as [|y p IH]; intros s; simpl.
  - split; [intros _; exists s; reflexivity | intros _; reflexivity].
  - destruct s as [|x s].
    + split; [discriminate | intros [r H]; discriminate].
    + rewrite andb_true_iff, N.eqb_eq, IH. split.
      * intros [-> [r ->]]. exists r; reflexivity.
      * intros [r H]. inversion H; subst. split; [reflexivity | eauto].
Qed.

Lemma startsWith_app (p r : jsstring) : startsWith (p ++ r) p = true.
Proof. apply startsWith_true; eauto. Qed.

Lemma startsWith_skipn (s p : jsstring) :
  startsWith s p = true -> s = p ++ skipn (length p) s.
Proof.
  intros H. apply startsWith_true in H as [r ->].
  rewrite skipn_app, skipn_all, Nat.sub_diag. reflexivity.
Qed.

Lemma includes_true (s p : jsstring) :
  includes s p = true <-> exists a b, s = a ++ p ++ b.
Proof.
  induction s as [|x s IH].
  - simpl. rewrite orb_false_r, startsWith_true. split.
    + intros [r H]. exists [], r. exact H.
    + intros [a [b H]]. destruct a; [eauto | discriminate].
  - cbn [includes]. rewrite orb_true_iff, startsWith_true, IH. split.
    + intros [[r H] | [a [b H]]].
      * exists [], r. exact H.
      * exists (x :: a), b. rewrite H. reflexivity.
    + intros [[|y a] [b H]].
      * left. exists b. exact H.
      * right. inversion H; subst. eauto.
Qed.

Lemma includes_false (s p : jsstring) :
  includes s p = false <-> forall a b, s <> a ++ p ++ b.
Proof.
  split.
  - intros H a b E.
    assert (includes s p = true) by (apply includes_true; eauto). congruence.
  - intros H. destruct (includes s p) eqn:E; [|reflexivity].
    apply includes_true in E as [a [b E]]. destruct (H a b E).
Qed.

Lemma includes_self (p : jsstring) : includes p p = true.
Proof. apply includes_true. exists [], []. rewrite app_nil_r. reflexivity. Qed.

Lemma includes_empty (s : jsstring) : includes s [] = true.
Proof. apply includes_true. exists [], s. reflexivity. Qed.

(** An occurrence inside a part is an occurrence in the whole. *)
Lemma includes_inside (u s v p : jsstring) :
  includes s p = true -> includes (u ++ s ++ v) p = true.
Proof.
  rewrite !includes_true. intros [a [b ->]].
  exists (u ++ a), (b ++ v). rewrite <- !app_assoc. reflexivity.
Qed.

Lemma includes_prefix_false (s v p : jsstring) :
  includes (s ++ v) p = false -> includes s p = false.
Proof.
  intros H. destruct (includes s p) eqn:E; [|reflexivity].
  pose proof (includes_inside [] s v p E) as H'. simpl in H'. congruence.
Qed.

Lemma includes_suffix_false (u s p : jsstring) :
  includes (u ++ s) p = false -> includes s p = false.
Proof.
  intros H. destruct (includes s p) eqn:E; [|reflexivity].
  pose proof (includes_inside u s [] p E) as H'.
  rewrite app_nil_r in H'. congruence.
Qed.

(** A string over one class of code units cannot straddle a non-empty block
    over the complementary class. *)
Lemma includes_separated (K : unit16 -> bool) (x r y A : jsstring) :
  A <> [] -> forallb K A = true ->
  r <> [] -> forallb (fun c => negb (K c)) r = true ->
  includes (x ++ r ++ y) A = true ->
  includes x A = true \/ includes y A = true.
Proof.
  intros HA KA Hr Kr H.
  apply includes_true in H as [a [b H]].
  apply app_eq_app in H as [l [[-> H] | [-> H]]].
  - apply app_eq_app in H as [l' [[-> H] | [-> H]]].
    + destruct l' as [|c l'].
      * left. apply includes_true. exists a, []. rewrite !app_nil_r.
        reflexivity.
      * exfalso. destruct r as [|c' r]; [congruence|].
        simpl in H. inversion H; subst c'.
        rewrite forallb_app in KA. simpl in KA, Kr.
        apply andb_true_iff in KA as [_ KA].
        apply andb_true_iff in KA as [KA _].
        apply andb_true_iff in Kr as [Kr _].
        rewrite KA in Kr. discriminate.
    + left. apply includes_true. exists a, l'.
      rewrite <- ?app_assoc. reflexivity.
  - apply app_eq_app in H as [l' [[-> H] | [-> H]]].
    + destruct l' as [|c l'].
      * right. apply includes_true. exists [], b. simpl in H. rewrite <- H.
        reflexivity.
      * exfalso. destruct A as [|c' A]; [congruence|].
        simpl in H. inversion H; subst c'.
        rewrite forallb_app in Kr. simpl in KA, Kr.
        apply andb_true_iff in Kr as [_ Kr].
        apply andb_true_iff in Kr as [Kr _].
        apply andb_true_iff in KA as [KA _].
        rewrite KA in Kr. discriminate.
    + right. apply includes_true. exists l', b. exact H.
Qed.

(** *** Replacement text without dollar signs *)

Lemma getSubstitution_literal (m b a r : jsstring) :
  noDollar r = true -> getSubstitution m b a r = r.
Proof.
  induction r as [|c r IH]; simpl; [reflexivity|].
  intros H. apply andb_true_iff in H as [Hc Hr].
  destruct (c =? DOLLAR)%N; [discriminate|].
  rewrite IH by exact Hr. reflexivity.
Qed.

Section Literal.

Variables p r : jsstring.
Hypothesis r_literal : noDollar r = true.

Lemma replaceFrom_fuel (n : nat) :
  forall fuel1 fuel2 before1 before2 rest,
    length rest <= n -> length rest <= fuel1 -> length rest <= fuel2 ->
    p <> [] ->
    replaceFrom p r fuel1 before1 rest = replaceFrom p r fuel2 before2 rest.
Proof.
  induction n as [|n IH]; intros fuel1 fuel2 before1 before2 rest Hn H1 H2 Hp.
  - destruct rest; [|simpl in Hn; lia].
    destruct fuel1, fuel2; reflexivity.
  - destruct rest as [|c rest].
    + destruct fuel1, fuel2; reflexivity.
    + destruct fuel1 as [|fuel1]; [simpl in H1; lia|].
      destruct fuel2 as [|fuel2]; [simpl in H2; lia|].
      cbn [replaceFrom].
      destruct (startsWith (c :: rest) p) eqn:E.
      * rewrite !getSubstitution_literal by exact r_literal. f_equal.
        assert (L : length (skipn (length p) (c :: rest)) <= length rest).
        { rewrite length_skipn. destruct p; [congruence|].
          simpl. lia. }
        simpl in Hn, H1, H2. apply IH; try lia. exact Hp.
      * f_equal. simpl in Hn, H1, H2. apply IH; try lia. exact Hp.
Qed.

Lemma replaceAll_nil : p <> [] -> replaceAll p r [] = [].
Proof. destruct p; [congruence | reflexivity]. Qed.

Lemma replaceAll_match (s : jsstring) :
  p <> [] -> startsWith s p = true ->
  replaceAll p r s = r ++ replaceAll p r (skipn (length p) s).
Proof.
  intros Hp E. unfold replaceAll.
  destruct p as [|y p'] eqn:Ep; [congruence|]. rewrite <- Ep in *.
  destruct s as [|c s].
  - rewrite Ep in E. discriminate.
  - cbn [length replaceFrom]. rewrite E.
    rewrite getSubstitution_literal by exact r_literal. f_equal.
    apply replaceFrom_fuel with (n := length s); try exact Hp; try lia;
      rewrite length_skipn, Ep; simpl; lia.
Qed.

Lemma replaceAll_skip (c : unit16) (s : jsstring) :
  p <> [] -> startsWith (c :: s) p = false ->
  replaceAll p r (c :: s) = c :: replaceAll p r s.
Proof.
  intros Hp E. unfold replaceAll.
  destruct p as [|y p'] eqn:Ep; [congruence|]. rewrite <- Ep in *.
  cbn [length replaceFrom]. rewrite E. f_equal.
  apply replaceFrom_fuel with (n := length s); try exact Hp; lia.
Qed.

Lemma replaceEmpty_literal (before rest : jsstring) :
  replaceEmpty r before rest = replaceEmpty r [] rest.
Proof.
  revert before. induction rest as [|c rest IH]; intros before; simpl.
  - rewrite !getSubstitution_literal by exact r_literal. reflexivity.
  - rewrite !getSubstitution_literal by exact r_literal.
    rewrite (IH (before ++ [c])), (IH [c]). reflexivity.
Qed.

Lemma replaceAll_empty_nil : replaceAll [] r [] = r.
Proof.
  unfold replaceAll. simpl.
  rewrite getSubstitution_literal by exact r_literal. apply app_nil_r.
Qed.

Lemma replaceAll_empty_cons (c : unit16) (s : jsstring) :
  replaceAll [] r (c :: s) = r ++ c :: replaceAll [] r s.
Proof.
  unfold replaceAll. simpl.
  rewrite getSubstitution_literal by exact r_literal.
  rewrite replaceEmpty_literal. reflexivity.
Qed.

(** Without an occurrence of the pattern nothing is replaced. *)
Lemma replaceAll_absent (s : jsstring) :
  p <> [] -> includes s p = false -> replaceAll p r s = s.
Proof.
  intros Hp. induction s as [|c s IH]; intros H.
  - apply replaceAll_nil; exact Hp.
  - cbn [includes] in H. apply orb_false_iff in H as [H1 H2].
    rewrite replaceAll_skip by assumption. f_equal. auto.
Qed.

End Literal.

End StringFacts.

(** * Facts about the orchestrator *)

Section Orchestrator.

Lemma mapM_Normal {A B : Type} (f : A -> Completion B) (g : A -> B)
  (l : list A) :
  (forall x, In x l -> f x = Normal (g x)) -> mapM f l = Normal (map g l).
Proof.
  induction l as [|a l IH]; intros H; simpl; [reflexivity|].
  rewrite (H a) by (left; reflexivity). simpl.
  rewrite IH by (intros x Hx; apply H; right; exact Hx). reflexivity.
Qed.

Lemma mapM_Throw {A B : Type} (f : A -> Completion B) (l : list A) (x : A)
  (e : jsstring) :
  In x l -> f x = Throw e -> exists e', mapM f l = Throw e'.
Proof.
  induction l as [|a l IH]; intros Hx Hf; [destruct Hx|].
  simpl. destruct Hx as [-> | Hx].
  - rewrite Hf. simpl. eauto.
  - destruct (f a); simpl; [|eauto].
    destruct (IH Hx Hf) as [e' ->]. simpl. eauto.
Qed.

Lemma In_indexed {A : Type} (l : list A) (start i : nat) (x : A) :
  In (i, x) (combine (seq start (length l)) l) ->
  start <= i /\ nth_error l (i - start) = Some x.
Proof.
  revert start. induction l as [|a l IH]; intros start H; [destruct H|].
  simpl in H. destruct H as [H | H].
  - inversion H; subst. rewrite Nat.sub_diag. split; [lia | reflexivity].
  - apply IH in H as [H1 H2]. split; [lia|].
    replace (i - start) with (S (i - S start)) by lia. exact H2.
Qed.

Lemma nth_error_indexed {A : Type} (l : list A) (start i : nat) (x : A) :
  nth_error l i = Some x ->
  nth_error (combine (seq start (length l)) l) i = Some (start + i, x).
Proof.
  revert start i. induction l as [|a l IH]; intros start [|i] H;
    try discriminate; simpl in *.
  - inversion H; subst. rewrite Nat.add_0_r. reflexivity.
  - rewrite (IH (S start) i H). f_equal. f_equal. lia.
Qed.

Lemma mapM_served {A B : Type} (f : A -> Completion B) (l : list A)
  (bs : list B) :
  mapM f l = Normal bs -> forall x, In x l -> exists b, f x = Normal b.
Proof.
  intros H x Hx. destruct (f x) as [b | e] eqn:E; [eauto|].
  destruct (mapM_Throw f l x e Hx E) as [e' He']. congruence.
Qed.

Lemma translateSentence_Normal (reply : ModelReply) (sentence : jsstring) :
  translateSentence reply sentence
  = Normal {| translated := handedBack reply sentence |}.
Proof. destruct reply as [e| |e|[t|]|shown]; reflexivity. Qed.

Lemma handedBack_textual (reply : ModelReply) (sentence : jsstring) :
  textual reply ->
  handedBack reply sentence = JsString (translationOrFallback reply sentence).
Proof.
  destruct reply as [e| |e|[t|]|shown]; intros H; try reflexivity.
  destruct H.
Qed.

Lemma handedBack_showable (reply : ModelReply) (sentence : jsstring) :
  showable reply ->
  toText (handedBack reply sentence)
  = Normal (stringOf (handedBack reply sentence)).
Proof.
  destruct reply as [e| |e|[t|]|[shown|e]]; intros H; try reflexivity.
  destruct H.
Qed.

Lemma handedBack_not_showable (reply : ModelReply) (sentence : jsstring) :
  ~ showable reply -> exists e, toText (handedBack reply sentence) = Throw e.
Proof.
  destruct reply as [e| |e|[t|]|[shown|e]]; intros H;
    try (destruct H; exact I).
  exists e. reflexivity.
Qed.

Lemma showable_dec (reply : ModelReply) : showable reply \/ ~ showable reply.
Proof.
  destruct reply as [e| |e|[t|]|[shown|e]]; simpl; auto.
Qed.

Lemma textual_dec (reply : ModelReply) : textual reply \/ ~ textual reply.
Proof.
  destruct reply as [e| |e|[t|]|shown]; simpl; auto.
Qed.

Lemma textual_showable (reply : ModelReply) : textual reply -> showable reply.
Proof.
  destruct reply as [e| |e|[t|]|[shown|e]]; simpl; auto.
Qed.

Lemma failed_textual (reply : ModelReply) : failed reply -> textual reply.
Proof.
  destruct reply as [e| |e|[t|]|shown]; simpl; auto.
Qed.

Lemma restoreTranslated_fits (value : JsValue)
  (m : list (jsstring * jsstring)) :
  m = [] \/ (exists s, value = JsString s) ->
  restoreTranslated value m = Normal (restoredValue value m).
Proof.
  intros [-> | [s ->]]; [destruct value|]; reflexivity.
Qed.

Lemma restoreTranslated_throws (shown : Completion jsstring)
  (m : list (jsstring * jsstring)) :
  m <> [] -> restoreTranslated (JsOther shown) m = Throw NOT_A_FUNCTION.
Proof. destruct m; [congruence | reflexivity]. Qed.

Variable oracle : nat -> jsstring -> ModelReply.
Variable glossary : Glossary.
Variable text : jsstring.

Let p := protectProperNouns text glossary.
Let originalSentences := splitIntoSentences text.
Let protectedSentences := splitIntoSentences (protectedText p).

Lemma translationsOf_length :
  length (translationsOf oracle glossary text) = length protectedSentences.
Proof.
  unfold translationsOf. cbv zeta. fold p originalSentences protectedSentences.
  rewrite length_map, length_combine, length_seq. apply Nat.min_id.
Qed.

Lemma translationsOf_nth (i : nat) (s : jsstring) :
  nth_error protectedSentences i = Some s ->
  nth_error (translationsOf oracle glossary text) i
  = Some {| translated := handedBack (oracle i s) s |}.
Proof.
  intros H. unfold translationsOf. cbv zeta. fold p originalSentences protectedSentences.
  rewrite nth_error_map, (nth_error_indexed _ 0 _ _ H). reflexivity.
Qed.

Lemma translationsOf_In (st : Translated) :
  In st (translationsOf oracle glossary text) <->
  exists i s, nth_error protectedSentences i = Some s /\
              st = {| translated := handedBack (oracle i s) s |}.
Proof.
  split.
  - intros H. apply In_nth_error in H as [i Hi].
    destruct (nth_error protectedSentences i) as [s|] eqn:Es.
    + exists i, s. split; [exact Es|].
      rewrite (translationsOf_nth i s Es) in Hi. congruence.
    + apply nth_error_None in Es. rewrite <- translationsOf_length in Es.
      apply nth_error_None in Es. congruence.
  - intros [i [s [Hs ->]]]. apply (nth_error_In _ i).
    apply translationsOf_nth. exact Hs.
Qed.

Lemma pipeline_translations :
  mapM (fun ix => translateSentence (oracle (fst ix) (snd ix)) (snd ix))
       (combine (seq 0 (length protectedSentences)) protectedSentences)
  = Normal (translationsOf oracle glossary text).
Proof.
  apply mapM_Normal. intros x _. apply translateSentence_Normal.
Qed.

(** The combined text is built when every translation can be converted to
    a string. *)
Lemma pipeline_texts :
  (forall i s, nth_error protectedSentences i = Some s ->
               showable (oracle i s)) ->
  mapM toText (map translated (translationsOf oracle glossary text))
  = Normal (map (fun st => stringOf (translated st))
                (translationsOf oracle glossary text)).
Proof.
  intros H. rewrite <- (map_map translated stringOf).
  apply mapM_Normal. intros v Hv.
  apply in_map_iff in Hv as [st [<- Hst]].
  apply translationsOf_In in Hst as [i [s [Hs ->]]]. cbn [translated].
  apply handedBack_showable. exact (H i s Hs).
Qed.

Lemma pipeline_texts_throw (i : nat) (s : jsstring) :
  nth_error protectedSentences i = Some s -> ~ showable (oracle i s) ->
  exists e,
    mapM toText (map translated (translationsOf oracle glossary text))
    = Throw e.
Proof.
  intros Hs Hn.
  destruct (handedBack_not_showable (oracle i s) s Hn) as [e He].
  apply (mapM_Throw toText _ (handedBack (oracle i s) s) e); [|exact He].
  apply in_map_iff. exists {| translated := handedBack (oracle i s) s |}.
  split; [reflexivity|]. apply translationsOf_In. exists i, s.
  split; [exact Hs | reflexivity].
Qed.

(** With no more original sentences than protected ones and fitting
    answers, every index is defined and the response is built. *)
Lemma pipeline_served :
  length originalSentences <= length protectedSentences ->
  answersFit oracle glossary text ->
  pipeline oracle glossary text = Normal (responseOf oracle glossary text).
Proof.
  intros Hlen [Hshow Htext]. unfold pipeline.
  fold p. fold originalSentences. fold protectedSentences.
  rewrite pipeline_translations. cbn [bind].
  rewrite (pipeline_texts Hshow). cbn [bind].
  destruct (determineRisk (detectUnknownProperNouns text glossary))
    as [level warns] eqn:Erisk.
  rewrite (mapM_Normal _ (entryOf oracle glossary text)).
  - cbn [bind]. unfold responseOf. cbv zeta. fold p originalSentences protectedSentences. rewrite Erisk. reflexivity.
  - intros [i o] Hin. apply In_indexed in Hin as [_ Hin].
    rewrite Nat.sub_0_r in Hin. cbn [fst snd].
    assert (Hio : i < length originalSentences)
      by (apply nth_error_Some; congruence).
    destruct (nth_error protectedSentences i) as [s|] eqn:Es;
      [|apply nth_error_None in Es; lia].
    rewrite (translationsOf_nth i s Es).
    unfold entryOf. cbv zeta. fold p originalSentences protectedSentences. cbn [fst snd].
    rewrite (nth_error_nth _ _ _ (translationsOf_nth i s Es)).
    cbn [translated].
    rewrite restoreTranslated_fits; [reflexivity|].
    destruct Htext as [Hm | Ht]; [left; exact Hm | right].
    exists (translationOrFallback (oracle i s) s).
    apply handedBack_textual. exact (Ht i s Hio Es).
Qed.

(** With more original sentences than protected ones the index runs past
    the translations and the handler's outer [catch] takes over. *)
Lemma pipeline_aborted :
  length protectedSentences < length originalSentences ->
  exists e, pipeline oracle glossary text = Throw e.
Proof.
  intros Hlen. unfold pipeline.
  fold p. fold originalSentences. fold protectedSentences.
  rewrite pipeline_translations. cbn [bind].
  destruct (mapM toText (map translated (translationsOf oracle glossary text)))
    as [texts | e]; cbn [bind]; [|eauto].
  destruct (determineRisk (detectUnknownProperNouns text glossary))
    as [level warns] eqn:Erisk.
  destruct (nth_error originalSentences (length protectedSentences))
    as [o|] eqn:Eo; [|apply nth_error_None in Eo; lia].
  match goal with
  | |- context [mapM ?f ?l] =>
    destruct (mapM_Throw f l (length protectedSentences, o)
                UNDEFINED_MEMBER) as [e' He']
  end.
  - pose proof (nth_error_indexed _ 0 _ _ Eo) as H.
    apply nth_error_In in H. exact H.
  - cbn [fst snd].
    destruct (nth_error (translationsOf oracle glossary text) (length protectedSentences)) eqn:E;
      [|reflexivity].
    assert (length protectedSentences < length (translationsOf oracle glossary text))
      by (apply nth_error_Some; congruence).
    rewrite translationsOf_length in *. lia.
  - rewrite He'. cbn [bind]. eauto.
Qed.

(** A translation that cannot be converted to a string stops the combined
    text. *)
Lemma pipeline_not_shown (i : nat) (s : jsstring) :
  nth_error protectedSentences i = Some s -> ~ showable (oracle i s) ->
  exists e, pipeline oracle glossary text = Throw e.
Proof.
  intros Hs Hn. unfold pipeline.
  fold p. fold originalSentences. fold protectedSentences.
  rewrite pipeline_translations. cbn [bind].
  destruct (pipeline_texts_throw i s Hs Hn) as [e He]. rewrite He.
  cbn [bind]. eauto.
Qed.

(** A translation that is not a string stops the restorer, when there is a
    placeholder to restore. *)
Lemma pipeline_not_restored (i : nat) (o s : jsstring) :
  placeholderMap p <> [] ->
  nth_error originalSentences i = Some o ->
  nth_error protectedSentences i = Some s -> ~ textual (oracle i s) ->
  exists e, pipeline oracle glossary text = Throw e.
Proof.
  intros Hm Ho Hs Hn. unfold pipeline.
  fold p. fold originalSentences. fold protectedSentences.
  rewrite pipeline_translations. cbn [bind].
  destruct (mapM toText (map translated (translationsOf oracle glossary text)))
    as [texts | e]; cbn [bind]; [|eauto].
  destruct (determineRisk (detectUnknownProperNouns text glossary))
    as [level warns] eqn:Erisk.
  match goal with
  | |- context [mapM ?f ?l] =>
    destruct (mapM_Throw f l (i, o) NOT_A_FUNCTION) as [e' He']
  end.
  - pose proof (nth_error_indexed _ 0 _ _ Ho) as H.
    apply nth_error_In in H. exact H.
  - cbn [fst snd]. rewrite (translationsOf_nth i s Hs). cbn [translated].
    destruct (oracle i s) as [e| |e|[t|]|shown];
      try (destruct Hn; exact I).
    cbn [handedBack]. rewrite (restoreTranslated_throws shown _ Hm).
    reflexivity.
  - rewrite He'. cbn [bind]. eauto.
Qed.

Lemma responseOf_sentences_length :
  length (sentences (responseOf oracle glossary text)) = length originalSentences.
Proof.
  unfold responseOf. cbv zeta. fold p originalSentences protectedSentences. cbn [sentences].
  rewrite length_map, length_combine, length_seq. apply Nat.min_id.
Qed.

Lemma responseOf_sentence (i : nat) (o s : jsstring) :
  nth_error originalSentences i = Some o ->
  nth_error protectedSentences i = Some s ->
  nth_error (sentences (responseOf oracle glossary text)) i
  = Some {| Sentence.original := o;
            Sentence.translated :=
              restoredValue (handedBack (oracle i s) s) (placeholderMap p) |}.
Proof.
  intros Ho Hs. unfold responseOf. cbv zeta. fold p originalSentences protectedSentences. cbn [sentences].
  rewrite nth_error_map, (nth_error_indexed _ 0 _ _ Ho). cbn [option_map].
  unfold entryOf. cbv zeta. fold p originalSentences protectedSentences. cbn [fst snd Nat.add].
  rewrite (nth_error_nth _ _ _ (translationsOf_nth _ _ Hs)). reflexivity.
Qed.

(** The response is built exactly when no index runs past the
    translations and the answers fit. *)
Lemma pipeline_served_iff :
  served (pipeline oracle glossary text) <->
  length originalSentences <= length protectedSentences /\
  answersFit oracle glossary text.
Proof.
  split.
  - intros [r Hr].
    assert (Hlen : length originalSentences <= length protectedSentences).
    { destruct (Nat.le_gt_cases (length originalSentences)
                                (length protectedSentences)) as [H | H];
        [exact H|].
      destruct (pipeline_aborted H) as [e He]. congruence. }
    split; [exact Hlen|]. split.
    + intros i s Hs. destruct (showable_dec (oracle i s)) as [H | H];
        [exact H|].
      destruct (pipeline_not_shown i s Hs H) as [e He]. congruence.
    + fold p. destruct (placeholderMap p) as [|kv m] eqn:Em;
        [left; reflexivity | right].
      intros i s Hi Hs. fold originalSentences in Hi.
      destruct (textual_dec (oracle i s)) as [H | H]; [exact H|].
      destruct (nth_error originalSentences i) as [o|] eqn:Eo;
        [|apply nth_error_None in Eo; lia].
      assert (Hm : placeholderMap p <> []) by (rewrite Em; discriminate).
      destruct (pipeline_not_restored i o s Hm Eo Hs H) as [e He].
      congruence.
  - intros [Hlen Hfit]. eexists. apply pipeline_served; assumption.
Qed.

End Orchestrator.

(** * The detector of unverified candidates *)


(** What the regular expression matches: runs of kanji, at least two code
    units long, taken from the text. *)
Lemma kanjiRunsFrom_sound (s run m : jsstring) :
  forallb isKanji run = true ->
  In m (kanjiRunsFrom run s) ->
  forallb isKanji m = true /\ 2 <= length m /\ includes (run ++ s) m = true.
Proof.
  revert run. induction s as [|c s IH]; intros run Hrun Hin.
  - simpl in Hin. unfold emitRun in Hin.
    destruct (2 <=? length run) eqn:E; [|destruct Hin].
    destruct Hin as [<- | []]. apply Nat.leb_le in E.
    rewrite app_nil_r. auto using includes_self.
  - simpl in Hin. destruct (isKanji c) eqn:Ec.
    + apply IH in Hin.
      * rewrite <- app_assoc in Hin. exact Hin.
      * rewrite forallb_app, Hrun. simpl. rewrite Ec. reflexivity.
    + apply in_app_or in Hin as [Hin | Hin].
      * unfold emitRun in Hin.
        destruct (2 <=? length run) eqn:E; [|destruct Hin].
        destruct Hin as [<- | []]. apply Nat.leb_le in E.
        repeat split; try assumption.
        apply (includes_inside [] run (c :: s) run), includes_self.
      * apply (IH [] eq_refl) in Hin as [H1 [H2 H3]].
        repeat split; try assumption.
        pose proof (includes_inside (run ++ [c]) s [] m H3) as H.
        rewrite app_nil_r, <- app_assoc in H. exact H.
Qed.

Lemma detectUnknownProperNouns_kanji (text : jsstring) (glossary : Glossary)
  (noun : jsstring) :
  In noun (detectUnknownProperNouns text glossary) ->
  forallb isKanji noun = true /\ 2 <= length noun.
Proof.
  unfold detectUnknownProperNouns. intros H. apply filter_In in H as [H _].
  destruct (kanjiRunsFrom_sound text [] noun eq_refl H) as [H1 [H2 _]].
  split; assumption.
Qed.

(** * The risk classifier *)

Lemma join_includes (sep x : jsstring) (l : list jsstring) :
  In x l -> includes (join sep l) x = true.
Proof.
  induction l as [|y l IH]; intros H; [destruct H|].
  destruct H as [-> | H].
  - destruct l as [|z l]; simpl join.
    + apply includes_self.
    + apply (includes_inside [] x (sep ++ join sep (z :: l)) x).
      apply includes_self.
  - destruct l as [|z l]; [destruct H|].
    change (join sep (y :: z :: l)) with (y ++ sep ++ join sep (z :: l)).
    pose proof (includes_inside (y ++ sep) _ [] x (IH H)) as H'.
    rewrite app_nil_r, <- app_assoc in H'. exact H'.
Qed.

Lemma hasUnknownPersonNames_true (l : list jsstring) :
  hasUnknownPersonNames l = true <-> exists noun, In noun l /\ nameShaped noun.
Proof.
  unfold hasUnknownPersonNames, nameShaped. rewrite existsb_exists.
  split; intros [n [Hin H]]; exists n; split; try exact Hin.
  - apply andb_true_iff in H as [H1 H2].
    apply Nat.leb_le in H1. apply Nat.leb_le in H2. split; assumption.
  - destruct H as [H1 H2]. apply andb_true_iff.
    split; apply Nat.leb_le; assumption.
Qed.

(** C4. With nothing unverified the level is GREEN and there is no warning.
    With at least one unverified candidate there is exactly one warning, it
    lists all the candidates (joined by a comma and a space), and the level
    is RED as soon as one candidate has between 2 and 4 code units, YELLOW
    when none has.  The candidates the detector hands over consist of kanji
    of the basic plane, one code unit each, so that their length in code
    units is their length in characters. *)
Theorem determineRisk_policy :
  determineRisk [] = (GREEN, []) /\
  (forall unverified : list jsstring,
      unverified <> [] ->
      (exists w pre post,
          snd (determineRisk unverified) = [w] /\
          w = pre ++ join COMMA_SPACE unverified ++ post /\
          forall noun, In noun unverified -> includes w noun = true) /\
      ((exists noun, In noun unverified /\ nameShaped noun) ->
       fst (determineRisk unverified) = RED) /\
      ((forall noun, In noun unverified -> ~ nameShaped noun) ->
       fst (determineRisk unverified) = YELLOW)) /\
  (forall text glossary noun,
      In noun (detectUnknownProperNouns text glossary) ->
      forallb isKanji noun = true /\ 2 <= length noun).
Proof.
  split; [reflexivity|].
  split; [|exact detectUnknownProperNouns_kanji].
  intros u Hu. unfold determineRisk.
  destruct u as [|n u]; [congruence|]. cbn [length Nat.ltb Nat.leb].
  set (l := n :: u).
  assert (Hinc : forall pre post noun, In noun l ->
            includes (pre ++ join COMMA_SPACE l ++ post) noun = true).
  { intros pre post noun Hin. apply includes_inside.
    apply join_includes. exact Hin. }
  destruct (hasUnknownPersonNames l) eqn:E; cbn [fst snd].
  - split; [|split; [reflexivity|]].
    + exists (warningRED l). eexists. eexists.
      split; [reflexivity|]. split.
      * unfold warningRED. reflexivity.
      * intros noun Hin. apply Hinc. exact Hin.
    + intros Hall. apply hasUnknownPersonNames_true in E as [noun [Hin Hs]].
      destruct (Hall noun Hin Hs).
  - split; [|split; [|reflexivity]].
    + exists (warningYELLOW l). eexists. eexists.
      split; [reflexivity|]. split.
      * unfold warningYELLOW. reflexivity.
      * intros noun Hin. apply Hinc. exact Hin.
    + intros Hex. apply hasUnknownPersonNames_true in Hex. congruence.
Qed.

Lemma determineRisk_policy_witness :
  fst (determineRisk [utf16 "国際交流センター"; utf16 "田中"]) = RED
  /\ fst (determineRisk [utf16 "国際交流センター"]) = YELLOW.
Proof.
  split.
  - refine (proj1 (proj2 (proj1 (proj2 determineRisk_policy) _ _)) _).
    + discriminate.
    + exists (utf16 "田中"). split; [right; left; reflexivity|].
      vm_compute. split; lia.
  - refine (proj2 (proj2 (proj1 (proj2 determineRisk_policy) _ _)) _).
    + discriminate.
    + intros noun [<- | []]. vm_compute. lia.
Defined.

(** * The glossary loader *)

Lemma restoreProperNouns_empty (s : jsstring) : restoreProperNouns s [] = s.
Proof. reflexivity. Qed.

(** C10. A failed load leaves the cache unset, so the next call reads the
    file again and caches what it then finds; a successful load fills the
    cache; and with a filled cache every later call, whatever has become of
    the file, hands back the cached glossary and leaves the cache as it
    is. *)
Theorem loadGlossary_cache (cached : Glossary) :
  (forall file, loadFails file -> snd (loadGlossary file None) = None) /\
  (forall file,
      loadFails file ->
      loadGlossary (Holds cached) (snd (loadGlossary file None))
      = (Normal cached, Some cached)) /\
  loadGlossary (Holds cached) None = (Normal cached, Some cached) /\
  (forall files,
      loadRepeatedly files (Some cached)
      = (repeat (Normal cached) (length files), Some cached)).
Proof.
  split; [|split; [|split]].
  - intros [e|e|g] H; [reflexivity | reflexivity | destruct H].
  - intros [e|e|g] H; [reflexivity | reflexivity | destruct H].
  - reflexivity.
  - induction files as [|file files IH]; [reflexivity|].
    cbn [loadRepeatedly loadGlossary length repeat]. rewrite IH. reflexivity.
Qed.

Lemma loadGlossary_cache_witness :
  snd (loadGlossary (Unreadable (utf16 "ENOENT")) None) = None /\
  loadGlossary (Holds people)
               (snd (loadGlossary (Unreadable (utf16 "ENOENT")) None))
  = (Normal people, Some people).
Proof.
  split.
  - apply (proj1 (loadGlossary_cache people)). exact I.
  - apply (proj1 (proj2 (loadGlossary_cache people))
             (Unreadable (utf16 "ENOENT"))). exact I.
Defined.

(** * Diverging segmentations *)

(** C1, as stated, fails: with the registered name [モーニング娘。] the
    original text has two sentences and the protected text one; there is no
    fallback, the index runs past the translations and the request ends in
    the internal-error response although every translation succeeded. *)
Lemma POST_diverging_segmentations_fail :
  let text := utf16 "モーニング娘。が好き。" in
  length (splitIntoSentences text) = 2 /\
  length (splitIntoSentences (protectedText (protectProperNouns text groups)))
  = 1 /\
  fst (POST configured (Holds groups) obliging (Body (Some text) VISA_STRICT)
            None)
  = Failed 500 INTERNAL_ERROR.
Proof. vm_compute. repeat split; reflexivity. Qed.

(** * The segmenter *)

Section SegmenterFacts.

Lemma isClosingMark_isTerminator (c : unit16) :
  isClosingMark c = true -> isTerminator c = true.
Proof.
  unfold isClosingMark, isTerminator. intros ->. reflexivity.
Qed.

Lemma isClosingMark_not_white (c : unit16) :
  isClosingMark c = true -> isWhiteSpace c = false.
Proof.
  unfold isClosingMark. rewrite !orb_true_iff, !N.eqb_eq.
  intros [[-> | ->] | ->]; reflexivity.
Qed.

Lemma splitFrom_piece (a cur rest : jsstring) :
  noTerminator a = true ->
  splitFrom false cur (a ++ rest) = splitFrom false (cur ++ a) rest.
Proof.
  revert cur. induction a as [|c a IH]; intros cur H; simpl.
  - rewrite app_nil_r. reflexivity.
  - simpl in H. apply andb_true_iff in H as [Hc Ha].
    apply negb_true_iff in Hc. rewrite Hc, IH by exact Ha.
    rewrite <- app_assoc. reflexivity.
Qed.

Lemma splitFrom_run (m cur rest : jsstring) :
  forallb isTerminator m = true ->
  splitFrom true cur (m ++ rest) = splitFrom true (cur ++ m) rest.
Proof.
  revert cur. induction m as [|c m IH]; intros cur H; simpl.
  - rewrite app_nil_r. reflexivity.
  - simpl in H. apply andb_true_iff in H as [Hc Hm].
    rewrite Hc, IH by exact Hm. rewrite <- app_assoc. reflexivity.
Qed.

Lemma split_plain (s : jsstring) : noTerminator s = true -> split s = [s].
Proof.
  intros H. unfold split.
  rewrite <- (app_nil_r s) at 1. rewrite splitFrom_piece by exact H.
  reflexivity.
Qed.

Lemma split_piece_then (a : jsstring) (c : unit16) (b : jsstring) :
  noTerminator a = true -> isTerminator c = true ->
  split (a ++ c :: b) = a :: splitFrom true [c] b.
Proof.
  intros Ha Hc. unfold split. rewrite splitFrom_piece by exact Ha.
  simpl. rewrite Hc. reflexivity.
Qed.

Lemma splitFrom_run_then_piece (cur : jsstring) (x : unit16) (b : jsstring) :
  isTerminator x = false ->
  splitFrom true cur (x :: b) = cur :: split (x :: b).
Proof. intros H. unfold split. simpl. rewrite H. reflexivity. Qed.

(** *** [trim] *)

Lemma trimStart_forallb (P : unit16 -> bool) (s : jsstring) :
  forallb P s = true -> forallb P (trimStart s) = true.
Proof.
  induction s as [|c s IH]; intros H; simpl; [reflexivity|].
  destruct (isWhiteSpace c); [|exact H].
  simpl in H. apply andb_true_iff in H as [_ H]. auto.
Qed.

Lemma forallb_rev (P : unit16 -> bool) (s : jsstring) :
  forallb P (rev s) = forallb P s.
Proof.
  induction s as [|c s IH]; simpl; [reflexivity|].
  rewrite forallb_app, IH. simpl. rewrite andb_true_r. apply andb_comm.
Qed.

Lemma trim_forallb (P : unit16 -> bool) (s : jsstring) :
  forallb P s = true -> forallb P (trim s) = true.
Proof.
  intros H. unfold trim, trimEnd.
  rewrite forallb_rev. apply trimStart_forallb.
  rewrite forallb_rev. apply trimStart_forallb. exact H.
Qed.

Lemma trimStart_nil (s : jsstring) : trimStart s = [] <-> blank s = true.
Proof.
  induction s as [|c s IH]; simpl; [tauto|].
  destruct (isWhiteSpace c); simpl; [exact IH|].
  split; discriminate.
Qed.

Lemma trimStart_head (s : jsstring) (c : unit16) (u : jsstring) :
  trimStart s = c :: u -> isWhiteSpace c = false.
Proof.
  induction s as [|x s IH]; simpl; [discriminate|].
  destruct (isWhiteSpace x) eqn:E; [exact IH|].
  intros H. inversion H; subst. exact E.
Qed.

Lemma trim_nil (s : jsstring) : trim s = [] <-> blank s = true.
Proof.
  unfold trim, trimEnd. rewrite <- trimStart_nil.
  destruct (trimStart s) as [|c u] eqn:E; [simpl; tauto|].
  split; [|discriminate]. intros H. exfalso.
  apply (f_equal (@rev unit16)) in H. rewrite rev_involutive in H.
  simpl in H. apply trimStart_nil in H. unfold blank in H.
  rewrite forallb_app in H. apply andb_true_iff in H as [_ H].
  simpl in H. rewrite (trimStart_head s c u E) in H. discriminate.
Qed.

Lemma nonEmpty_false (s : jsstring) : nonEmpty s = false <-> s = [].
Proof.
  destruct s; simpl; split;
    solve [reflexivity | discriminate | auto].
Qed.

Lemma nonEmpty_trim (s : jsstring) : nonEmpty (trim s) = negb (blank s).
Proof.
  destruct (blank s) eqn:E.
  - apply trim_nil in E. rewrite E. reflexivity.
  - destruct (trim s) eqn:T; [|reflexivity].
    apply trim_nil in T. congruence.
Qed.

Lemma trimStart_id (s : jsstring) :
  match s with [] => True | c :: _ => isWhiteSpace c = false end ->
  trimStart s = s.
Proof. destruct s as [|c s]; simpl; [reflexivity | intros ->; reflexivity]. Qed.

(** A string without white space at either end is left as it is. *)
Lemma trim_id (s : jsstring) :
  match s with [] => True | c :: _ => isWhiteSpace c = false end ->
  match rev s with [] => True | c :: _ => isWhiteSpace c = false end ->
  trim s = s.
Proof.
  intros H1 H2. unfold trim, trimEnd.
  rewrite (trimStart_id s H1), (trimStart_id (rev s) H2).
  apply rev_involutive.
Qed.

Lemma trim_no_white (s : jsstring) :
  forallb (fun c => negb (isWhiteSpace c)) s = true -> trim s = s.
Proof.
  intros H. apply trim_id.
  - destruct s as [|c s]; [exact I|]. simpl in H.
    apply andb_true_iff in H as [H _]. apply negb_true_iff in H. exact H.
  - rewrite <- forallb_rev in H. destruct (rev s) as [|c u]; [exact I|].
    simpl in H. apply andb_true_iff in H as [H _].
    apply negb_true_iff in H. exact H.
Qed.

Lemma isPunctuationOnly_noTerminator (s : jsstring) :
  noTerminator s = true -> isPunctuationOnly s = false.
Proof.
  destruct s as [|c s]; [reflexivity|]. simpl.
  intros H. apply andb_true_iff in H as [H _]. apply negb_true_iff in H.
  destruct (isClosingMark c) eqn:E; [|reflexivity].
  apply isClosingMark_isTerminator in E. congruence.
Qed.

(** *** The re-merging loop *)

Lemma mergeStep_nonEmpty (result : list jsstring) (sentence : jsstring) :
  forallb nonEmpty result = true -> nonEmpty sentence = true ->
  forallb nonEmpty (mergeStep result sentence) = true.
Proof.
  intros Hr Hs. unfold mergeStep. destruct (isPunctuationOnly sentence).
  - destruct result as [|x result]; [reflexivity|].
    assert (H : x :: result <> []) by discriminate.
    rewrite (app_removelast_last [] H), forallb_app in Hr.
    apply andb_true_iff in Hr as [Hr1 Hr2].
    rewrite forallb_app. apply andb_true_iff. split; [exact Hr1|].
    cbn [forallb]. rewrite andb_true_r.
    unfold nonEmpty. rewrite length_app.
    destruct sentence; [discriminate|]. cbn [length].
    apply Nat.ltb_lt. lia.
  - rewrite forallb_app. apply andb_true_iff. split; [exact Hr|].
    cbn [forallb]. rewrite Hs. reflexivity.
Qed.

Lemma fold_mergeStep_nonEmpty (l acc : list jsstring) :
  forallb nonEmpty acc = true -> forallb nonEmpty l = true ->
  forallb nonEmpty (fold_left mergeStep l acc) = true.
Proof.
  revert acc. induction l as [|s l IH]; intros acc Ha Hl; simpl;
    [exact Ha|].
  simpl in Hl. apply andb_true_iff in Hl as [Hs Hl].
  apply IH; [apply mergeStep_nonEmpty; assumption | exact Hl].
Qed.

Lemma filter_all {A : Type} (f : A -> bool) (l : list A) :
  forallb f l = true -> filter f l = l.
Proof.
  induction l as [|a l IH]; simpl; [reflexivity|].
  intros H. apply andb_true_iff in H as [-> H]. f_equal. auto.
Qed.

Lemma trimmedTokens_nonEmpty (text : jsstring) :
  forallb nonEmpty (trimmedTokens text) = true.
Proof.
  unfold trimmedTokens.
  induction (split text) as [|x l IH]; simpl; [reflexivity|].
  destruct (nonEmpty (trim x)) eqn:E; simpl; [rewrite E|]; exact IH.
Qed.

Lemma splitIntoSentences_fold (text : jsstring) :
  splitIntoSentences text = fold_left mergeStep (trimmedTokens text) [].
Proof.
  unfold splitIntoSentences. fold (trimmedTokens text).
  apply filter_all, fold_mergeStep_nonEmpty;
    [reflexivity | apply trimmedTokens_nonEmpty].
Qed.

End SegmenterFacts.

(** C6, as stated, fails: white space at the ends is trimmed away, and a
    string of white space only yields no sentence at all. *)
Lemma splitIntoSentences_not_identity :
  let s := utf16 " 田中です" in
  noTerminator s = true /\ splitIntoSentences s <> [s]
  /\ splitIntoSentences s = [utf16 "田中です"]
  /\ splitIntoSentences (utf16 "  ") = [].
Proof.
  vm_compute. repeat split; try reflexivity. discriminate.
Qed.

(** C6, amended.  A string without terminal punctuation and newline yields
    its trimmed form as the only sentence, and nothing when it is blank; so
    a non-empty string that neither starts nor ends with white space, taken
    alone or followed by closing marks, is its own segmentation. *)
Theorem splitIntoSentences_single (body marks : jsstring) :
  noTerminator body = true ->
  forallb isClosingMark marks = true ->
  (splitIntoSentences body = if blank body then [] else [trim body]) /\
  (body <> [] -> trim body = body ->
   splitIntoSentences (body ++ marks) = [body ++ marks]).
Proof.
  intros Hb Hm. split.
  - rewrite splitIntoSentences_fold. unfold trimmedTokens.
    rewrite split_plain by exact Hb. simpl. rewrite nonEmpty_trim.
    destruct (blank body); simpl; [reflexivity|].
    unfold mergeStep. rewrite isPunctuationOnly_noTerminator; [reflexivity|].
    apply trim_forallb. exact Hb.
  - intros Hne Ht.
    assert (Hbl : nonEmpty (trim body) = true).
    { rewrite Ht. destruct body; [congruence | reflexivity]. }
    assert (Hp : isPunctuationOnly body = false)
      by (apply isPunctuationOnly_noTerminator; exact Hb).
    rewrite splitIntoSentences_fold. unfold trimmedTokens.
    destruct marks as [|c marks].
    + rewrite app_nil_r, split_plain by exact Hb. simpl.
      rewrite Hbl. simpl. rewrite Ht. unfold mergeStep. rewrite Hp.
      reflexivity.
    + simpl in Hm. apply andb_true_iff in Hm as [Hc Hm].
      assert (Hall : forallb isClosingMark (c :: marks) = true)
        by (simpl; rewrite Hc, Hm; reflexivity).
      assert (Htm : trim (c :: marks) = c :: marks).
      { apply trim_no_white. rewrite forallb_forall in Hall.
        apply forallb_forall. intros x Hx. apply negb_true_iff.
        apply isClosingMark_not_white. auto. }
      assert (Hsplit : split (body ++ c :: marks) = [body; c :: marks; []]).
      { rewrite split_piece_then
          by (try exact Hb; apply isClosingMark_isTerminator; exact Hc).
        rewrite <- (app_nil_r marks) at 1. rewrite splitFrom_run.
        - reflexivity.
        - rewrite forallb_forall in Hm. apply forallb_forall.
          intros x Hx. apply isClosingMark_isTerminator. auto. }
      rewrite Hsplit. cbn [filter]. rewrite Hbl, Htm.
      change (nonEmpty (c :: marks)) with true.
      change (nonEmpty (trim [])) with false.
      cbn [map]. rewrite Ht, Htm. cbn [fold_left].
      assert (M1 : mergeStep [] body = [body])
        by (unfold mergeStep; rewrite Hp; reflexivity).
      assert (M2 : mergeStep [body] (c :: marks) = [body ++ c :: marks]).
      { unfold mergeStep.
        change (isPunctuationOnly (c :: marks))
          with (forallb isClosingMark (c :: marks)).
        rewrite Hall. reflexivity. }
      rewrite M1, M2. reflexivity.
Qed.

Lemma splitIntoSentences_single_witness :
  splitIntoSentences (utf16 "彼の住所は東京都です" ++ utf16 "。")
  = [utf16 "彼の住所は東京都です" ++ utf16 "。"].
Proof.
  apply (splitIntoSentences_single (utf16 "彼の住所は東京都です") (utf16 "。"));
    try reflexivity.
  discriminate.
Defined.

(** * Replacement and the segmenter *)

Lemma forallb_impl (P Q : unit16 -> bool) (s : jsstring) :
  (forall c, P c = true -> Q c = true) ->
  forallb P s = true -> forallb Q s = true.
Proof.
  intros H. induction s as [|c s IH]; simpl; [reflexivity|].
  intros E. apply andb_true_iff in E as [E1 E2].
  rewrite (H c E1), (IH E2). reflexivity.
Qed.

Lemma units_of_uint_digits (d : Decimal.uint) :
  forallb isDigit (units_of_uint d) = true.
Proof. induction d; simpl; try rewrite IHd; reflexivity. Qed.

Lemma units_of_uint_inj (d d' : Decimal.uint) :
  units_of_uint d = units_of_uint d' -> d = d'.
Proof.
  revert d'. induction d; intros d' H; destruct d'; simpl in H;
    try discriminate; try reflexivity;
    inversion H; f_equal; auto.
Qed.

Lemma toDecimal_inj (i j : nat) : toDecimal i = toDecimal j -> i = j.
Proof.
  intros H. apply units_of_uint_inj in H.
  apply Unsigned.to_uint_inj. exact H.
Qed.

Lemma toDecimal_nonempty (n : nat) : toDecimal n <> [].
Proof.
  unfold toDecimal. intros H.
  destruct (Nat.to_uint n) eqn:E; simpl in H; try discriminate.
  pose proof (Unsigned.to_of (Nat.to_uint n)) as T.
  rewrite Unsigned.of_to, E in T. discriminate T.
Qed.

Lemma placeholderOf_units (n : nat) :
  forallb isPlaceholderUnit (placeholderOf n) = true.
Proof.
  unfold placeholderOf. rewrite !forallb_app.
  rewrite (forallb_impl isDigit isPlaceholderUnit (toDecimal n)).
  - reflexivity.
  - intros c H. unfold isPlaceholderUnit. rewrite H. apply orb_true_r.
  - apply units_of_uint_digits.
Qed.

Lemma placeholderOf_nonempty (n : nat) : placeholderOf n <> [].
Proof. discriminate. Qed.

Lemma placeholderOf_inj (i j : nat) :
  placeholderOf i = placeholderOf j -> i = j.
Proof.
  unfold placeholderOf. intros H.
  apply app_inv_head in H. apply app_inv_tail in H.
  apply toDecimal_inj. exact H.
Qed.

Lemma placeholderOf_literal (n : nat) : noDollar (placeholderOf n) = true.
Proof.
  apply (forallb_impl isPlaceholderUnit); [|apply placeholderOf_units].
  intros c. unfold isPlaceholderUnit, isDigit.
  rewrite !orb_true_iff, andb_true_iff, !N.eqb_eq, !N.leb_le.
  intros H. apply negb_true_iff, N.eqb_neq. unfold DOLLAR.
  unfold UNDERSCORE, LETTER_P, LETTER_N in H. lia.
Qed.

Lemma placeholderOf_noTerminator (n : nat) :
  noTerminator (placeholderOf n) = true.
Proof.
  apply (forallb_impl isPlaceholderUnit); [|apply placeholderOf_units].
  intros c. unfold isPlaceholderUnit, isDigit.
  rewrite !orb_true_iff, andb_true_iff, !N.eqb_eq, !N.leb_le.
  intros H. apply negb_true_iff. unfold isTerminator.
  rewrite !orb_false_iff, !N.eqb_neq.
  unfold IDEOGRAPHIC_FULL_STOP, FULLWIDTH_EXCLAMATION, FULLWIDTH_QUESTION, LF.
  unfold UNDERSCORE, LETTER_P, LETTER_N in H. lia.
Qed.

Lemma placeholderOf_not_blank (n : nat) : blank (placeholderOf n) = false.
Proof. reflexivity. Qed.

Lemma startsWith_nil_l (p : jsstring) : p <> [] -> startsWith [] p = false.
Proof. destruct p; [congruence | reflexivity]. Qed.

Section ReplaceOne.

Variables t r : jsstring.
Hypothesis t_nonempty : t <> [].
Hypothesis r_literal : noDollar r = true.

(** Strong induction on the length of the scanned string. *)
Lemma scan_ind (P : jsstring -> Prop) :
  P [] ->
  (forall c s,
      startsWith (c :: s) t = true ->
      P (skipn (length t) (c :: s)) -> P (c :: s)) ->
  (forall c s, startsWith (c :: s) t = false -> P s -> P (c :: s)) ->
  forall s, P s.
Proof.
  intros Hnil Hmatch Hskip s.
  assert (H : forall n s', length s' <= n -> P s').
  { induction n as [|n IH]; intros s' Hn.
    - destruct s'; [exact Hnil | simpl in Hn; lia].
    - destruct s' as [|c s']; [exact Hnil|].
      destruct (startsWith (c :: s') t) eqn:E.
      + apply Hmatch; [exact E|]. apply IH.
        rewrite length_skipn. simpl in Hn |- *.
        destruct t; [congruence | simpl; lia].
      + apply Hskip; [exact E|]. apply IH. simpl in Hn. lia. }
  apply (H (length s)). apply Nat.le_refl.
Qed.

Lemma replaceAll_forallb (P : unit16 -> bool) (s : jsstring) :
  forallb P r = true -> forallb P s = true ->
  forallb P (replaceAll t r s) = true.
Proof.
  intros Hr. pattern s. apply scan_ind; clear s.
  - intros _. rewrite replaceAll_nil by assumption. reflexivity.
  - intros c s E IH H.
    rewrite replaceAll_match by assumption.
    rewrite forallb_app, Hr. apply IH.
    rewrite (startsWith_skipn _ _ E), forallb_app in H.
    apply andb_true_iff in H as [_ H]. exact H.
  - intros c s E IH H. rewrite replaceAll_skip by assumption.
    simpl in H |- *. apply andb_true_iff in H as [-> H]. auto.
Qed.

(** A blank string stays blank and a non-blank one stays non-blank. *)
Lemma replaceAll_blank (s : jsstring) :
  blank t = false -> blank r = false ->
  blank (replaceAll t r s) = blank s.
Proof.
  intros Ht Hr. pattern s. apply scan_ind; clear s.
  - rewrite replaceAll_nil by assumption. reflexivity.
  - intros c s E _. rewrite replaceAll_match by assumption.
    rewrite (startsWith_skipn _ _ E) at 2.
    unfold blank in *. rewrite !forallb_app, Ht, Hr. reflexivity.
  - intros c s E IH. rewrite replaceAll_skip by assumption.
    unfold blank in *. simpl. rewrite IH. reflexivity.
Qed.

Section AcrossUnit.

(** A code unit that does not occur in the pattern. *)
Variable c : unit16.
Hypothesis c_fresh : forallb (fun x => negb (x =? c)%N) t = true.

Lemma startsWith_before (a b : jsstring) :
  startsWith (a ++ c :: b) t = startsWith a t.
Proof.
  revert a c_fresh. clear t_nonempty.
  induction t as [|y t' IH]; intros a Hc; [reflexivity|].
  simpl in Hc. apply andb_true_iff in Hc as [Hy Hc].
  destruct a as [|x a]; simpl.
  - rewrite N.eqb_sym. apply negb_true_iff in Hy. rewrite Hy. reflexivity.
  - rewrite (IH a Hc). reflexivity.
Qed.

Lemma skipn_before (a b : jsstring) :
  startsWith a t = true ->
  skipn (length t) (a ++ c :: b) = skipn (length t) a ++ c :: b.
Proof.
  intros E. apply startsWith_true in E as [u ->].
  rewrite <- app_assoc.
  rewrite !skipn_app, !skipn_all, Nat.sub_diag. reflexivity.
Qed.

(** Replacement never reaches across such a code unit. *)
Lemma replaceAll_across (a b : jsstring) :
  replaceAll t r (a ++ c :: b)
  = replaceAll t r a ++ c :: replaceAll t r b.
Proof.
  pattern a. apply scan_ind; clear a.
  - rewrite replaceAll_nil by assumption. simpl.
    apply replaceAll_skip; try assumption.
    pose proof (startsWith_before [] b) as E. simpl in E.
    rewrite E. apply startsWith_nil_l. exact t_nonempty.
  - intros x a E IH.
    rewrite (replaceAll_match t r r_literal (x :: a)) by assumption.
    change ((x :: a) ++ c :: b) with (x :: a ++ c :: b) in *.
    rewrite replaceAll_match; try assumption.
    + change (x :: a ++ c :: b) with ((x :: a) ++ c :: b).
      rewrite skipn_before by exact E.
      rewrite IH, <- app_assoc. reflexivity.
    + change (x :: a ++ c :: b) with ((x :: a) ++ c :: b).
      rewrite startsWith_before. exact E.
  - intros x a E IH.
    rewrite (replaceAll_skip t r r_literal x a) by assumption.
    change ((x :: a) ++ c :: b) with (x :: a ++ c :: b).
    rewrite replaceAll_skip; try assumption.
    + rewrite IH. reflexivity.
    + change (x :: a ++ c :: b) with ((x :: a) ++ c :: b).
      rewrite startsWith_before. exact E.
Qed.

End AcrossUnit.

Hypothesis t_noTerminator : noTerminator t = true.
Hypothesis r_noTerminator : noTerminator r = true.
Hypothesis r_nonempty : r <> [].

Lemma terminator_fresh (c : unit16) :
  isTerminator c = true -> forallb (fun x => negb (x =? c)%N) t = true.
Proof.
  intros Hc. apply (forallb_impl (fun x => negb (isTerminator x)));
    [|exact t_noTerminator].
  intros x Hx. apply negb_true_iff, N.eqb_neq. intros ->.
  rewrite Hc in Hx. discriminate.
Qed.

Lemma replaceAll_run (m : jsstring) :
  forallb isTerminator m = true -> replaceAll t r m = m.
Proof.
  induction m as [|c m IH]; intros H.
  - apply replaceAll_nil; assumption.
  - simpl in H. apply andb_true_iff in H as [Hc Hm].
    pose proof (replaceAll_across c (terminator_fresh c Hc) [] m) as E.
    simpl in E. rewrite E, replaceAll_nil, IH by assumption. reflexivity.
Qed.

Lemma replaceAll_head (x : unit16) (b : jsstring) :
  isTerminator x = false ->
  exists y rest, replaceAll t r (x :: b) = y :: rest
                 /\ isTerminator y = false.
Proof.
  intros Hx. destruct (startsWith (x :: b) t) eqn:E.
  - rewrite replaceAll_match by assumption.
    destruct r as [|y r']; [congruence|].
    exists y, (r' ++ replaceAll t (y :: r') (skipn (length t) (x :: b))).
    split; [reflexivity|]. simpl in r_noTerminator.
    apply andb_true_iff in r_noTerminator as [H _].
    apply negb_true_iff in H. exact H.
  - rewrite replaceAll_skip by assumption. eauto.
Qed.

(** The tokens of the replaced text are the replaced tokens. *)
Lemma split_replaceAll_both (n : nat) :
  forall s, length s <= n ->
    split (replaceAll t r s) = map (replaceAll t r) (split s) /\
    forall cur, forallb isTerminator cur = true ->
      splitFrom true cur (replaceAll t r s)
      = map (replaceAll t r) (splitFrom true cur s).
Proof.
  induction n as [|n IH]; intros s Hn.
  - destruct s; [|simpl in Hn; lia].
    rewrite replaceAll_nil by assumption. split.
    + unfold split. cbn [splitFrom map].
      rewrite replaceAll_nil by assumption. reflexivity.
    + intros cur Hcur. cbn [splitFrom map].
      rewrite replaceAll_run, replaceAll_nil by assumption. reflexivity.
  - assert (Hfalse : split (replaceAll t r s)
                     = map (replaceAll t r) (split s)).
    { destruct (noTerminator s) eqn:Es.
      - rewrite (split_plain s Es). simpl.
        apply split_plain. apply replaceAll_forallb; assumption.
      - assert (D : exists a c b, s = a ++ c :: b
                      /\ noTerminator a = true /\ isTerminator c = true).
        { clear - Es. induction s as [|x s IHs]; [discriminate|].
          simpl in Es. destruct (isTerminator x) eqn:Ex.
          - exists [], x, s. auto.
          - simpl in Es. destruct (IHs Es) as [a [c [b [-> [Ha Hc]]]]].
            exists (x :: a), c, b. split; [reflexivity|].
            split; [|exact Hc]. simpl. rewrite Ex, Ha. reflexivity. }
        destruct D as [a [c [b [-> [Ha Hc]]]]].
        rewrite (replaceAll_across c (terminator_fresh c Hc)).
        rewrite !split_piece_then; try assumption.
        + simpl. f_equal.
          assert (Hb : length b <= n)
            by (rewrite length_app in Hn; simpl in Hn; lia).
          destruct (IH b Hb) as [_ H]. apply (H [c]).
          simpl. rewrite Hc. reflexivity.
        + apply replaceAll_forallb; assumption. }
    split; [exact Hfalse|].
    intros cur Hcur. destruct s as [|x b].
    + rewrite replaceAll_nil by assumption. cbn [splitFrom map].
      rewrite replaceAll_run, replaceAll_nil by assumption. reflexivity.
    + destruct (isTerminator x) eqn:Ex.
      * pose proof (replaceAll_across x (terminator_fresh x Ex) [] b) as E.
        simpl in E. rewrite replaceAll_nil in E by assumption.
        simpl in E. rewrite E. simpl. rewrite Ex.
        assert (Hb : length b <= n) by (simpl in Hn; lia).
        destruct (IH b Hb) as [_ H]. apply H.
        rewrite forallb_app, Hcur. simpl. rewrite Ex. reflexivity.
      * rewrite (splitFrom_run_then_piece cur x b Ex).
        destruct (replaceAll_head x b Ex) as [y [rest [E Hy]]].
        rewrite E, (splitFrom_run_then_piece cur y rest Hy), <- E, Hfalse.
        simpl. rewrite replaceAll_run by assumption. reflexivity.
Qed.

Lemma split_replaceAll (s : jsstring) :
  split (replaceAll t r s) = map (replaceAll t r) (split s).
Proof. apply (split_replaceAll_both (length s) s), Nat.le_refl. Qed.

(** Every token is a piece without terminators or a run of them. *)
Lemma splitFrom_tokens (s : jsstring) :
  forall (inRun : bool) (cur : jsstring),
    (if inRun then forallb isTerminator cur else noTerminator cur) = true ->
    forall x, In x (splitFrom inRun cur s) ->
              noTerminator x = true \/ forallb isTerminator x = true.
Proof.
  clear. induction s as [|c s IH]; intros inRun cur Hcur x Hx.
  - destruct inRun; simpl in Hx.
    + destruct Hx as [<- | [<- | []]]; auto.
    + destruct Hx as [<- | []]; auto.
  - simpl in Hx. destruct (isTerminator c) eqn:Ec; destruct inRun.
    + apply (IH true (cur ++ [c])); [|exact Hx].
      rewrite forallb_app, Hcur. simpl. rewrite Ec. reflexivity.
    + destruct Hx as [<- | Hx]; [auto|].
      apply (IH true [c]); [|exact Hx]. simpl. rewrite Ec. reflexivity.
    + destruct Hx as [<- | Hx]; [auto|].
      apply (IH false [c]); [|exact Hx].
      unfold noTerminator. simpl. rewrite Ec. reflexivity.
    + apply (IH false (cur ++ [c])); [|exact Hx].
      unfold noTerminator in *. rewrite forallb_app, Hcur. simpl.
      rewrite Ec. reflexivity.
Qed.

End ReplaceOne.

(** ** Transformations the segmenter cannot see *)

Lemma segmentPreserving_replaceAll (t r : jsstring) :
  noTerminator t = true -> blank t = false ->
  noDollar r = true -> noTerminator r = true -> blank r = false ->
  segmentPreserving (replaceAll t r).
Proof.
  intros Ht Bt Lr Hr Br.
  assert (Nt : t <> []) by (intros ->; discriminate).
  assert (Nr : r <> []) by (intros ->; discriminate).
  split; [|split].
  - intros s. apply split_replaceAll; assumption.
  - intros x Hx. split.
    + apply replaceAll_forallb; assumption.
    + apply replaceAll_blank; assumption.
  - intros m Hm. apply replaceAll_run; assumption.
Qed.

Lemma segmentPreserving_id : segmentPreserving (fun s => s).
Proof.
  split; [|split]; auto.
  intros s. symmetry. apply map_id.
Qed.

Lemma segmentPreserving_compose (f g : jsstring -> jsstring) :
  segmentPreserving f -> segmentPreserving g ->
  segmentPreserving (fun s => g (f s)).
Proof.
  intros [F1 [F2 F3]] [G1 [G2 G3]]. split; [|split].
  - intros s. cbv beta. rewrite G1, F1, map_map. reflexivity.
  - intros x Hx. destruct (F2 x Hx) as [A B].
    destruct (G2 (f x) A) as [C D]. split; [exact C | congruence].
  - intros m Hm. rewrite (F3 m Hm). apply G3. exact Hm.
Qed.

Lemma segmentPreserving_substitute (subs : list (jsstring * jsstring)) :
  (forall t r, In (t, r) subs -> segmentPreserving (replaceAll t r)) ->
  segmentPreserving (substitute subs).
Proof.
  induction subs as [|[t r] subs IH]; intros H.
  - exact segmentPreserving_id.
  - apply (segmentPreserving_compose (replaceAll t r) (substitute subs)).
    + apply H. left. reflexivity.
    + apply IH. intros t' r' Hin. apply H. right. exact Hin.
Qed.

Section Aligned.

Variable f : jsstring -> jsstring.
Hypothesis f_preserving : segmentPreserving f.

Lemma aligned_last (acc acc' : list jsstring) :
  Forall2 (alignedWith f) acc acc' -> acc <> [] ->
  acc' <> [] /\
  Forall2 (alignedWith f) (removelast acc) (removelast acc') /\
  alignedWith f (last acc []) (last acc' []).
Proof.
  induction 1 as [|o q acc acc' Hoq Hrest IH]; intros Hne; [congruence|].
  split; [discriminate|].
  destruct Hrest as [|o2 q2 acc2 acc2' H2 Hrest2].
  - simpl. split; [constructor | exact Hoq].
  - destruct IH as [_ [IH1 IH2]]; [discriminate|].
    split.
    + change (removelast (o :: o2 :: acc2))
        with (o :: removelast (o2 :: acc2)).
      change (removelast (q :: q2 :: acc2'))
        with (q :: removelast (q2 :: acc2')).
      constructor; assumption.
    + exact IH2.
Qed.

Lemma mergeStep_pushes (acc acc' : list jsstring) (o q : jsstring) :
  isPunctuationOnly o = false -> isPunctuationOnly q = false ->
  Forall2 (alignedWith f) acc acc' -> alignedWith f o q ->
  Forall2 (alignedWith f) (mergeStep acc o) (mergeStep acc' q).
Proof.
  intros Ho Hq Hacc Hoq. unfold mergeStep. rewrite Ho, Hq.
  apply Forall2_app; [exact Hacc|]. constructor; [exact Hoq | constructor].
Qed.

Lemma mergeStep_merges (acc acc' : list jsstring) (y : jsstring) :
  isPunctuationOnly y = true ->
  Forall2 (alignedWith f) acc acc' ->
  Forall2 (alignedWith f) (mergeStep acc y) (mergeStep acc' y).
Proof.
  intros Hy Hacc. unfold mergeStep. rewrite Hy.
  destruct acc as [|o acc].
  - inversion Hacc; subst. constructor.
  - destruct (aligned_last _ _ Hacc) as [Hne [H1 H2]]; [discriminate|].
    destruct acc' as [|q acc']; [congruence|].
    apply Forall2_app; [exact H1|]. constructor; [|constructor].
    destruct H2 as [piece [marks [E1 [E2 Hm]]]].
    exists piece, (marks ++ y). rewrite E1, E2, <- !app_assoc.
    split; [reflexivity|]. split; [reflexivity|].
    rewrite forallb_app, Hm. destruct y; [discriminate | exact Hy].
Qed.

Lemma fold_aligned (toks : list jsstring) :
  (forall x, In x toks ->
             noTerminator x = true \/ forallb isTerminator x = true) ->
  forall acc acc',
    Forall2 (alignedWith f) acc acc' ->
    Forall2 (alignedWith f)
      (fold_left mergeStep
         (map trim (filter (fun s => nonEmpty (trim s)) toks)) acc)
      (fold_left mergeStep
         (map trim (filter (fun s => nonEmpty (trim s)) (map f toks)))
         acc').
Proof.
  destruct f_preserving as [_ [Fpiece Frun]].
  induction toks as [|x toks IH]; intros Htoks acc acc' Hacc;
    [exact Hacc|].
  assert (Hrest : forall y, In y toks ->
             noTerminator y = true \/ forallb isTerminator y = true)
    by (intros y Hy; apply Htoks; right; exact Hy).
  cbn [map filter].
  destruct (Htoks x (or_introl eq_refl)) as [Hp | Hm].
  - destruct (Fpiece x Hp) as [Hfp Hfb].
    rewrite !nonEmpty_trim, Hfb.
    destruct (blank x); cbn [negb map fold_left]; [apply IH; assumption|].
    apply IH; [exact Hrest|].
    apply mergeStep_pushes; try assumption.
    + apply isPunctuationOnly_noTerminator, trim_forallb. exact Hp.
    + apply isPunctuationOnly_noTerminator, trim_forallb. exact Hfp.
    + exists x, []. rewrite !app_nil_r. auto.
  - rewrite (Frun x Hm).
    destruct (nonEmpty (trim x)); cbn [map fold_left];
      [|apply IH; assumption].
    apply IH; [exact Hrest|].
    destruct (isPunctuationOnly (trim x)) eqn:E.
    + apply mergeStep_merges; assumption.
    + apply mergeStep_pushes; try assumption.
      exists x, []. rewrite (Frun x Hm), !app_nil_r. auto.
Qed.

(** The sentences of a text and of its transformed text are aligned. *)
Lemma splitIntoSentences_aligned (s : jsstring) :
  Forall2 (alignedWith f) (splitIntoSentences s) (splitIntoSentences (f s)).
Proof.
  rewrite !splitIntoSentences_fold. unfold trimmedTokens.
  destruct f_preserving as [Fsplit _]. rewrite Fsplit.
  apply fold_aligned; [|constructor].
  intros x Hx. apply (splitFrom_tokens s false [] eq_refl x Hx).
Qed.

End Aligned.

(** * The protection loop *)

Section ProtectionLoop.

Lemma protectProperNouns_entries (text : jsstring) (glossary : Glossary) :
  protectProperNouns text glossary
  = fold_left protectEntry (entriesOf glossary) (start text).
Proof.
  unfold protectProperNouns, entriesOf. fold (start text).
  generalize (start text).
  induction glossary as [|category glossary IH]; intros st; [reflexivity|].
  simpl. rewrite fold_left_app. apply IH.
Qed.

Lemma fold_protect_ind (Q : Protection -> Prop)
  (entries : list (jsstring * GlossaryEntry)) :
  (forall st item, In item entries -> Q st -> Q (protectEntry st item)) ->
  forall st, Q st -> Q (fold_left protectEntry entries st).
Proof.
  induction entries as [|item entries IH]; intros Hstep st Hst; [exact Hst|].
  simpl. apply IH.
  - intros st' item' Hin. apply Hstep. right. exact Hin.
  - apply Hstep; [left; reflexivity | exact Hst].
Qed.

Lemma Map_set_fresh (key value : jsstring) (m : list (jsstring * jsstring)) :
  ~ In key (map fst m) -> Map_set key value m = m ++ [(key, value)].
Proof.
  induction m as [|[k v] m IH]; intros H; [reflexivity|].
  simpl in H |- *. destruct (eqs k key) eqn:E.
  - apply eqs_true in E. exfalso. apply H. left. exact E.
  - rewrite IH; [reflexivity|]. intros Hin. apply H. right. exact Hin.
Qed.

Lemma placeholderOf_fresh (n : nat) :
  ~ In (placeholderOf n) (map placeholderOf (seq 0 n)).
Proof.
  intros H. apply in_map_iff in H as [k [E Hk]].
  apply placeholderOf_inj in E. apply in_seq in Hk. lia.
Qed.

(** The step that records a term. *)
Lemma protectEntry_found (st : Protection) (japanese : jsstring)
  (e : GlossaryEntry) :
  wellFormed st -> includes (protectedText st) japanese = true ->
  protectEntry st (japanese, e)
  = {| protectedText :=
         replaceAll japanese (placeholderOf (placeholderIndex st))
                    (protectedText st);
       placeholderMap :=
         placeholderMap st ++ [(placeholderOf (placeholderIndex st), en e)];
       foundProperNouns := foundProperNouns st ++ [japanese];
       placeholderIndex := S (placeholderIndex st) |}.
Proof.
  intros [_ Hkeys] Hinc. unfold protectEntry. rewrite Hinc.
  rewrite Map_set_fresh; [reflexivity|].
  rewrite Hkeys. apply placeholderOf_fresh.
Qed.

Lemma protectEntry_skipped (st : Protection) (japanese : jsstring)
  (e : GlossaryEntry) :
  includes (protectedText st) japanese = false ->
  protectEntry st (japanese, e) = st.
Proof. intros Hinc. unfold protectEntry. rewrite Hinc. reflexivity. Qed.

Lemma protectEntry_wellFormed (st : Protection)
  (item : jsstring * GlossaryEntry) :
  wellFormed st -> wellFormed (protectEntry st item).
Proof.
  intros Hwf. destruct item as [japanese e].
  destruct (includes (protectedText st) japanese) eqn:Hinc.
  - rewrite protectEntry_found by assumption.
    destruct Hwf as [Hlen Hkeys]. split; cbn [foundProperNouns
      placeholderMap placeholderIndex].
    + rewrite length_app, Hlen. simpl. lia.
    + rewrite map_app, Hkeys, seq_S, map_app. reflexivity.
  - rewrite protectEntry_skipped by assumption. exact Hwf.
Qed.

Lemma start_wellFormed (text : jsstring) : wellFormed (start text).
Proof. split; reflexivity. Qed.

Lemma fold_wellFormed (entries : list (jsstring * GlossaryEntry))
  (st : Protection) :
  wellFormed st -> wellFormed (fold_left protectEntry entries st).
Proof.
  apply fold_protect_ind. intros st' item _. apply protectEntry_wellFormed.
Qed.

Lemma fold_extends (entries : list (jsstring * GlossaryEntry)) :
  forall st, wellFormed st ->
    exists fs ps,
      extends st (fold_left protectEntry entries st) fs ps /\
      (forall x, In x fs -> In x (map fst entries)) /\
      (forall k v, In (k, v) ps ->
                   exists term e, In (term, e) entries /\ v = en e).
Proof.
  induction entries as [|[japanese e] entries IH]; intros st Hwf.
  - exists [], []. unfold extends. simpl. rewrite !app_nil_r.
    repeat split; try reflexivity; intros; contradiction.
  - cbn [fold_left].
    pose proof (protectEntry_wellFormed st (japanese, e) Hwf) as Hwf'.
    destruct (includes (protectedText st) japanese) eqn:Hinc.
    + rewrite (protectEntry_found st japanese e Hwf Hinc) in Hwf' |- *.
      destruct (IH _ Hwf') as [fs [ps [[E1 [E2 E3]] [Hfs Hps]]]].
      cbn [foundProperNouns placeholderMap] in E1, E2.
      rewrite <- app_assoc in E1, E2.
      exists ([japanese] ++ fs),
        ([(placeholderOf (placeholderIndex st), en e)] ++ ps).
      split; [|split].
      * split; [exact E1|]. split; [exact E2|].
        rewrite !length_app, E3. reflexivity.
      * intros x [<- | Hx]; [left; reflexivity|]. right. auto.
      * intros k v [H | H].
        -- inversion H; subst. exists japanese, e.
           split; [left; reflexivity | reflexivity].
        -- destruct (Hps k v H) as [term [e' [Hin Hv]]].
           exists term, e'. split; [right; exact Hin | exact Hv].
    + rewrite (protectEntry_skipped st japanese e Hinc) in Hwf' |- *.
      destruct (IH _ Hwf') as [fs [ps [[E1 [E2 E3]] [Hfs Hps]]]].
      exists fs, ps. split; [|split].
      * split; [exact E1|]. split; [exact E2 | exact E3].
      * intros x Hx. right. auto.
      * intros k v H. destruct (Hps k v H) as [term [e' [Hin Hv]]].
        exists term, e'. split; [right; exact Hin | exact Hv].
Qed.

(** The protected text is the text with the recorded replacements made. *)
Lemma fold_substitute (entries : list (jsstring * GlossaryEntry)) :
  forall st,
    exists subs,
      protectedText (fold_left protectEntry entries st)
      = substitute subs (protectedText st) /\
      forall t r, In (t, r) subs ->
                  In t (map fst entries) /\ exists k, r = placeholderOf k.
Proof.
  induction entries as [|[japanese e] entries IH]; intros st.
  - exists []. split; [reflexivity | intros t r []].
  - cbn [fold_left]. unfold protectEntry at 2.
    destruct (includes (protectedText st) japanese) eqn:Hinc.
    + destruct (IH {| protectedText :=
                        replaceAll japanese
                                   (placeholderOf (placeholderIndex st))
                                   (protectedText st);
                      placeholderMap :=
                        Map_set (placeholderOf (placeholderIndex st)) (en e)
                                (placeholderMap st);
                      foundProperNouns := foundProperNouns st ++ [japanese];
                      placeholderIndex := S (placeholderIndex st) |})
        as [subs [E H]].
      cbn [protectedText] in E.
      exists ((japanese, placeholderOf (placeholderIndex st)) :: subs).
      split; [exact E|].
      intros t r [Htr | Htr].
      * inversion Htr; subst. split; [left; reflexivity | eauto].
      * destruct (H t r Htr) as [H1 H2]. split; [right; exact H1 | exact H2].
    + destruct (IH st) as [subs [E H]].
      exists subs. split; [exact E|].
      intros t r Htr. destruct (H t r Htr) as [H1 H2].
      split; [right; exact H1 | exact H2].
Qed.

End ProtectionLoop.

(** C7, as stated, fails: a registered name that contains a full stop is
    replaced as a whole, so the protected text has one sentence where the
    original has two, and the first protected sentence is not the
    counterpart of the first original one. *)
Lemma segmentations_diverge :
  let text := utf16 "モーニング娘。のファンです。" in
  splitIntoSentences text = [utf16 "モーニング娘。"; utf16 "のファンです。"]
  /\ splitIntoSentences (protectedText (protectProperNouns text groups))
     = [utf16 "__PN_0__のファンです。"].
Proof. vm_compute. split; reflexivity. Qed.

(** C7, amended.  Placeholders contain no terminator.  When no source term
    of the vocabulary contains a terminator ([。], [！], [？], newline) and
    none consists of white space only (none is empty, then), the protected
    text is the original text with the recorded replacements made, both
    texts yield the same number of sentences, and the sentences at the same
    index are cut from the same piece of text and carry the same closing
    marks. *)
Theorem protect_keeps_segmentation (text : jsstring) (glossary : Glossary) :
  (forall term, In term (sourceTerms glossary) ->
                noTerminator term = true /\ blank term = false) ->
  let p := protectProperNouns text glossary in
  (forall n, noTerminator (placeholderOf n) = true) /\
  length (splitIntoSentences (protectedText p))
  = length (splitIntoSentences text) /\
  exists subs,
    (forall t r, In (t, r) subs ->
                 In t (sourceTerms glossary) /\ exists k, r = placeholderOf k) /\
    protectedText p = substitute subs text /\
    Forall2 (alignedWith (substitute subs))
            (splitIntoSentences text) (splitIntoSentences (protectedText p)).
Proof.
  intros Hterms p. split; [exact placeholderOf_noTerminator|].
  destruct (fold_substitute (entriesOf glossary) (start text))
    as [subs [E Hsubs]].
  rewrite <- protectProperNouns_entries in E. fold p in E.
  cbn [start protectedText] in E.
  assert (A : Forall2 (alignedWith (substitute subs))
                      (splitIntoSentences text)
                      (splitIntoSentences (protectedText p))).
  { rewrite E. apply splitIntoSentences_aligned.
    apply segmentPreserving_substitute. intros t r Htr.
    destruct (Hsubs t r Htr) as [Ht [k ->]].
    destruct (Hterms t Ht) as [H1 H2].
    apply segmentPreserving_replaceAll; try assumption.
    - apply placeholderOf_literal.
    - apply placeholderOf_noTerminator.
    - apply placeholderOf_not_blank. }
  split.
  - symmetry. apply (Forall2_length A).
  - exists subs. split; [exact Hsubs|]. split; [exact E | exact A].
Qed.

Lemma protect_keeps_segmentation_witness :
  length (splitIntoSentences
            (protectedText (protectProperNouns threeSentences people)))
  = length (splitIntoSentences threeSentences).
Proof.
  apply (protect_keeps_segmentation threeSentences people).
  intros term [<- | []]. split; reflexivity.
Defined.

(** * Terms that share no code unit with the placeholders *)

Lemma app_same_length {X : Type} (g x u v : list X) :
  g ++ u = x ++ v -> length g = length x -> g = x /\ u = v.
Proof.
  revert x. induction g as [|a g IH]; intros [|b x] E L;
    try discriminate; [auto|].
  simpl in E, L. inversion E; subst.
  destruct (IH x H1) as [-> ->]; [lia | auto].
Qed.

Section CleanTerm.

Variable A : jsstring.
Hypothesis A_clean : clean A.

Lemma clean_not_in_nil : includes [] A = false.
Proof.
  destruct A_clean as [HA _]. destruct A; [congruence | reflexivity].
Qed.

(** An occurrence of the term cannot touch a placeholder. *)
Lemma clean_separated (x y : jsstring) (k : nat) :
  includes (x ++ placeholderOf k ++ y) A = true ->
  includes x A = true \/ includes y A = true.
Proof.
  destruct A_clean as [HA KA].
  apply (includes_separated (fun c => negb (isPlaceholderUnit c)));
    try assumption.
  - apply placeholderOf_nonempty.
  - apply (forallb_impl isPlaceholderUnit); [|apply placeholderOf_units].
    intros c ->. reflexivity.
Qed.

(** Replacing another term never brings the term into the text. *)
Lemma absent_preserved (B : jsstring) (k : nat) (s : jsstring) :
  includes s A = false ->
  includes (replaceAll B (placeholderOf k) s) A = false.
Proof.
  pose proof (placeholderOf_literal k) as Lr.
  assert (G : forall g, includes (g ++ s) A = false ->
                includes (g ++ replaceAll B (placeholderOf k) s) A = false).
  { destruct B as [|b B'].
    - induction s as [|c s' IH]; intros g Hg.
      + rewrite replaceAll_empty_nil by exact Lr.
        destruct (includes (g ++ placeholderOf k) A) eqn:E; [|reflexivity].
        rewrite <- (app_nil_r (placeholderOf k)) in E.
        apply clean_separated in E as [E | E].
        * rewrite app_nil_r in Hg. congruence.
        * rewrite clean_not_in_nil in E. discriminate.
      + rewrite replaceAll_empty_cons by exact Lr.
        destruct (includes
                    (g ++ placeholderOf k
                       ++ c :: replaceAll [] (placeholderOf k) s')
                    A) eqn:E; [|reflexivity].
        apply clean_separated in E as [E | E].
        * apply includes_prefix_false in Hg. congruence.
        * assert (Hc : includes ([c] ++ s') A = false)
            by (apply (includes_suffix_false g); exact Hg).
          pose proof (IH [c] Hc) as F. cbn [app] in F. congruence.
    - pattern s.
      apply (scan_ind (b :: B')); [discriminate| | |]; clear s.
      + intros g Hg. rewrite replaceAll_nil by discriminate. exact Hg.
      + intros c s E IH g Hg.
        rewrite replaceAll_match
          by (try exact Lr; try exact E; discriminate).
        destruct (includes
                    (g ++ placeholderOf k
                       ++ replaceAll (b :: B') (placeholderOf k)
                            (skipn (length (b :: B')) (c :: s))) A)
          eqn:F; [|reflexivity].
        apply clean_separated in F as [F | F].
        * apply includes_prefix_false in Hg. congruence.
        * assert (Hs : includes
                         ([] ++ skipn (length (b :: B')) (c :: s)) A
                       = false).
          { rewrite (startsWith_skipn _ _ E) in Hg.
            apply (includes_suffix_false (g ++ b :: B')).
            rewrite <- app_assoc. exact Hg. }
          pose proof (IH [] Hs) as F'. cbn [app] in F'. congruence.
      + intros c s E IH g Hg.
        rewrite replaceAll_skip
          by (try exact Lr; try exact E; discriminate).
        change (g ++ c :: replaceAll (b :: B') (placeholderOf k) s)
          with (g ++ [c] ++ replaceAll (b :: B') (placeholderOf k) s).
        rewrite app_assoc. apply IH. rewrite <- app_assoc. exact Hg. }
  intros H. apply (G []). exact H.
Qed.

(** Replacing the term itself removes it. *)
Lemma self_removed (k : nat) (s : jsstring) :
  includes (replaceAll A (placeholderOf k) s) A = false.
Proof.
  pose proof (placeholderOf_literal k) as Lr.
  destruct A_clean as [HA _].
  assert (G : forall g,
             (forall x y, g ++ s = x ++ A ++ y -> length g <= length x) ->
             includes (g ++ replaceAll A (placeholderOf k) s) A = false).
  { pattern s. apply (scan_ind A HA); clear s.
    - intros g Hg. rewrite replaceAll_nil by exact HA.
      apply includes_false. intros x y E.
      pose proof (Hg x y E) as L.
      apply (f_equal (@length unit16)) in E.
      rewrite !length_app in E. simpl in E.
      destruct A; [congruence | simpl in E; lia].
    - intros c s E IH g Hg.
      rewrite replaceAll_match by assumption.
      destruct (includes
                  (g ++ placeholderOf k
                     ++ replaceAll A (placeholderOf k)
                          (skipn (length A) (c :: s))) A)
        eqn:F; [|reflexivity].
      apply clean_separated in F as [F | F].
      + apply includes_true in F as [x [y F]].
        assert (L : length g <= length x).
        { apply (Hg x (y ++ c :: s)). rewrite F, <- !app_assoc.
          reflexivity. }
        apply (f_equal (@length unit16)) in F.
        rewrite !length_app in F.
        destruct A; [congruence | simpl in F; lia].
      + assert (T : forall x y,
                   [] ++ skipn (length A) (c :: s) = x ++ A ++ y ->
                   length (@nil unit16) <= length x)
          by (intros x y _; simpl; lia).
        pose proof (IH [] T) as F'. cbn [app] in F'. congruence.
    - intros c s E IH g Hg.
      rewrite replaceAll_skip by assumption.
      change (g ++ c :: replaceAll A (placeholderOf k) s)
        with (g ++ [c] ++ replaceAll A (placeholderOf k) s).
      rewrite app_assoc. apply IH. intros x y F.
      rewrite <- app_assoc in F. simpl in F.
      pose proof (Hg x y F) as L. rewrite length_app. simpl.
      destruct (Nat.eq_dec (length g) (length x)) as [EL | NL]; [|lia].
      exfalso. destruct (app_same_length g x _ _ F EL) as [_ F'].
      assert (T : startsWith (c :: s) A = true)
        by (rewrite F'; apply startsWith_app).
      congruence. }
  apply (G []). intros x y _. simpl. lia.
Qed.

(** Once the term is absent it stays absent and is not recorded again. *)
Lemma fold_absent (entries : list (jsstring * GlossaryEntry)) :
  forall st,
    includes (protectedText st) A = false ->
    includes (protectedText (fold_left protectEntry entries st)) A = false
    /\ exists gs,
        foundProperNouns (fold_left protectEntry entries st)
        = foundProperNouns st ++ gs /\ ~ In A gs.
Proof.
  induction entries as [|[japanese e] entries IH]; intros st Q.
  - split; [exact Q|]. exists []. rewrite app_nil_r. auto.
  - cbn [fold_left]. unfold protectEntry at 2 4.
    destruct (includes (protectedText st) japanese) eqn:Hinc.
    + match goal with
      | |- context [fold_left protectEntry entries ?st1] =>
        destruct (IH st1) as [F [gs [Eg Hgs]]]
      end.
      { cbn [protectedText]. apply absent_preserved. exact Q. }
      split; [exact F|]. cbn [foundProperNouns] in Eg.
      exists (japanese :: gs). rewrite Eg, <- app_assoc.
      split; [reflexivity|]. intros [<- | Hin]; [congruence | auto].
    + apply IH. exact Q.
Qed.

(** The state after the entries before the first entry of the term, and
    what the loop makes of the term from there. *)
Lemma first_entry (text : jsstring)
  (pre post : list (jsstring * GlossaryEntry)) (e : GlossaryEntry) :
  ~ In A (map fst pre) ->
  let st0 := fold_left protectEntry pre (start text) in
  let final :=
    fold_left protectEntry (pre ++ (A, e) :: post) (start text) in
  ~ In A (foundProperNouns st0) /\
  includes (protectedText final) A = false /\
  (includes (protectedText st0) A = false ->
   ~ In A (foundProperNouns final)) /\
  (includes (protectedText st0) A = true ->
   exists fs ps,
     foundProperNouns final = foundProperNouns st0 ++ A :: fs /\
     placeholderMap final
     = placeholderMap st0
         ++ (placeholderOf (length (foundProperNouns st0)), en e) :: ps /\
     length (placeholderMap st0) = length (foundProperNouns st0) /\
     ~ In A fs).
Proof.
  intros Hpre st0 final.
  assert (Hwf : wellFormed st0)
    by (apply fold_wellFormed, start_wellFormed).
  assert (Hnot : ~ In A (foundProperNouns st0)).
  { destruct (fold_extends pre (start text) (start_wellFormed text))
      as [fs [ps [[E1 _] [Hfs _]]]].
    fold st0 in E1. rewrite E1. simpl. intros Hin. apply Hpre. auto. }
  assert (Efinal : final
                   = fold_left protectEntry post (protectEntry st0 (A, e))).
  { unfold final. rewrite fold_left_app. reflexivity. }
  split; [exact Hnot|].
  destruct (includes (protectedText st0) A) eqn:Hinc.
  - pose proof (protectEntry_found st0 A e Hwf Hinc) as E1.
    assert (Q1 : includes (protectedText (protectEntry st0 (A, e))) A
                 = false).
    { rewrite E1. cbn [protectedText]. apply self_removed. }
    destruct (fold_absent post _ Q1) as [F1 [gs [Eg Hgs]]].
    rewrite <- Efinal in F1, Eg.
    split; [exact F1|]. split; [discriminate|]. intros _.
    destruct (fold_extends post (protectEntry st0 (A, e))
                (protectEntry_wellFormed st0 (A, e) Hwf))
      as [fs [ps [[_ [X2 _]] _]]].
    rewrite <- Efinal in X2. rewrite E1 in X2, Eg.
    cbn [foundProperNouns placeholderMap] in X2, Eg.
    rewrite <- app_assoc in X2, Eg. simpl in X2, Eg.
    destruct Hwf as [W1 W2].
    exists gs, ps. rewrite W1. split; [exact Eg|]. split; [exact X2|].
    split; [|exact Hgs].
    rewrite <- (length_map fst), W2, length_map, length_seq. reflexivity.
  - rewrite (protectEntry_skipped st0 A e Hinc) in Efinal.
    destruct (fold_absent post st0 Hinc) as [F1 [gs [Eg Hgs]]].
    rewrite <- Efinal in F1, Eg.
    split; [exact F1|]. split; [|discriminate].
    intros _ Hin. rewrite Eg in Hin.
    apply in_app_or in Hin as [Hin | Hin]; auto.
Qed.

End CleanTerm.

Lemma first_occurrence (A : jsstring)
  (entries : list (jsstring * GlossaryEntry)) :
  In A (map fst entries) ->
  exists pre e post,
    entries = pre ++ (A, e) :: post /\ ~ In A (map fst pre).
Proof.
  induction entries as [|[j e] entries IH]; intros H; [destruct H|].
  destruct (list_eq_dec N.eq_dec j A) as [-> | Hne].
  - exists [], e, entries. split; [reflexivity | intros []].
  - destruct H as [H | H]; [simpl in H; congruence|].
    destruct (IH H) as [pre [e' [post [-> Hpre]]]].
    exists ((j, e) :: pre), e', post. split; [reflexivity|].
    intros [Hin | Hin]; [simpl in Hin; congruence | auto].
Qed.

Lemma nth_error_unique (A : jsstring) (l1 l2 : list jsstring) (i : nat) :
  ~ In A l1 -> ~ In A l2 ->
  nth_error (l1 ++ A :: l2) i = Some A -> i = length l1.
Proof.
  intros H1 H2 H.
  destruct (Nat.lt_trichotomy i (length l1)) as [L | [L | L]]; [|exact L|].
  - rewrite nth_error_app1 in H by exact L.
    apply nth_error_In in H. contradiction.
  - rewrite nth_error_app2 in H by lia.
    destruct (i - length l1) as [|n] eqn:E; [lia|].
    simpl in H. apply nth_error_In in H. contradiction.
Qed.

(** C2, as stated, fails on both counts: a term that occurs in the text is
    not recorded when an earlier, longer term has consumed it, and a term
    made of placeholder letters is still there after protection. *)
Lemma protect_misses_terms :
  (let text := utf16 "田中太郎は学生です。" in
   let p := protectProperNouns text overlapping in
   In (utf16 "田中") (sourceTerms overlapping) /\
   includes text (utf16 "田中") = true /\
   ~ In (utf16 "田中") (foundProperNouns p)) /\
  (let text := utf16 "N" in
   let p := protectProperNouns text letters in
   In (utf16 "N") (sourceTerms letters) /\
   includes text (utf16 "N") = true /\
   includes (protectedText p) (utf16 "N") = true).
Proof.
  vm_compute. repeat split; auto.
  intros [H | []]. discriminate H.
Qed.

(** C2, amended.  A source term that is not empty and contains none of the
    code units of placeholders ([_], [P], [N], digits) is absent from the
    protected text.  It is recorded exactly when it still occurs in the
    text as protected so far at the moment its first entry is reached; so
    the term iterated first is recorded whenever it occurs in the text, and
    a recorded term always occurs in the text. *)
Theorem protect_clean_terms (text : jsstring) (glossary : Glossary)
  (A : jsstring) :
  clean A -> In A (sourceTerms glossary) ->
  let p := protectProperNouns text glossary in
  includes (protectedText p) A = false /\
  (In A (foundProperNouns p) -> includes text A = true) /\
  (forall pre e post,
      entriesOf glossary = pre ++ (A, e) :: post -> ~ In A (map fst pre) ->
      (In A (foundProperNouns p) <->
       includes (protectedText (fold_left protectEntry pre (start text))) A
       = true)) /\
  (forall e post,
      entriesOf glossary = (A, e) :: post -> includes text A = true ->
      In A (foundProperNouns p)).
Proof.
  intros HA Hin p.
  assert (Iff : forall pre e post,
             entriesOf glossary = pre ++ (A, e) :: post ->
             ~ In A (map fst pre) ->
             includes (protectedText p) A = false /\
             (In A (foundProperNouns p) <->
              includes (protectedText (fold_left protectEntry pre (start text)))
                       A = true)).
  { intros pre e post E Hpre.
    destruct (first_entry A HA text pre post e Hpre) as [_ [F1 [F2 F3]]].
    rewrite <- E, <- protectProperNouns_entries in F1, F2, F3.
    fold p in F1, F2, F3. split; [exact F1|].
    destruct (includes (protectedText (fold_left protectEntry pre (start text)))
                       A) eqn:Hinc.
    - destruct (F3 eq_refl) as [fs [ps [Ef _]]]. rewrite Ef.
      split; [reflexivity|]. intros _. apply in_or_app. right. left.
      reflexivity.
    - split; [|discriminate]. intros H. destruct (F2 eq_refl H). }
  destruct (first_occurrence A (entriesOf glossary) Hin)
    as [pre [e [post [E Hpre]]]].
  split; [apply (Iff pre e post E Hpre)|]. split; [|split].
  - intros Hf. destruct (includes text A) eqn:Ht; [reflexivity|].
    destruct (fold_absent A HA (entriesOf glossary) (start text) Ht)
      as [_ [gs [Eg Hgs]]].
    rewrite <- protectProperNouns_entries in Eg. fold p in Eg.
    rewrite Eg in Hf. simpl in Hf. contradiction.
  - intros pre' e' post' E' Hpre'. apply (Iff pre' e' post' E' Hpre').
  - intros e' post' E' Ht.
    apply (Iff [] e' post' E'); [intros [] | exact Ht].
Qed.

Lemma protect_clean_terms_witness :
  includes (protectedText (protectProperNouns threeSentences people))
           (utf16 "田中太郎") = false.
Proof.
  apply (protect_clean_terms threeSentences people (utf16 "田中太郎")).
  - split; [discriminate | reflexivity].
  - left. reflexivity.
Defined.

Lemma loadGlossary_again (file : GlossaryFile)
  (glossaryCache cache' : option Glossary) (loaded : Completion Glossary) :
  loadGlossary file glossaryCache = (loaded, cache') ->
  loadGlossary file cache' = (loaded, cache').
Proof.
  unfold loadGlossary. destruct glossaryCache as [g|].
  - intros H. inversion H; subst. reflexivity.
  - destruct file as [m | m | g]; cbn [readAndParse]; intros H;
      inversion H; subst; reflexivity.
Qed.

Lemma POST_again (env : Environment) (file : GlossaryFile)
  (oracle : nat -> jsstring -> ModelReply) (request : RequestBody)
  (glossaryCache : option Glossary) :
  POST env file oracle request
       (snd (POST env file oracle request glossaryCache))
  = POST env file oracle request glossaryCache.
Proof.
  unfold POST.
  destruct (negb (hasApiKey env)); [reflexivity|].
  destruct request as [m | [t|] mode]; try reflexivity.
  destruct (negb (nonEmpty t)); [reflexivity|].
  destruct (negb (eqs mode VISA_STRICT)); [reflexivity|].
  destruct (loadGlossary file glossaryCache) as [loaded cache'] eqn:L.
  apply loadGlossary_again in L.
  destruct (bind loaded (fun glossary => pipeline oracle glossary t)) eqn:B;
    cbn [snd]; rewrite L, B; reflexivity.
Qed.

(** C8, as stated, fails for a term made of placeholder letters: the
    placeholder minted for the first category contains the term again, the
    second category replaces it inside that placeholder, both renderings
    enter the map, and it is the second that reaches the output. *)
Lemma reentrant_term_takes_second :
  let p := protectProperNouns (utf16 "N") letters in
  foundProperNouns p = [utf16 "N"; utf16 "N"] /\
  map snd (placeholderMap p) = [utf16 "North"; utf16 "Nitrogen"] /\
  restoreProperNouns (protectedText p) (placeholderMap p)
  = utf16 "__PNitrogen_0__".
Proof. vm_compute. repeat split; reflexivity. Qed.

(** C8, amended.  For a source term that is not empty and contains none of
    the code units of placeholders, listed with rendering [e1] at its first
    entry in iteration order: the term is recorded at most once, and the
    placeholder recorded for it maps to [e1], whatever renderings later
    categories give.  Every step being a function of its arguments, equal
    inputs give equal outputs; and a second request with the same body, file
    and capability, served after the first, gets the same response and
    leaves the cache as the first left it. *)
Theorem first_rendering_wins (text : jsstring) (glossary : Glossary)
  (A : jsstring) (e1 : GlossaryEntry)
  (pre post : list (jsstring * GlossaryEntry)) :
  clean A ->
  entriesOf glossary = pre ++ (A, e1) :: post -> ~ In A (map fst pre) ->
  let p := protectProperNouns text glossary in
  (forall i, nth_error (foundProperNouns p) i = Some A ->
             nth_error (placeholderMap p) i = Some (placeholderOf i, en e1) /\
             forall j, nth_error (foundProperNouns p) j = Some A -> j = i) /\
  (forall text' glossary',
      text' = text -> glossary' = glossary ->
      protectProperNouns text' glossary' = p /\
      detectUnknownProperNouns text' glossary'
      = detectUnknownProperNouns text glossary /\
      splitIntoSentences text' = splitIntoSentences text /\
      determineRisk (detectUnknownProperNouns text' glossary')
      = determineRisk (detectUnknownProperNouns text glossary)) /\
  (forall env file oracle request glossaryCache,
      let first := POST env file oracle request glossaryCache in
      POST env file oracle request (snd first) = first).
Proof.
  intros HA E Hpre p. split; [|split].
  - destruct (first_entry A HA text pre post e1 Hpre) as [Hnot [_ [F2 F3]]].
    rewrite <- E, <- protectProperNouns_entries in F2, F3. fold p in F2, F3.
    destruct (includes (protectedText (fold_left protectEntry pre (start text)))
                       A) eqn:Hinc.
    + destruct (F3 eq_refl) as [fs [ps [Ef [Ep [L Hfs]]]]].
      assert (U : forall i, nth_error (foundProperNouns p) i = Some A ->
                    i = length (foundProperNouns
                                  (fold_left protectEntry pre (start text)))).
      { intros i Hi. rewrite Ef in Hi.
        apply (nth_error_unique A _ fs i Hnot Hfs Hi). }
      intros i Hi. pose proof (U i Hi) as ->. split.
      * rewrite Ep, nth_error_app2 by lia. rewrite L, Nat.sub_diag.
        reflexivity.
      * intros j Hj. apply U. exact Hj.
    + intros i Hi. apply nth_error_In in Hi. destruct (F2 eq_refl Hi).
  - intros text' glossary' -> ->. repeat split; reflexivity.
  - intros env file oracle request glossaryCache first.
    apply POST_again.
Qed.

Lemma first_rendering_wins_witness :
  let p := protectProperNouns (utf16 "田中です。") twoRenderings in
  nth_error (foundProperNouns p) 0 = Some (utf16 "田中") /\
  nth_error (placeholderMap p) 0 = Some (placeholderOf 0, utf16 "Tanaka").
Proof.
  intros p.
  assert (H0 : nth_error (foundProperNouns p) 0 = Some (utf16 "田中"))
    by (vm_compute; reflexivity).
  split; [exact H0|].
  refine (proj1 (proj1 (first_rendering_wins (utf16 "田中です。")
                          twoRenderings (utf16 "田中") (entry (utf16 "Tanaka"))
                          []
                          [(utf16 "田中", entry (utf16 "Tanaka Town"))]
                          _ _ _) 0 H0)).
  - split; [discriminate | reflexivity].
  - vm_compute. reflexivity.
  - intros [].
Defined.

(** * The restorer *)

Section RestoreFacts.

Lemma placeholderOf_unfold (n : nat) :
  placeholderOf n
  = 95%N :: 95%N :: 80%N :: 78%N :: 95%N :: toDecimal n ++ [95%N; 95%N].
Proof. reflexivity. Qed.

Lemma isDigit_not_underscore (d : unit16) :
  isDigit d = true -> (d =? 95)%N = false /\ (95 =? d)%N = false.
Proof.
  unfold isDigit. rewrite andb_true_iff, !N.leb_le, !N.eqb_neq. lia.
Qed.

Lemma digits_prefix_eq (d1 d2 a b : jsstring) :
  forallb isDigit d1 = true -> forallb isDigit d2 = true ->
  d1 ++ 95%N :: a = d2 ++ 95%N :: b -> d1 = d2.
Proof.
  revert d2. induction d1 as [|x d1 IH]; intros [|y d2] H1 H2 E;
    simpl in *; try reflexivity.
  - inversion E; subst y. apply andb_true_iff in H2 as [H2 _].
    apply isDigit_not_underscore in H2 as [H2 _]. discriminate.
  - inversion E; subst x. apply andb_true_iff in H1 as [H1 _].
    apply isDigit_not_underscore in H1 as [H1 _]. discriminate.
  - apply andb_true_iff in H1 as [_ H1]. apply andb_true_iff in H2 as [_ H2].
    inversion E; subst. f_equal. apply (IH d2 H1 H2 H3).
Qed.

Lemma startsWith_distinct (j k : nat) (X : jsstring) :
  j <> k -> startsWith (placeholderOf j ++ X) (placeholderOf k) = false.
Proof.
  intros Hjk. destruct (startsWith _ _) eqn:E; [|reflexivity].
  exfalso. apply Hjk. apply startsWith_true in E as [rest E].
  rewrite !placeholderOf_unfold in E. simpl in E. inversion E as [E'].
  rewrite <- !app_assoc in E'. simpl in E'.
  apply digits_prefix_eq in E'; try apply units_of_uint_digits.
  apply toDecimal_inj. exact E'.
Qed.

Lemma render_plain (v : jsstring) (rest : list Chunk) :
  render (map Plain v ++ rest) = v ++ render rest.
Proof. induction v as [|c v IH]; simpl; [reflexivity | rewrite IH; reflexivity]. Qed.

Section OneKey.

Variable k : nat.
Variable v : jsstring.
Hypothesis v_literal : noDollar v = true.

Lemma skip_units (u X : jsstring) :
  noUnderscore u = true ->
  replaceAll (placeholderOf k) v (u ++ X)
  = u ++ replaceAll (placeholderOf k) v X.
Proof.
  induction u as [|c u IH]; intros H; [reflexivity|].
  simpl in H. apply andb_true_iff in H as [Hc Hu].
  apply negb_true_iff in Hc. cbn [app].
  rewrite replaceAll_skip; try assumption.
  - rewrite IH by exact Hu. reflexivity.
  - apply placeholderOf_nonempty.
  - rewrite placeholderOf_unfold. cbn [startsWith].
    unfold UNDERSCORE in Hc. rewrite Hc. reflexivity.
Qed.

(** After the two closing underscores of a placeholder, the text does not
    go on like the inside of the key. *)
Lemma after_hole (rest : list Chunk) (lo hi : nat) :
  wellMarked lo hi rest = true ->
  startsWith (render rest)
             (80%N :: 78%N :: 95%N :: toDecimal k ++ [95%N; 95%N]) = false
  /\ startsWith (render rest)
                (95%N :: 80%N :: 78%N :: 95%N :: toDecimal k ++ [95%N; 95%N])
     = false.
Proof.
  intros W.
  destruct (toDecimal k) as [|d ds] eqn:Ed;
    [destruct (toDecimal_nonempty k Ed)|].
  assert (Hd : (95 =? d)%N = false).
  { pose proof (units_of_uint_digits (Nat.to_uint k)) as D.
    fold (toDecimal k) in D. rewrite Ed in D. simpl in D.
    apply andb_true_iff in D as [D _].
    apply isDigit_not_underscore in D as [_ D]. exact D. }
  cbn [app]. split.
  - destruct rest as [|[c|i] r1]; [reflexivity| |reflexivity].
    cbn [render startsWith].
    destruct (c =? 80)%N; [cbn [andb] | reflexivity].
    simpl in W. apply andb_true_iff in W as [_ W].
    destruct r1 as [|[c2|i2] r2]; [reflexivity| |reflexivity].
    cbn [render startsWith].
    destruct (c2 =? 78)%N; [cbn [andb] | reflexivity].
    simpl in W. apply andb_true_iff in W as [_ W].
    destruct r2 as [|[c3|i3] r3]; [reflexivity| |].
    + cbn [render startsWith]. simpl in W.
      apply andb_true_iff in W as [W _]. apply negb_true_iff in W.
      unfold UNDERSCORE in W. rewrite W. reflexivity.
    + cbn [render]. rewrite placeholderOf_unfold. cbn [app startsWith].
      rewrite Hd. rewrite andb_false_r. reflexivity.
  - destruct rest as [|[c|i] r1]; [reflexivity| |reflexivity].
    cbn [render startsWith]. simpl in W.
    apply andb_true_iff in W as [W _]. apply negb_true_iff in W.
    unfold UNDERSCORE in W. rewrite W. reflexivity.
Qed.

(** A placeholder with another number is passed over unchanged. *)
Lemma skip_hole (j : nat) (rest : list Chunk) (lo hi : nat) :
  j <> k -> wellMarked lo hi rest = true ->
  replaceAll (placeholderOf k) v (placeholderOf j ++ render rest)
  = placeholderOf j ++ replaceAll (placeholderOf k) v (render rest).
Proof.
  intros Hjk W.
  pose proof (startsWith_distinct j k (render rest) Hjk) as H1.
  destruct (after_hole rest lo hi W) as [A1 A2].
  pose proof (placeholderOf_nonempty k) as Hne.
  destruct (toDecimal j) as [|d ds] eqn:Ed;
    [destruct (toDecimal_nonempty j Ed)|].
  assert (Dj : forallb isDigit (d :: ds) = true).
  { rewrite <- Ed. apply units_of_uint_digits. }
  assert (Uj : noUnderscore (d :: ds) = true).
  { apply (forallb_impl isDigit); [|exact Dj].
    intros c Hc. apply negb_true_iff.
    apply isDigit_not_underscore in Hc as [Hc _]. exact Hc. }
  rewrite (placeholderOf_unfold j) in H1 |- *. rewrite Ed in H1 |- *.
  cbn [app] in H1 |- *.
  rewrite (replaceAll_skip _ _ v_literal _ _ Hne H1).
  rewrite replaceAll_skip; try assumption;
    [|rewrite placeholderOf_unfold; reflexivity].
  rewrite replaceAll_skip; try assumption;
    [|rewrite placeholderOf_unfold; reflexivity].
  rewrite replaceAll_skip; try assumption;
    [|rewrite placeholderOf_unfold; reflexivity].
  rewrite replaceAll_skip; try assumption.
  2:{ rewrite placeholderOf_unfold. cbn [startsWith].
      simpl in Dj. apply andb_true_iff in Dj as [Dj _].
      apply isDigit_not_underscore in Dj as [Dj _]. rewrite Dj.
      rewrite andb_false_r. reflexivity. }
  change (d :: ds ++ [95%N; 95%N] ++ render rest)
    with ((d :: ds) ++ 95%N :: 95%N :: render rest).
  rewrite <- app_assoc. cbn [app].
  change (d :: ds ++ 95%N :: 95%N :: render rest)
    with ((d :: ds) ++ 95%N :: 95%N :: render rest).
  rewrite (skip_units (d :: ds) _ Uj).
  rewrite replaceAll_skip; try assumption.
  rewrite replaceAll_skip; try assumption.
  rewrite <- app_assoc. reflexivity.
Qed.

Lemma expand_wellMarked (chunks : list Chunk) (lo hi : nat) :
  noUnderscore v = true -> wellMarked lo hi chunks = true ->
  wellMarked lo hi (expand k v chunks) = true.
Proof.
  intros Hv. induction chunks as [|[c|j] rest IH]; intros W;
    [reflexivity | |]; simpl in W |- *;
    apply andb_true_iff in W as [W1 W2].
  - rewrite W1. apply IH. exact W2.
  - destruct (j =? k).
    + unfold wellMarked. rewrite forallb_app.
      apply andb_true_iff. split; [|apply IH; exact W2].
      clear - Hv. induction v as [|c u IHu]; [reflexivity|].
      simpl in Hv |- *. apply andb_true_iff in Hv as [-> Hu]. auto.
    + simpl. rewrite W1. apply IH. exact W2.
Qed.

(** One round of the restorer replaces the holes of its key. *)
Lemma replace_hole (chunks : list Chunk) (lo hi : nat) :
  wellMarked lo hi chunks = true ->
  replaceAll (placeholderOf k) v (render chunks)
  = render (expand k v chunks).
Proof.
  induction chunks as [|[c|j] rest IH]; intros W.
  - apply replaceAll_nil, placeholderOf_nonempty.
  - simpl in W. apply andb_true_iff in W as [Wc W].
    apply negb_true_iff in Wc. cbn [render expand].
    rewrite replaceAll_skip; try assumption.
    + rewrite IH by exact W. reflexivity.
    + apply placeholderOf_nonempty.
    + rewrite placeholderOf_unfold. cbn [startsWith].
      unfold UNDERSCORE in Wc. rewrite Wc. reflexivity.
  - simpl in W. apply andb_true_iff in W as [_ W].
    cbn [render expand]. destruct (j =? k) eqn:E.
    + apply Nat.eqb_eq in E. subst j.
      rewrite replaceAll_match; try assumption.
      * rewrite skipn_app, skipn_all, Nat.sub_diag. cbn [skipn app].
        rewrite render_plain, IH by exact W. reflexivity.
      * apply placeholderOf_nonempty.
      * apply startsWith_app.
    + apply Nat.eqb_neq in E.
      rewrite (skip_hole j rest lo hi E W), IH by exact W. reflexivity.
Qed.

End OneKey.

Lemma fill_without_holes (from : nat) (chunks : list Chunk) :
  wellMarked from from chunks = true -> render chunks = fill from [] chunks.
Proof.
  induction chunks as [|[c|j] rest IH]; intros W; [reflexivity | |];
    simpl in W; apply andb_true_iff in W as [W1 W2].
  - simpl. rewrite IH by exact W2. reflexivity.
  - apply andb_true_iff in W1 as [A B].
    apply Nat.leb_le in A. apply Nat.ltb_lt in B. lia.
Qed.

Lemma fill_plain (from : nat) (values : list jsstring) (u : jsstring)
  (rest : list Chunk) :
  fill from values (map Plain u ++ rest) = u ++ fill from values rest.
Proof.
  induction u as [|c u IH]; simpl; [reflexivity | rewrite IH; reflexivity].
Qed.

Lemma fill_expand (from : nat) (v : jsstring) (vs : list jsstring)
  (chunks : list Chunk) (hi : nat) :
  wellMarked from hi chunks = true ->
  fill (S from) vs (expand from v chunks) = fill from (v :: vs) chunks /\
  wellMarked (S from) hi (expand from v chunks)
  = wellMarked from hi (expand from v chunks).
Proof.
  induction chunks as [|[c|j] rest IH]; intros W; [split; reflexivity | |];
    simpl in W; apply andb_true_iff in W as [W1 W2];
    destruct (IH W2) as [IH1 IH2].
  - cbn [expand fill]. rewrite IH1. split; [reflexivity|].
    simpl. rewrite IH2. reflexivity.
  - apply andb_true_iff in W1 as [A B]. apply Nat.leb_le in A.
    cbn [expand]. destruct (j =? from) eqn:E.
    + apply Nat.eqb_eq in E. subst j. split.
      * cbn [fill]. rewrite Nat.sub_diag. cbn [nth].
        rewrite <- IH1. apply fill_plain.
      * unfold wellMarked in *. rewrite !forallb_app, IH2. f_equal.
        clear. induction v as [|c u IHu]; [reflexivity|].
        cbn [map forallb]. rewrite IHu. reflexivity.
    + apply Nat.eqb_neq in E. split.
      * cbn [fill]. rewrite IH1.
        replace (j - from) with (S (j - S from)) by lia. reflexivity.
      * simpl. rewrite IH2. f_equal. f_equal.
        destruct j as [|m]; [lia|].
        destruct (Nat.leb_spec from m), (Nat.leb_spec from (S m));
          try reflexivity; lia.
Qed.

(** The restorer on a marked text: every hole gets its value. *)
Lemma restore_chunks (values : list jsstring) :
  forall from chunks,
    wellMarked from (from + length values) chunks = true ->
    forallb plainRendering values = true ->
    restoreProperNouns
      (render chunks)
      (combine (map placeholderOf (seq from (length values))) values)
    = fill from values chunks.
Proof.
  induction values as [|v vs IH]; intros from chunks W P.
  - rewrite Nat.add_0_r in W. simpl. apply fill_without_holes. exact W.
  - simpl in P. apply andb_true_iff in P as [Pv Pvs].
    unfold plainRendering in Pv. apply andb_true_iff in Pv as [Uv Lv].
    cbn [length seq map combine]. unfold restoreProperNouns.
    cbn [fold_left fst snd].
    rewrite (replace_hole from v Lv chunks from (from + length (v :: vs)) W).
    destruct (fill_expand from v vs chunks (from + length (v :: vs)) W)
      as [F1 F2].
    rewrite <- F1. apply IH; [|exact Pvs].
    replace (S from + length vs) with (from + length (v :: vs))
      by (simpl; lia).
    rewrite F2. apply expand_wellMarked; assumption.
Qed.

Lemma fill_noUnderscore (from : nat) (values : list jsstring)
  (chunks : list Chunk) (lo hi : nat) :
  wellMarked lo hi chunks = true ->
  forallb plainRendering values = true ->
  noUnderscore (fill from values chunks) = true.
Proof.
  intros W P. induction chunks as [|[c|j] rest IH]; [reflexivity | |];
    simpl in W; apply andb_true_iff in W as [W1 W2]; cbn [fill].
  - simpl. rewrite W1. apply IH. exact W2.
  - unfold noUnderscore. rewrite forallb_app.
    apply andb_true_iff. split; [|apply IH; exact W2].
    destruct (nth_in_or_default (j - from) values []) as [Hin | ->];
      [|reflexivity].
    rewrite forallb_forall in P. pose proof (P _ Hin) as Pv.
    unfold plainRendering in Pv. apply andb_true_iff in Pv as [Pv _].
    exact Pv.
Qed.

Lemma includes_head (s q : jsstring) (c : unit16) :
  includes s (c :: q) = true -> In c s.
Proof.
  intros H. apply includes_true in H as [a [b ->]].
  apply in_or_app. right. left. reflexivity.
Qed.

Lemma noUnderscore_no_token (s : jsstring) :
  noUnderscore s = true -> ~ hasPlaceholderToken s.
Proof.
  intros H [digits [_ [_ T]]].
  apply includes_head in T. unfold noUnderscore in H.
  rewrite forallb_forall in H. specialize (H _ T). discriminate H.
Qed.

Lemma combine_fst_snd {X Y : Type} (l : list (X * Y)) :
  combine (map fst l) (map snd l) = l.
Proof.
  induction l as [|[x y] l IH]; simpl; [reflexivity | rewrite IH; reflexivity].
Qed.

End RestoreFacts.

(** C3, as stated, fails: the restorer only replaces the keys of the map.
    A placeholder-shaped token that is no key, here one typed into the
    input and handed back by the fallback of a failed translation, is
    still there in the output. *)
Lemma restore_leaves_foreign_tokens :
  let text := utf16 "田中太郎の番号は__PN_1__です。" in
  placeholderMap (protectProperNouns text people)
  = [(utf16 "__PN_0__", utf16 "Taro Tanaka")] /\
  match pipeline silent people text with
  | Normal response =>
    outputText response = utf16 "Taro Tanakaの番号は__PN_1__です。"
    /\ hasPlaceholderToken (outputText response)
  | Throw _ => False
  end.
Proof.
  split; [vm_compute; reflexivity|].
  assert (E : pipeline silent people (utf16 "田中太郎の番号は__PN_1__です。")
              = Normal (responseOf silent people
                          (utf16 "田中太郎の番号は__PN_1__です。")))
    by (apply pipeline_served;
        [vm_compute; lia
        | split; [intros i s _; exact I | right; intros i s _ _; exact I]]).
  rewrite E. split; [vm_compute; reflexivity|].
  exists (utf16 "1"). split; [discriminate|].
  split; vm_compute; reflexivity.
Qed.

(** C3, amended.  Take the map a protection produces from a vocabulary
    whose renderings contain neither an underscore nor a dollar sign, and a
    translated text in which underscores occur only inside placeholders
    that are keys of that map.  Then the restorer puts the rendering in the
    place of every placeholder; the result contains no underscore and
    therefore no placeholder-shaped token. *)
Theorem restore_fills_marked_text (text : jsstring) (glossary : Glossary)
  (chunks : list Chunk) :
  (forall term e, In (term, e) (entriesOf glossary) ->
                  plainRendering (en e) = true) ->
  let pm := placeholderMap (protectProperNouns text glossary) in
  wellMarked 0 (length pm) chunks = true ->
  restoreProperNouns (render chunks) pm = fill 0 (map snd pm) chunks /\
  noUnderscore (restoreProperNouns (render chunks) pm) = true /\
  ~ hasPlaceholderToken (restoreProperNouns (render chunks) pm).
Proof.
  intros Hplain pm W.
  assert (Hwf : wellFormed (protectProperNouns text glossary)).
  { rewrite protectProperNouns_entries.
    apply fold_wellFormed, start_wellFormed. }
  destruct Hwf as [_ Hkeys]. fold pm in Hkeys.
  assert (Hlen : placeholderIndex (protectProperNouns text glossary)
                 = length (map snd pm)).
  { apply (f_equal (@length jsstring)) in Hkeys.
    rewrite !length_map, length_seq in Hkeys. rewrite length_map.
    symmetry. exact Hkeys. }
  assert (Hvalues : forallb plainRendering (map snd pm) = true).
  { destruct (fold_extends (entriesOf glossary) (start text)
                (start_wellFormed text)) as [fs [ps [[_ [E _]] [_ Hps]]]].
    rewrite <- protectProperNouns_entries in E. fold pm in E.
    simpl in E. apply forallb_forall. intros v Hv.
    apply in_map_iff in Hv as [[k v'] [<- Hin]]. rewrite E in Hin.
    destruct (Hps k v' Hin) as [term [e [He ->]]].
    apply (Hplain term e He). }
  assert (Epm : pm = combine (map placeholderOf
                                  (seq 0 (length (map snd pm))))
                             (map snd pm)).
  { rewrite <- Hlen, <- Hkeys. symmetry. apply combine_fst_snd. }
  assert (R : restoreProperNouns (render chunks) pm
              = fill 0 (map snd pm) chunks).
  { rewrite Epm at 1. apply restore_chunks; [|exact Hvalues].
    rewrite length_map. exact W. }
  split; [exact R|].
  assert (U : noUnderscore (restoreProperNouns (render chunks) pm) = true).
  { rewrite R. apply (fill_noUnderscore 0 _ chunks 0 (length pm) W Hvalues). }
  split; [exact U | apply noUnderscore_no_token; exact U].
Qed.

Lemma restore_fills_marked_text_witness :
  restoreProperNouns
    (render [Hole 0; Plain 32%N; Plain 105%N; Plain 115%N])
    (placeholderMap (protectProperNouns threeSentences people))
  = utf16 "Taro Tanaka is".
Proof.
  refine (eq_trans
            (proj1 (restore_fills_marked_text threeSentences people
                      [Hole 0; Plain 32%N; Plain 105%N; Plain 115%N] _ _))
            _).
  - intros term e [H | []]. inversion H; subst. reflexivity.
  - reflexivity.
  - vm_compute. reflexivity.
Defined.

(** * Further properties of the segmenter *)

Section SentenceShapes.

Lemma trimStart_startsClear (s : jsstring) : startsClear (trimStart s).
Proof.
  induction s as [|c s IH]; simpl; [exact I|].
  destruct (isWhiteSpace c) eqn:E; [exact IH | exact E].
Qed.

Lemma trimStart_split (s : jsstring) :
  exists w, s = w ++ trimStart s /\ blank w = true.
Proof.
  induction s as [|c s IH]; simpl.
  - exists []. split; reflexivity.
  - destruct (isWhiteSpace c) eqn:E.
    + destruct IH as [w [Hw Bw]]. exists (c :: w). split.
      * simpl. rewrite <- Hw. reflexivity.
      * simpl. rewrite E. exact Bw.
    + exists []. split; reflexivity.
Qed.

Lemma trimEnd_endsClear (s : jsstring) : endsClear (trimEnd s).
Proof.
  unfold endsClear, trimEnd. rewrite rev_involutive.
  apply trimStart_startsClear.
Qed.

Lemma trimEnd_startsClear (u : jsstring) :
  startsClear u -> startsClear (trimEnd u).
Proof.
  intros H. destruct (trimStart_split (rev u)) as [w [Hw Bw]].
  apply (f_equal (@rev unit16)) in Hw.
  rewrite rev_involutive, rev_app_distr in Hw. fold (trimEnd u) in Hw.
  destruct u as [|c u']; [reflexivity|].
  destruct (trimEnd (c :: u')) as [|c' t] eqn:E.
  - exact I.
  - simpl in Hw. inversion Hw; subst c'. exact H.
Qed.

Lemma trim_startsClear (s : jsstring) : startsClear (trim s).
Proof. apply trimEnd_startsClear, trimStart_startsClear. Qed.

Lemma trim_endsClear (s : jsstring) : endsClear (trim s).
Proof. apply trimEnd_endsClear. Qed.

Lemma clear_trim (s : jsstring) : startsClear s -> endsClear s -> trim s = s.
Proof. intros H1 H2. apply trim_id; assumption. Qed.

Lemma startsClear_app (a y : jsstring) :
  a <> [] -> startsClear a -> startsClear (a ++ y).
Proof. destruct a; [congruence | auto]. Qed.

Lemma endsClear_marks (a y : jsstring) :
  y <> [] -> forallb isClosingMark y = true -> endsClear (a ++ y).
Proof.
  intros Hy My. unfold endsClear. rewrite rev_app_distr.
  rewrite <- forallb_rev in My.
  destruct (rev y) as [|c t] eqn:E.
  - apply (f_equal (@rev unit16)) in E. rewrite rev_involutive in E.
    simpl in E. congruence.
  - simpl in My |- *. apply andb_true_iff in My as [Mc _].
    apply isClosingMark_not_white. exact Mc.
Qed.

Lemma not_punctuation_app (a y : jsstring) :
  a <> [] -> isPunctuationOnly a = false ->
  isPunctuationOnly (a ++ y) = false.
Proof.
  intros Ha Pa. destruct a as [|c a]; [congruence|].
  change (forallb isClosingMark (c :: a) = false) in Pa.
  change (forallb isClosingMark ((c :: a) ++ y) = false).
  rewrite forallb_app, Pa. reflexivity.
Qed.

Lemma marks_are_terminators (y : jsstring) :
  forallb isClosingMark y = true -> forallb isTerminator y = true.
Proof.
  apply (forallb_impl isClosingMark isTerminator).
  exact isClosingMark_isTerminator.
Qed.

Lemma punctuation_marks (y : jsstring) :
  isPunctuationOnly y = true -> y <> [] /\ forallb isClosingMark y = true.
Proof. destruct y; [discriminate|]. intros H. split; [discriminate | exact H]. Qed.

(** Merging closing marks into a sentence keeps its shape. *)
Lemma sentenceShaped_merge (s y : jsstring) :
  sentenceShaped s -> isPunctuationOnly y = true -> sentenceShaped (s ++ y).
Proof.
  intros Hs Py. destruct (punctuation_marks y Py) as [Ny My].
  destruct Hs as [[P [M [-> [NP [TP [SP [EP MM]]]]]]] | [Ns [Ts [Ss [Es Ps]]]]].
  - left. exists P, (M ++ y). rewrite <- app_assoc.
    repeat split; try assumption. rewrite forallb_app, MM, My. reflexivity.
  - right. split; [destruct s; [congruence | discriminate]|].
    split; [rewrite forallb_app, Ts; apply marks_are_terminators; exact My|].
    split; [apply startsClear_app; assumption|].
    split; [apply endsClear_marks; assumption|].
    apply not_punctuation_app; assumption.
Qed.

Lemma Forall_last_split (Q : jsstring -> Prop) (acc : list jsstring) :
  acc <> [] -> Forall Q acc ->
  Forall Q (removelast acc) /\ Q (last acc []).
Proof.
  intros Hne H. rewrite (app_removelast_last [] Hne) in H.
  apply Forall_app in H as [H1 H2]. split; [exact H1|].
  inversion H2; assumption.
Qed.

Lemma fold_shaped (toks : list jsstring) :
  (forall x, In x toks ->
             noTerminator x = true \/ forallb isTerminator x = true) ->
  forall acc,
    Forall sentenceShaped acc ->
    Forall sentenceShaped
      (fold_left mergeStep
         (map trim (filter (fun s => nonEmpty (trim s)) toks)) acc).
Proof.
  induction toks as [|x toks IH]; intros Htoks acc Hacc; [exact Hacc|].
  assert (Hrest : forall y, In y toks ->
             noTerminator y = true \/ forallb isTerminator y = true)
    by (intros y Hy; apply Htoks; right; exact Hy).
  cbn [filter]. destruct (nonEmpty (trim x)) eqn:Ne;
    [|apply IH; assumption].
  cbn [map fold_left]. apply IH; [exact Hrest|].
  assert (Ny : trim x <> []) by (intros E; rewrite E in Ne; discriminate).
  pose proof (trim_startsClear x) as Sy. pose proof (trim_endsClear x) as Ey.
  unfold mergeStep.
  destruct (isPunctuationOnly (trim x)) eqn:Py.
  - destruct acc as [|a acc]; [exact Hacc|].
    assert (Hne : a :: acc <> []) by discriminate.
    destruct (Forall_last_split sentenceShaped (a :: acc) Hne Hacc)
      as [H1 H2].
    apply Forall_app. split; [exact H1|].
    constructor; [|constructor]. apply sentenceShaped_merge; assumption.
  - apply Forall_app. split; [exact Hacc|]. constructor; [|constructor].
    destruct (Htoks x (or_introl eq_refl)) as [Hp | Hm].
    + left. exists (trim x), []. rewrite app_nil_r.
      repeat split; try assumption. apply trim_forallb. exact Hp.
    + right. repeat split; try assumption. apply trim_forallb. exact Hm.
Qed.

Lemma splitIntoSentences_shaped (text : jsstring) :
  Forall sentenceShaped (splitIntoSentences text).
Proof.
  rewrite splitIntoSentences_fold. unfold trimmedTokens.
  apply fold_shaped; [|constructor].
  intros x Hx. apply (splitFrom_tokens text false [] eq_refl x Hx).
Qed.

(** A piece followed by closing marks is one sentence. *)
Lemma segment_piece_marks (P M : jsstring) :
  P <> [] -> noTerminator P = true -> startsClear P -> endsClear P ->
  forallb isClosingMark M = true ->
  splitIntoSentences (P ++ M) = [P ++ M].
Proof.
  intros NP TP SP EP MM.
  pose proof (clear_trim P SP EP) as Ht.
  assert (Hk : nonEmpty (trim P) = true)
    by (rewrite Ht; destruct P; [congruence | reflexivity]).
  assert (Hp : isPunctuationOnly P = false)
    by (apply isPunctuationOnly_noTerminator; exact TP).
  assert (M1 : mergeStep [] P = [P])
    by (unfold mergeStep; rewrite Hp; reflexivity).
  rewrite splitIntoSentences_fold. unfold trimmedTokens.
  destruct M as [|c M].
  - rewrite app_nil_r, (split_plain P TP). cbn [filter]. rewrite Hk.
    cbn [map fold_left]. rewrite Ht. exact M1.
  - assert (Tm : trim (c :: M) = c :: M).
    { apply trim_no_white.
      apply (forallb_impl isClosingMark); [|exact MM].
      intros x Hx. apply negb_true_iff, isClosingMark_not_white. exact Hx. }
    pose proof MM as MM'. simpl in MM'.
    apply andb_true_iff in MM' as [Mc Mr].
    rewrite (split_piece_then P c M TP (isClosingMark_isTerminator c Mc)).
    rewrite <- (app_nil_r M) at 1.
    rewrite (splitFrom_run M [c] [] (marks_are_terminators M Mr)).
    cbn [splitFrom app filter]. rewrite Hk, Tm.
    change (nonEmpty (c :: M)) with true.
    change (nonEmpty (trim [])) with false.
    cbn [map fold_left]. rewrite Ht, Tm, M1.
    unfold mergeStep.
    change (isPunctuationOnly (c :: M))
      with (forallb isClosingMark (c :: M)).
    rewrite MM. reflexivity.
Qed.

(** A trimmed run of terminators that holds a newline is one sentence. *)
Lemma segment_run (R : jsstring) :
  R <> [] -> forallb isTerminator R = true ->
  startsClear R -> endsClear R -> isPunctuationOnly R = false ->
  splitIntoSentences R = [R].
Proof.
  intros NR TR SR ER PR.
  pose proof (clear_trim R SR ER) as Ht.
  rewrite splitIntoSentences_fold. unfold trimmedTokens, split.
  destruct R as [|c R]; [congruence|].
  pose proof TR as TR'. simpl in TR'. apply andb_true_iff in TR' as [Tc Tr].
  cbn [splitFrom]. rewrite Tc.
  rewrite <- (app_nil_r R) at 1. rewrite (splitFrom_run R [c] [] Tr).
  cbn [splitFrom app filter].
  change (nonEmpty (trim [])) with false. rewrite Ht.
  change (nonEmpty (c :: R)) with true.
  cbn [map fold_left]. rewrite Ht. unfold mergeStep. rewrite PR.
  reflexivity.
Qed.

End SentenceShapes.

(** X1. Every sentence the segmenter returns is non-empty, has no white
    space at either end, and does not consist of closing marks only. *)
Theorem sentences_are_trimmed (text s : jsstring) :
  In s (splitIntoSentences text) ->
  s <> [] /\ trim s = s /\ isPunctuationOnly s = false.
Proof.
  intros Hin.
  pose proof (splitIntoSentences_shaped text) as H.
  rewrite Forall_forall in H. specialize (H s Hin).
  destruct H as [[P [M [-> [NP [TP [SP [EP MM]]]]]]] | [Ns [Ts [Ss [Es Ps]]]]].
  - split; [destruct P; [congruence | discriminate]|]. split.
    + apply clear_trim; [apply startsClear_app; assumption|].
      destruct M as [|c M]; [rewrite app_nil_r; exact EP|].
      apply endsClear_marks; [discriminate | exact MM].
    + apply not_punctuation_app; [exact NP|].
      apply isPunctuationOnly_noTerminator. exact TP.
  - split; [exact Ns|]. split; [apply clear_trim; assumption | exact Ps].
Qed.

Lemma sentences_are_trimmed_witness :
  utf16 "彼は学生です。" <> [] /\
  trim (utf16 "彼は学生です。") = utf16 "彼は学生です。" /\
  isPunctuationOnly (utf16 "彼は学生です。") = false.
Proof.
  apply (sentences_are_trimmed threeSentences (utf16 "彼は学生です。")).
  vm_compute. right. left. reflexivity.
Defined.

(** X2. Segmenting is stable: each sentence of a text, segmented again,
    yields itself as the only sentence. *)
Theorem sentences_are_stable (text s : jsstring) :
  In s (splitIntoSentences text) -> splitIntoSentences s = [s].
Proof.
  intros Hin.
  pose proof (splitIntoSentences_shaped text) as H.
  rewrite Forall_forall in H. specialize (H s Hin).
  destruct H as [[P [M [-> [NP [TP [SP [EP MM]]]]]]] | [Ns [Ts [Ss [Es Ps]]]]].
  - apply segment_piece_marks; assumption.
  - apply segment_run; assumption.
Qed.

Lemma sentences_are_stable_witness :
  splitIntoSentences (utf16 "彼は学生です。") = [utf16 "彼は学生です。"].
Proof.
  apply (sentences_are_stable threeSentences (utf16 "彼は学生です。")).
  vm_compute. right. left. reflexivity.
Defined.

(** X3. Closing marks at the very start of a text belong to no sentence:
    they are dropped, and the rest is segmented as if they were not there
    (the rest being empty or starting with a code unit that is no
    terminator). *)
Theorem leading_marks_are_dropped (marks s : jsstring) :
  forallb isClosingMark marks = true ->
  match s with [] => True | c :: _ => isTerminator c = false end ->
  splitIntoSentences (marks ++ s) = splitIntoSentences s.
Proof.
  intros MM Hs. destruct marks as [|m ms]; [reflexivity|].
  assert (Tm : trim (m :: ms) = m :: ms).
  { apply trim_no_white.
    apply (forallb_impl isClosingMark); [|exact MM].
    intros x Hx. apply negb_true_iff, isClosingMark_not_white. exact Hx. }
  pose proof MM as MM'. simpl in MM'. apply andb_true_iff in MM' as [Mc Mr].
  assert (Drop : mergeStep [] (m :: ms) = []).
  { unfold mergeStep.
    change (isPunctuationOnly (m :: ms))
      with (forallb isClosingMark (m :: ms)).
    rewrite MM. reflexivity. }
  rewrite !splitIntoSentences_fold. unfold trimmedTokens, split.
  cbn [app splitFrom]. rewrite (isClosingMark_isTerminator m Mc).
  rewrite (splitFrom_run ms [m] s (marks_are_terminators ms Mr)).
  cbn [app]. destruct s as [|x b].
  - cbn [splitFrom filter].
    change (nonEmpty (trim [])) with false. rewrite Tm.
    change (nonEmpty (m :: ms)) with true.
    cbn [map fold_left]. rewrite Tm, Drop. reflexivity.
  - rewrite (splitFrom_run_then_piece (m :: ms) x b Hs).
    cbn [filter]. change (nonEmpty (trim [])) with false. rewrite Tm.
    change (nonEmpty (m :: ms)) with true.
    cbn [map fold_left]. rewrite Tm, Drop. reflexivity.
Qed.

Lemma leading_marks_are_dropped_witness :
  splitIntoSentences (utf16 "。！" ++ utf16 "田中です。")
  = splitIntoSentences (utf16 "田中です。").
Proof.
  apply (leading_marks_are_dropped (utf16 "。！") (utf16 "田中です。"));
    reflexivity.
Defined.

(** * Further properties of the detector *)

Section DetectorFacts.

Lemma emitRun_In (run m : jsstring) :
  In m (emitRun run) <-> m = run /\ 2 <= length run.
Proof.
  unfold emitRun. destruct (2 <=? length run) eqn:E.
  - apply Nat.leb_le in E. split.
    + intros [H | []]. split; [symmetry; exact H | exact E].
    + intros [H _]. left. symmetry. exact H.
  - apply Nat.leb_gt in E. split; [intros [] | intros [_ H]; lia].
Qed.

Lemma kanjiRunsFrom_exact (s : jsstring) :
  forall run m,
    In m (kanjiRunsFrom run s) <->
    (exists k post,
        m = run ++ k /\ s = k ++ post /\ forallb isKanji k = true /\
        startsOutside post /\ 2 <= length m) \/
    (exists pre c post,
        s = pre ++ c :: m ++ post /\ isKanji c = false /\
        forallb isKanji m = true /\ 2 <= length m /\ startsOutside post).
Proof.
  induction s as [|c0 s IH]; intros run m.
  - cbn [kanjiRunsFrom]. rewrite emitRun_In. split.
    + intros [-> H]. left. exists [], []. rewrite app_nil_r.
      repeat split; exact H.
    + intros [[k [post [Hm [Hs [_ [_ Hl]]]]]] | [pre [c [post [Hs _]]]]].
      * symmetry in Hs. apply app_eq_nil in Hs as [-> _].
        rewrite app_nil_r in Hm. subst m. split; [reflexivity | exact Hl].
      * destruct pre; discriminate.
  - cbn [kanjiRunsFrom]. destruct (isKanji c0) eqn:K0.
    + rewrite IH. split.
      * intros [[k [post [Hm [Hs [Hk [Hp Hl]]]]]]
               | [pre [c [post [Hs [Hc [Hk [Hl Hp]]]]]]]].
        -- left. exists (c0 :: k), post. rewrite <- app_assoc in Hm.
           repeat split; try assumption.
           ++ rewrite Hs. reflexivity.
           ++ simpl. rewrite K0. exact Hk.
        -- right. exists (c0 :: pre), c, post.
           repeat split; try assumption. rewrite Hs. reflexivity.
      * intros [[k [post [Hm [Hs [Hk [Hp Hl]]]]]]
               | [pre [c [post [Hs [Hc [Hk [Hl Hp]]]]]]]].
        -- destruct k as [|x k].
           ++ simpl in Hs. subst post. simpl in Hp. congruence.
           ++ simpl in Hs. inversion Hs; subst x s.
              simpl in Hk. apply andb_true_iff in Hk as [_ Hk].
              left. exists k, post. rewrite <- app_assoc.
              repeat split; assumption.
        -- destruct pre as [|x pre].
           ++ simpl in Hs. inversion Hs; subst c. congruence.
           ++ simpl in Hs. inversion Hs; subst x s.
              right. exists pre, c, post. repeat split; assumption.
    + rewrite in_app_iff, emitRun_In, IH. split.
      * intros [[-> Hl] | [[k [post [Hm [Hs [Hk [Hp Hl]]]]]]
                          | [pre [c [post [Hs [Hc [Hk [Hl Hp]]]]]]]]].
        -- left. exists [], (c0 :: s). rewrite app_nil_r.
           repeat split; assumption.
        -- simpl in Hm. subst k. right. exists [], c0, post.
           repeat split; try assumption. rewrite Hs. reflexivity.
        -- right. exists (c0 :: pre), c, post.
           repeat split; try assumption. rewrite Hs. reflexivity.
      * intros [[k [post [Hm [Hs [Hk [Hp Hl]]]]]]
               | [pre [c [post [Hs [Hc [Hk [Hl Hp]]]]]]]].
        -- destruct k as [|x k].
           ++ rewrite app_nil_r in Hm. subst m. left.
              split; [reflexivity | exact Hl].
           ++ simpl in Hs. inversion Hs; subst x s.
              simpl in Hk. rewrite K0 in Hk. discriminate.
        -- destruct pre as [|x pre].
           ++ simpl in Hs. inversion Hs; subst c s.
              right. left. exists m, post. repeat split; assumption.
           ++ simpl in Hs. inversion Hs; subst x s.
              right. right. exists pre, c, post. repeat split; assumption.
Qed.

(** The matches of the pattern are the maximal runs of two or more kanji. *)
Lemma matchKanji_exact (text m : jsstring) :
  In m (matchKanji text) <-> maximalKanjiRun text m.
Proof.
  unfold matchKanji, maximalKanjiRun. rewrite kanjiRunsFrom_exact. split.
  - intros [[k [post [Hm [Hs [Hk [Hp Hl]]]]]]
           | [pre [c [post [Hs [Hc [Hk [Hl Hp]]]]]]]].
    + simpl in Hm. subst k. exists [], post. repeat split; assumption.
    + exists (pre ++ [c]), post. rewrite <- app_assoc.
      repeat split; try assumption.
      unfold endsOutside. rewrite rev_app_distr. exact Hc.
  - intros [pre [post [Hs [Hk [Hl [He Hp]]]]]].
    unfold endsOutside in He.
    destruct (rev pre) as [|c r] eqn:E.
    + apply (f_equal (@rev unit16)) in E. rewrite rev_involutive in E.
      simpl in E. subst pre. left. exists m, post. repeat split; assumption.
    + apply (f_equal (@rev unit16)) in E. rewrite rev_involutive in E.
      simpl in E. subst pre. rewrite <- app_assoc in Hs.
      right. exists (rev r), c, post. repeat split; assumption.
Qed.

Lemma Set_has_true (s : list jsstring) (x : jsstring) :
  Set_has s x = true <-> In x s.
Proof.
  unfold Set_has. rewrite existsb_exists. split.
  - intros [y [Hy E]]. apply eqs_true in E. subst y. exact Hy.
  - intros H. exists x. split; [exact H | apply eqs_refl].
Qed.

Lemma Set_add_In (s : list jsstring) (x y : jsstring) :
  In y (Set_add s x) <-> In y s \/ y = x.
Proof.
  unfold Set_add. destruct (Set_has s x) eqn:E.
  - apply Set_has_true in E. split; [auto|]. intros [H | ->]; assumption.
  - rewrite in_app_iff. simpl. split.
    + intros [H | [H | []]]; [left; exact H | right; symmetry; exact H].
    + intros [H | ->]; [left; exact H | right; left; reflexivity].
Qed.

Lemma Set_add_all_In (items : list (jsstring * GlossaryEntry)) :
  forall known y,
    In y (fold_left (fun known' item => Set_add known' (fst item))
                    items known)
    <-> In y known \/ In y (map fst items).
Proof.
  induction items as [|item items IH]; intros known y; cbn [fold_left map].
  - simpl. tauto.
  - rewrite IH, Set_add_In. simpl. intuition congruence.
Qed.

Lemma knownNouns_from (glossary : Glossary) :
  forall known y,
    In y (fold_left
            (fun known category =>
               fold_left (fun known' item => Set_add known' (fst item))
                         (snd category) known)
            glossary known)
    <-> In y known \/ In y (sourceTerms glossary).
Proof.
  induction glossary as [|category glossary IH]; intros known y;
    cbn [fold_left].
  - unfold sourceTerms, entriesOf. simpl. tauto.
  - rewrite IH, Set_add_all_In. unfold sourceTerms, entriesOf.
    cbn [flat_map]. rewrite map_app, in_app_iff. tauto.
Qed.

(** The set the detector builds holds the source terms of the glossary. *)
Lemma knownNounsOf_In (glossary : Glossary) (y : jsstring) :
  In y (knownNounsOf glossary) <-> In y (sourceTerms glossary).
Proof.
  unfold knownNounsOf. rewrite knownNouns_from. simpl. tauto.
Qed.

Lemma existsb_members (f : jsstring -> bool) (l l' : list jsstring) :
  (forall x, In x l <-> In x l') -> existsb f l = existsb f l'.
Proof.
  intros H. destruct (existsb f l) eqn:E; symmetry.
  - apply existsb_exists in E as [x [Hx Fx]]. apply existsb_exists.
    exists x. split; [apply H; exact Hx | exact Fx].
  - destruct (existsb f l') eqn:E'; [|reflexivity].
    apply existsb_exists in E' as [x [Hx Fx]].
    assert (existsb f l = true)
      by (apply existsb_exists; exists x; split; [apply H; exact Hx | exact Fx]).
    congruence.
Qed.

(** The detector as a filter over the source terms. *)
Lemma detector_filter (text : jsstring) (glossary : Glossary) :
  detectUnknownProperNouns text glossary
  = filter
      (fun m =>
         negb (existsb (fun known => includes known m || includes m known)
                       (sourceTerms glossary)))
      (matchKanji text).
Proof.
  unfold detectUnknownProperNouns. cbv zeta. apply filter_ext. intros m.
  rewrite (existsb_members
             (fun known => includes known m || includes m known)
             (knownNounsOf glossary) (sourceTerms glossary)
             (knownNounsOf_In glossary)).
  destruct (Set_has (knownNounsOf glossary) m) eqn:E; [|reflexivity].
  apply Set_has_true, knownNounsOf_In in E.
  symmetry. apply negb_false_iff, existsb_exists.
  exists m. split; [exact E|]. rewrite includes_self. reflexivity.
Qed.

Lemma detector_In (text : jsstring) (glossary : Glossary) (m : jsstring) :
  In m (detectUnknownProperNouns text glossary) <->
  In m (matchKanji text) /\ unrelated glossary m.
Proof.
  rewrite detector_filter, filter_In. unfold unrelated.
  split; intros [Hm H]; (split; [exact Hm|]).
  - intros known Hk. apply negb_true_iff in H.
    destruct (includes known m || includes m known) eqn:E.
    + assert (existsb (fun known => includes known m || includes m known)
                      (sourceTerms glossary) = true)
        by (apply existsb_exists; exists known; split; assumption).
      congruence.
    + apply orb_false_iff in E. exact E.
  - apply negb_true_iff.
    destruct (existsb (fun known => includes known m || includes m known)
                      (sourceTerms glossary)) eqn:E; [|reflexivity].
    apply existsb_exists in E as [known [Hk E]].
    destruct (H known Hk) as [E1 E2]. rewrite E1, E2 in E. discriminate.
Qed.

Lemma found_are_source_terms (text : jsstring) (glossary : Glossary)
  (m : jsstring) :
  In m (foundProperNouns (protectProperNouns text glossary)) ->
  In m (sourceTerms glossary).
Proof.
  rewrite protectProperNouns_entries.
  destruct (fold_extends (entriesOf glossary) (start text)
                         (start_wellFormed text))
    as [fs [ps [[Hf _] [Hin _]]]].
  rewrite Hf. simpl. apply Hin.
Qed.

End DetectorFacts.

(** X4. The detector reports exactly the maximal runs of two or more kanji
    of the text that no source term of the glossary holds or occurs in. *)
Theorem detector_reports_unrelated_runs (text : jsstring)
  (glossary : Glossary) (m : jsstring) :
  In m (detectUnknownProperNouns text glossary) <->
  maximalKanjiRun text m /\ unrelated glossary m.
Proof. rewrite detector_In, matchKanji_exact. reflexivity. Qed.

(** X5. A glossary with the empty string among its source terms silences
    the detector: nothing is reported and the request is rated GREEN,
    whatever the text. *)
Theorem empty_term_silences_detector (text : jsstring) (glossary : Glossary) :
  In [] (sourceTerms glossary) ->
  detectUnknownProperNouns text glossary = [] /\
  determineRisk (detectUnknownProperNouns text glossary) = (GREEN, []).
Proof.
  intros H.
  assert (E : detectUnknownProperNouns text glossary = []).
  { destruct (detectUnknownProperNouns text glossary) as [|m l] eqn:D;
      [reflexivity|].
    assert (Hm : In m (detectUnknownProperNouns text glossary))
      by (rewrite D; left; reflexivity).
    apply detector_In in Hm as [_ U]. destruct (U [] H) as [_ U2].
    rewrite includes_empty in U2. discriminate. }
  rewrite E. split; reflexivity.
Qed.

Lemma empty_term_silences_detector_witness :
  detectUnknownProperNouns threeSentences emptyTerm = [] /\
  determineRisk (detectUnknownProperNouns threeSentences emptyTerm)
  = (GREEN, []).
Proof.
  apply (empty_term_silences_detector threeSentences emptyTerm).
  left. reflexivity.
Defined.

(** X6. A term the guard has applied is never reported by the detector:
    no noun is both in the applied glossary and in the warning. *)
Theorem applied_terms_are_not_reported (text : jsstring)
  (glossary : Glossary) (m : jsstring) :
  In m (foundProperNouns (protectProperNouns text glossary)) ->
  ~ In m (detectUnknownProperNouns text glossary).
Proof.
  intros Hf Hd. apply found_are_source_terms in Hf.
  apply detector_In in Hd as [_ U]. destruct (U m Hf) as [U1 _].
  rewrite includes_self in U1. discriminate.
Qed.

Lemma applied_terms_are_not_reported_witness :
  In (utf16 "田中太郎")
     (foundProperNouns (protectProperNouns threeSentences people)) /\
  ~ In (utf16 "田中太郎") (detectUnknownProperNouns threeSentences people).
Proof.
  assert (H : In (utf16 "田中太郎")
                 (foundProperNouns (protectProperNouns threeSentences people)))
    by (vm_compute; left; reflexivity).
  split; [exact H|].
  exact (applied_terms_are_not_reported threeSentences people
           (utf16 "田中太郎") H).
Defined.

(** * Further properties of the guard *)

Section GuardFacts.

Lemma fold_untouched (entries : list (jsstring * GlossaryEntry)) :
  forall st,
    (forall t, In t (map fst entries) ->
               includes (protectedText st) t = false) ->
    fold_left protectEntry entries st = st.
Proof.
  induction entries as [|[j e] entries IH]; intros st H; [reflexivity|].
  cbn [fold_left].
  rewrite (protectEntry_skipped st j e (H j (or_introl eq_refl))).
  apply IH. intros t Ht. apply H. right. exact Ht.
Qed.

Lemma fold_found_grows (entries : list (jsstring * GlossaryEntry)) :
  forall st,
    exists fs,
      foundProperNouns (fold_left protectEntry entries st)
      = foundProperNouns st ++ fs.
Proof.
  induction entries as [|[j e] entries IH]; intros st.
  - exists []. rewrite app_nil_r. reflexivity.
  - cbn [fold_left]. destruct (IH (protectEntry st (j, e))) as [fs Hfs].
    rewrite Hfs. unfold protectEntry.
    destruct (includes (protectedText st) j).
    + cbn [foundProperNouns]. exists ([j] ++ fs).
      rewrite app_assoc. reflexivity.
    + exists fs. reflexivity.
Qed.

Lemma fold_found_same (entries : list (jsstring * GlossaryEntry)) :
  forall st,
    foundProperNouns (fold_left protectEntry entries st)
    = foundProperNouns st ->
    forall t, In t (map fst entries) ->
              includes (protectedText st) t = false.
Proof.
  induction entries as [|[j e] entries IH]; intros st H t Ht; [destruct Ht|].
  cbn [fold_left] in H.
  destruct (includes (protectedText st) j) eqn:E.
  - exfalso.
    destruct (fold_found_grows entries (protectEntry st (j, e))) as [fs Hfs].
    rewrite Hfs in H. unfold protectEntry in H. rewrite E in H.
    cbn [foundProperNouns] in H.
    apply (f_equal (@length jsstring)) in H.
    rewrite !length_app in H. simpl in H. lia.
  - rewrite (protectEntry_skipped st j e E) in H.
    destruct Ht as [<- | Ht]; [exact E | exact (IH st H t Ht)].
Qed.

Lemma Forall2_nth_error {A B : Type} (R : A -> B -> Prop)
  (l : list A) (l' : list B) :
  Forall2 R l l' ->
  forall i a, nth_error l i = Some a ->
              exists b, nth_error l' i = Some b /\ R a b.
Proof.
  induction 1 as [|x y l l' Hxy _ IH]; intros i a Hi.
  - destruct i; discriminate.
  - destruct i as [|i]; simpl in Hi |- *.
    + inversion Hi; subst a. exists y. split; [reflexivity | exact Hxy].
    + apply IH. exact Hi.
Qed.

(** Terms and map entries are recorded in step, each map entry with the
    rendering of an entry of its term. *)
Lemma fold_paired (entries : list (jsstring * GlossaryEntry))
  (st : Protection) :
  wellFormed st ->
  Forall2 (fun t kv => exists e, In (t, e) entries /\ snd kv = en e)
          (foundProperNouns st) (placeholderMap st) ->
  let st' := fold_left protectEntry entries st in
  wellFormed st' /\
  Forall2 (fun t kv => exists e, In (t, e) entries /\ snd kv = en e)
          (foundProperNouns st') (placeholderMap st').
Proof.
  intros W F. cbv zeta.
  apply (fold_protect_ind
           (fun s => wellFormed s /\
                     Forall2 (fun t kv => exists e,
                                  In (t, e) entries /\ snd kv = en e)
                             (foundProperNouns s) (placeholderMap s))
           entries); [|split; assumption].
  intros s [j e] Hin [Ws Fs].
  split; [apply protectEntry_wellFormed; exact Ws|].
  destruct (includes (protectedText s) j) eqn:E.
  - rewrite (protectEntry_found s j e Ws E).
    cbn [foundProperNouns placeholderMap].
    apply Forall2_app; [exact Fs|]. constructor; [|constructor].
    exists e. split; [exact Hin | reflexivity].
  - rewrite (protectEntry_skipped s j e E). exact Fs.
Qed.

Lemma nth_error_placeholders (n i : nat) :
  i < n ->
  nth_error (map placeholderOf (seq 0 n)) i = Some (placeholderOf i).
Proof.
  intros H. rewrite nth_error_map.
  rewrite (nth_error_nth' (seq 0 n) 0) by (rewrite length_seq; exact H).
  rewrite seq_nth by exact H. reflexivity.
Qed.

End GuardFacts.

(** X7. The guard applies no term exactly when no source term of the
    glossary occurs in the text; the text is then handed on unchanged,
    with an empty placeholder map. *)
Theorem no_term_applied_iff (text : jsstring) (glossary : Glossary) :
  (foundProperNouns (protectProperNouns text glossary) = [] <->
   forall t, In t (sourceTerms glossary) -> includes text t = false) /\
  (foundProperNouns (protectProperNouns text glossary) = [] ->
   protectProperNouns text glossary = start text).
Proof.
  rewrite protectProperNouns_entries.
  assert (Back : (forall t, In t (sourceTerms glossary) ->
                            includes text t = false) ->
                 fold_left protectEntry (entriesOf glossary) (start text)
                 = start text)
    by (intros H; apply fold_untouched; exact H).
  assert (Forth : foundProperNouns
                    (fold_left protectEntry (entriesOf glossary) (start text))
                  = [] ->
                  forall t, In t (sourceTerms glossary) ->
                            includes text t = false)
    by (intros H; exact (fold_found_same (entriesOf glossary) (start text) H)).
  split; [split|].
  - exact Forth.
  - intros H. rewrite (Back H). reflexivity.
  - intros H. exact (Back (Forth H)).
Qed.

(** X8. The placeholder map has one entry per applied term, in the same
    order: the [i]-th applied term is keyed by the placeholder numbered [i]
    and mapped to the rendering of a glossary entry of that term. *)
Theorem placeholders_follow_applied_terms (text : jsstring)
  (glossary : Glossary) :
  let p := protectProperNouns text glossary in
  length (placeholderMap p) = length (foundProperNouns p) /\
  forall i t,
    nth_error (foundProperNouns p) i = Some t ->
    exists e,
      In (t, e) (entriesOf glossary) /\
      nth_error (placeholderMap p) i = Some (placeholderOf i, en e).
Proof.
  cbv zeta. rewrite protectProperNouns_entries.
  destruct (fold_paired (entriesOf glossary) (start text)
                        (start_wellFormed text) (Forall2_nil _))
    as [[Wl Wk] F].
  cbv zeta in Wl, Wk, F.
  set (p := fold_left protectEntry (entriesOf glossary) (start text)) in *.
  assert (L : length (placeholderMap p) = length (foundProperNouns p)).
  { rewrite Wl. rewrite <- (length_map fst), Wk, length_map, length_seq.
    reflexivity. }
  split; [exact L|].
  intros i t Hi.
  destruct (Forall2_nth_error _ _ _ F i t Hi) as [[k v] [Hkv [e [He Hv]]]].
  exists e. split; [exact He|]. rewrite Hkv. simpl in Hv. subst v.
  assert (Hlt : i < placeholderIndex p).
  { rewrite <- Wl. apply nth_error_Some. rewrite Hi. discriminate. }
  pose proof (nth_error_placeholders (placeholderIndex p) i Hlt) as Hk.
  rewrite <- Wk, nth_error_map, Hkv in Hk. simpl in Hk.
  inversion Hk. reflexivity.
Qed.

(** * Further properties of the restorer *)

Section RestorerFacts.

Lemma replaceFrom_absent (p r : jsstring) :
  forall fuel before s,
    includes s p = false -> replaceFrom p r fuel before s = s.
Proof.
  induction fuel as [|fuel IH]; intros before s H; [reflexivity|].
  destruct s as [|c s]; [reflexivity|].
  cbn [includes] in H. apply orb_false_iff in H as [H1 H2].
  cbn [replaceFrom]. rewrite H1. rewrite (IH _ s H2). reflexivity.
Qed.

(** Replacing a pattern that does not occur changes nothing, whatever the
    replacement text. *)
Lemma replaceAll_not_included (p r s : jsstring) :
  includes s p = false -> replaceAll p r s = s.
Proof.
  intros H. unfold replaceAll. destruct p as [|x p].
  - rewrite includes_empty in H. discriminate.
  - apply replaceFrom_absent. exact H.
Qed.

Lemma space_fresh (n : nat) :
  forallb (fun x => negb (x =? 32)%N) (placeholderOf n) = true.
Proof.
  apply (forallb_impl isPlaceholderUnit); [|apply placeholderOf_units].
  intros c Hc. destruct (c =? 32)%N eqn:E; [|reflexivity].
  apply N.eqb_eq in E. subst c. discriminate.
Qed.

Lemma replaceAll_join (n : nat) (v : jsstring) (l : list jsstring) :
  noDollar v = true ->
  replaceAll (placeholderOf n) v (join SPACE l)
  = join SPACE (map (replaceAll (placeholderOf n) v) l).
Proof.
  intros Hv. induction l as [|x l IH].
  - apply replaceAll_nil. apply placeholderOf_nonempty.
  - destruct l as [|y l]; [reflexivity|].
    change (join SPACE (x :: y :: l)) with (x ++ 32%N :: join SPACE (y :: l)).
    rewrite (replaceAll_across (placeholderOf n) v
               (placeholderOf_nonempty n) Hv 32%N (space_fresh n)).
    rewrite IH. reflexivity.
Qed.

Lemma restore_join (m : list (jsstring * jsstring)) :
  (forall k v, In (k, v) m ->
               (exists n, k = placeholderOf n) /\ noDollar v = true) ->
  forall l,
    restoreProperNouns (join SPACE l) m
    = join SPACE (map (fun x => restoreProperNouns x m) l).
Proof.
  unfold restoreProperNouns.
  induction m as [|[k v] m IH]; intros H l; cbn [fold_left].
  - rewrite map_id. reflexivity.
  - destruct (H k v (or_introl eq_refl)) as [[n ->] Hv]. cbn [fst snd].
    rewrite (replaceAll_join n v l Hv).
    rewrite IH by (intros k' v' Hin; apply H; right; exact Hin).
    rewrite map_map. reflexivity.
Qed.

Lemma In_placeholders (st : Protection) (k v : jsstring) :
  wellFormed st -> In (k, v) (placeholderMap st) ->
  exists n, k = placeholderOf n.
Proof.
  intros [_ Wk] Hin.
  assert (Hk : In k (map fst (placeholderMap st)))
    by (apply in_map_iff; exists (k, v); split; [reflexivity | exact Hin]).
  rewrite Wk in Hk. apply in_map_iff in Hk as [n [Hn _]].
  exists n. symmetry. exact Hn.
Qed.

Lemma map_nth_seq {A : Type} (d : A) (l : list A) :
  map (fun i => nth i l d) (seq 0 (length l)) = l.
Proof.
  induction l as [|a l IH]; [reflexivity|].
  cbn [length seq map nth]. rewrite <- seq_shift, map_map.
  cbn [nth]. rewrite IH. reflexivity.
Qed.

End RestorerFacts.

(** X9. A translation in which none of the placeholders of the map occurs
    passes through the restorer unchanged. *)
Theorem restore_without_placeholders (s : jsstring)
  (m : list (jsstring * jsstring)) :
  (forall k v, In (k, v) m -> includes s k = false) ->
  restoreProperNouns s m = s.
Proof.
  unfold restoreProperNouns. induction m as [|[k v] m IH]; intros H;
    [reflexivity|].
  cbn [fold_left fst snd].
  rewrite (replaceAll_not_included k v s (H k v (or_introl eq_refl))).
  apply IH. intros k' v' Hin. apply (H k' v'). right. exact Hin.
Qed.

Lemma restore_without_placeholders_witness :
  restoreProperNouns (utf16 "He is a student.")
                     [(placeholderOf 0, utf16 "Taro Tanaka")]
  = utf16 "He is a student.".
Proof.
  apply (restore_without_placeholders (utf16 "He is a student.")
           [(placeholderOf 0, utf16 "Taro Tanaka")]).
  intros k v [E | []]. inversion E. reflexivity.
Defined.

(** * Further properties of the request handler *)

Section HandlerFacts.

(** What a successful response tells about the request. *)
Lemma POST_served_inv (env : Environment) (file : GlossaryFile)
  (oracle : nat -> jsstring -> ModelReply) (request : RequestBody)
  (glossaryCache cache' : option Glossary) (r : TranslationResponse) :
  POST env file oracle request glossaryCache = (Ok200 r, cache') ->
  hasApiKey env = true /\
  exists text glossary,
    request = Body (Some text) VISA_STRICT /\ nonEmpty text = true /\
    loadGlossary file glossaryCache = (Normal glossary, cache') /\
    pipeline oracle glossary text = Normal r.
Proof.
  unfold POST. destruct (hasApiKey env); cbn [negb]; [|discriminate].
  destruct request as [msg | [text|] mode]; try discriminate.
  destruct (nonEmpty text) eqn:Et; cbn [negb]; [|discriminate].
  destruct (eqs mode VISA_STRICT) eqn:Em; cbn [negb]; [|discriminate].
  apply eqs_true in Em. subst mode.
  destruct (loadGlossary file glossaryCache) as [[glossary | e] c] eqn:El;
    cbn [bind]; [|discriminate].
  destruct (pipeline oracle glossary text) as [r' | e] eqn:Ep;
    [|discriminate].
  intros H. inversion H; subst r' c.
  split; [reflexivity|]. exists text, glossary. repeat split; assumption.
Qed.

(** The answer to a valid request. *)
Lemma POST_valid (env : Environment) (file : GlossaryFile)
  (oracle : nat -> jsstring -> ModelReply) (text : jsstring)
  (glossaryCache cache' : option Glossary) (glossary : Glossary) :
  hasApiKey env = true -> nonEmpty text = true ->
  loadGlossary file glossaryCache = (Normal glossary, cache') ->
  POST env file oracle (Body (Some text) VISA_STRICT) glossaryCache
  = (match pipeline oracle glossary text with
     | Normal response => Ok200 response
     | Throw _ => Failed 500 INTERNAL_ERROR
     end, cache').
Proof.
  intros Hk Ht Hl. unfold POST. rewrite Hk, Ht, eqs_refl, Hl.
  cbn [negb bind]. destruct (pipeline oracle glossary text); reflexivity.
Qed.

(** The loader always hands a glossary back. *)
Lemma loadGlossary_total (file : GlossaryFile)
  (glossaryCache : option Glossary) :
  exists glossary cache',
    loadGlossary file glossaryCache = (Normal glossary, cache').
Proof.
  destruct glossaryCache as [g|]; [exists g, (Some g); reflexivity|].
  destruct file as [| | g].
  - exists [], None. reflexivity.
  - exists [], None. reflexivity.
  - exists g, (Some g). reflexivity.
Qed.

Lemma map_fst_combine {X Y : Type} (a : list X) :
  forall b : list Y, length a = length b -> map fst (combine a b) = a.
Proof.
  induction a as [|x a IH]; intros [|y b] H; try discriminate;
    [reflexivity|].
  simpl. rewrite IH by (simpl in H; lia). reflexivity.
Qed.

Lemma placeholderMap_literal (text : jsstring) (glossary : Glossary)
  (k v : jsstring) :
  literalRenderings glossary = true ->
  In (k, v) (placeholderMap (protectProperNouns text glossary)) ->
  (exists n, k = placeholderOf n) /\ noDollar v = true.
Proof.
  intros Hlit Hin. rewrite protectProperNouns_entries in Hin. split.
  - apply (In_placeholders _ k v
             (fold_wellFormed (entriesOf glossary) (start text)
                              (start_wellFormed text)) Hin).
  - destruct (fold_extends (entriesOf glossary) (start text)
                           (start_wellFormed text))
      as [fs [ps [[_ [Hp _]] [_ Hv]]]].
    rewrite Hp in Hin. simpl in Hin.
    destruct (Hv k v Hin) as [term [e [He ->]]].
    unfold literalRenderings in Hlit. rewrite forallb_forall in Hlit.
    exact (Hlit (term, e) He).
Qed.

(** What a built response tells about the text and the answers. *)
Lemma pipeline_served_inv (oracle : nat -> jsstring -> ModelReply)
  (glossary : Glossary) (text : jsstring) (r : TranslationResponse) :
  pipeline oracle glossary text = Normal r ->
  r = responseOf oracle glossary text /\
  length (splitIntoSentences text)
  <= length (splitIntoSentences
               (protectedText (protectProperNouns text glossary))) /\
  answersFit oracle glossary text.
Proof.
  intros H.
  destruct (proj1 (pipeline_served_iff oracle glossary text))
    as [Hlen Hfit]; [exists r; exact H|].
  rewrite (pipeline_served oracle glossary text Hlen Hfit) in H.
  inversion H. split; [reflexivity | split; assumption].
Qed.

(** With as many protected as original sentences, the restored sentences
    of the response are the restored translations, one by one. *)
Lemma responseOf_translated (oracle : nat -> jsstring -> ModelReply)
  (glossary : Glossary) (text : jsstring) :
  length (splitIntoSentences text)
  = length (splitIntoSentences
              (protectedText (protectProperNouns text glossary))) ->
  map Sentence.translated (sentences (responseOf oracle glossary text))
  = map (fun st => restoredValue
                     (translated st)
                     (placeholderMap (protectProperNouns text glossary)))
        (translationsOf oracle glossary text).
Proof.
  intros Hlen. unfold responseOf. cbv zeta. cbn [sentences].
  rewrite map_map. unfold entryOf. cbn [Sentence.translated].
  rewrite <- (map_map fst
                (fun i => restoredValue
                   (translated (nth i (translationsOf oracle glossary text)
                                    {| translated := JsString [] |}))
                   (placeholderMap (protectProperNouns text glossary)))).
  rewrite map_fst_combine by (rewrite length_seq; reflexivity).
  rewrite Hlen, <- (translationsOf_length oracle glossary text).
  rewrite <- (map_map (fun i => nth i (translationsOf oracle glossary text)
                                    {| translated := JsString [] |})
                      (fun t => restoredValue
                         (translated t)
                         (placeholderMap (protectProperNouns text glossary)))).
  rewrite map_nth_seq. reflexivity.
Qed.

Lemma filter_none {X : Type} (f : X -> bool) (l : list X) :
  (forall x, In x l -> f x = false) -> filter f l = [].
Proof.
  induction l as [|x l IH]; intros H; [reflexivity|].
  simpl. rewrite (H x (or_introl eq_refl)).
  apply IH. intros y Hy. apply H. right. exact Hy.
Qed.

Lemma splitFrom_forallb (P : unit16 -> bool) (s : jsstring) :
  forall (inRun : bool) (cur : jsstring),
    forallb P cur = true -> forallb P s = true ->
    forall x, In x (splitFrom inRun cur s) -> forallb P x = true.
Proof.
  induction s as [|c s IH]; intros inRun cur Hc Hs x Hx.
  - simpl in Hx. destruct inRun.
    + destruct Hx as [<- | [<- | []]]; [exact Hc | reflexivity].
    + destruct Hx as [<- | []]; exact Hc.
  - simpl in Hs. apply andb_true_iff in Hs as [Pc Hs].
    assert (Hcc : forallb P (cur ++ [c]) = true)
      by (rewrite forallb_app, Hc; simpl; rewrite Pc; reflexivity).
    assert (H1 : forallb P [c] = true) by (simpl; rewrite Pc; reflexivity).
    cbn [splitFrom] in Hx.
    destruct (isTerminator c), inRun.
    + exact (IH true _ Hcc Hs x Hx).
    + destruct Hx as [<- | Hx]; [exact Hc | exact (IH true _ H1 Hs x Hx)].
    + destruct Hx as [<- | Hx]; [exact Hc | exact (IH false _ H1 Hs x Hx)].
    + exact (IH false _ Hcc Hs x Hx).
Qed.

(** A text of white space has no sentence. *)
Lemma splitIntoSentences_blank (text : jsstring) :
  blank text = true -> splitIntoSentences text = [].
Proof.
  intros Hb. rewrite splitIntoSentences_fold. unfold trimmedTokens.
  rewrite filter_none; [reflexivity|].
  intros x Hx. rewrite nonEmpty_trim. unfold blank.
  rewrite (splitFrom_forallb isWhiteSpace text false [] eq_refl Hb x Hx).
  reflexivity.
Qed.

Lemma white_not_kanji (c : unit16) :
  isWhiteSpace c = true -> isKanji c = false.
Proof.
  intros H. destruct (isKanji c) eqn:K; [|reflexivity].
  unfold isKanji in K. apply andb_true_iff in K as [K1 K2].
  apply N.leb_le in K1. apply N.leb_le in K2.
  unfold isWhiteSpace in H.
  repeat (apply orb_true_iff in H as [H | H]);
    repeat (apply andb_true_iff in H as [? H]);
    repeat match goal with
           | E : (_ =? _)%N = true |- _ => apply N.eqb_eq in E
           | E : (_ <=? _)%N = true |- _ => apply N.leb_le in E
           end; lia.
Qed.

(** A text of white space has no run of kanji. *)
Lemma matchKanji_blank (text : jsstring) :
  blank text = true -> matchKanji text = [].
Proof.
  intros Hb. destruct (matchKanji text) as [|m l] eqn:E; [reflexivity|].
  assert (Hm : In m (matchKanji text)) by (rewrite E; left; reflexivity).
  apply matchKanji_exact in Hm
    as [pre [post [Ht [Hk [Hl _]]]]].
  subst text. unfold blank in Hb. rewrite !forallb_app in Hb.
  apply andb_true_iff in Hb as [_ Hb].
  apply andb_true_iff in Hb as [Hb _].
  destruct m as [|c m]; [simpl in Hl; lia|].
  simpl in Hb, Hk.
  apply andb_true_iff in Hb as [Wc _]. apply andb_true_iff in Hk as [Kc _].
  rewrite (white_not_kanji c Wc) in Kc. discriminate.
Qed.

Lemma POST_cached (env : Environment) (file file' : GlossaryFile)
  (oracle : nat -> jsstring -> ModelReply) (request : RequestBody)
  (glossary : Glossary) :
  POST env file oracle request (Some glossary)
  = POST env file' oracle request (Some glossary) /\
  snd (POST env file oracle request (Some glossary)) = Some glossary.
Proof.
  unfold POST. destruct (hasApiKey env); cbn [negb]; [|split; reflexivity].
  destruct request as [msg | [text|] mode]; try (split; reflexivity).
  destruct (nonEmpty text); cbn [negb]; [|split; reflexivity].
  destruct (eqs mode VISA_STRICT); cbn [negb]; [|split; reflexivity].
  cbn [loadGlossary bind].
  destruct (pipeline oracle glossary text); split; reflexivity.
Qed.

End HandlerFacts.

(** X10. When no rendering of the glossary holds a dollar sign and the
    protected text has as many sentences as the original, the combined
    output of a successful response is its restored sentences joined by
    single spaces: restoring the whole and restoring sentence by sentence
    agree. *)
Theorem output_is_joined_sentences (env : Environment) (file : GlossaryFile)
  (oracle : nat -> jsstring -> ModelReply) (text : jsstring)
  (glossaryCache cache' : option Glossary) (glossary : Glossary)
  (r : TranslationResponse) :
  loadGlossary file glossaryCache = (Normal glossary, cache') ->
  literalRenderings glossary = true ->
  length (splitIntoSentences text)
  = length (splitIntoSentences
              (protectedText (protectProperNouns text glossary))) ->
  POST env file oracle (Body (Some text) VISA_STRICT) glossaryCache
  = (Ok200 r, cache') ->
  outputText r
  = join SPACE (map (fun e => stringOf (Sentence.translated e))
                    (sentences r)).
Proof.
  intros Hl Hlit Hlen Hp.
  apply POST_served_inv in Hp
    as [_ [text' [g' [Hreq [_ [Hl' Hpipe]]]]]].
  inversion Hreq; subst text'. rewrite Hl in Hl'. inversion Hl'; subst g'.
  apply pipeline_served_inv in Hpipe as [-> [_ [_ Hfit]]].
  rewrite <- (map_map Sentence.translated stringOf).
  rewrite (responseOf_translated oracle glossary text Hlen), map_map.
  unfold responseOf. cbv zeta. cbn [outputText].
  rewrite restore_join
    by (intros k v Hin;
        exact (placeholderMap_literal text glossary k v Hlit Hin)).
  rewrite map_map. f_equal. apply map_ext_in. intros st Hst.
  destruct Hfit as [Hm | Htext].
  - rewrite Hm. destruct (translated st); reflexivity.
  - apply (translationsOf_In oracle glossary text) in Hst
      as [i [s [Hs ->]]].
    cbn [translated].
    assert (Hi : i < length (splitIntoSentences text)).
    { rewrite Hlen. apply nth_error_Some. rewrite Hs. discriminate. }
    rewrite (handedBack_textual (oracle i s) s (Htext i s Hi Hs)).
    reflexivity.
Qed.

Lemma output_is_joined_sentences_witness :
  outputText (responseOf obliging people threeSentences)
  = join SPACE (map (fun e => stringOf (Sentence.translated e))
                    (sentences (responseOf obliging people threeSentences))).
Proof.
  apply (output_is_joined_sentences configured (Holds people) obliging
           threeSentences None (Some people) people
           (responseOf obliging people threeSentences));
    vm_compute; reflexivity.
Defined.


(** X12. Once a glossary is cached, the state of the glossary file has no
    influence on any later response, and the cache holds the same glossary
    after any sequence of requests. *)
Theorem cached_glossary_is_never_reloaded (glossary : Glossary)
  (calls calls' : list Call) :
  Forall2 sameButFile calls calls' ->
  serveAll calls (Some glossary) = serveAll calls' (Some glossary) /\
  snd (serveAll calls (Some glossary)) = Some glossary.
Proof.
  induction 1 as [|c c' calls calls' [He [Ho Hr]] _ [IH1 IH2]];
    [split; reflexivity|].
  cbn [serveAll]. rewrite <- He, <- Ho, <- Hr.
  destruct (POST_cached (callEnv c) (callFile c) (callFile c')
                        (callOracle c) (callRequest c) glossary)
    as [Hsame Hcache].
  rewrite <- Hsame.
  destruct (POST (callEnv c) (callFile c) (callOracle c) (callRequest c)
                 (Some glossary)) as [resp cache1].
  simpl in Hcache. subst cache1. rewrite <- IH1.
  destruct (serveAll calls (Some glossary)) as [resps cache2].
  simpl in IH2 |- *. split; [reflexivity | exact IH2].
Qed.

Lemma cached_glossary_is_never_reloaded_witness :
  serveAll [{| callEnv := configured; callFile := Holds overlapping;
               callOracle := obliging;
               callRequest := Body (Some threeSentences) VISA_STRICT |}]
           (Some people)
  = serveAll [{| callEnv := configured; callFile := Unreadable [];
                 callOracle := obliging;
                 callRequest := Body (Some threeSentences) VISA_STRICT |}]
             (Some people) /\
  snd (serveAll [{| callEnv := configured; callFile := Holds overlapping;
                    callOracle := obliging;
                    callRequest := Body (Some threeSentences) VISA_STRICT |}]
                (Some people))
  = Some people.
Proof.
  apply (cached_glossary_is_never_reloaded people).
  constructor; [|constructor]. repeat split.
Defined.

(** X13. A text of white space only passes the validation of the handler:
    the request is answered 200 with no sentence, rated GREEN without
    warning, whatever the glossary, as long as the model gives no answer
    that cannot be converted to a string. *)
Theorem whitespace_text_is_served (env : Environment) (file : GlossaryFile)
  (oracle : nat -> jsstring -> ModelReply) (text : jsstring)
  (glossaryCache : option Glossary) :
  hasApiKey env = true -> nonEmpty text = true -> blank text = true ->
  (forall i s, showable (oracle i s)) ->
  exists r,
    fst (POST env file oracle (Body (Some text) VISA_STRICT) glossaryCache)
    = Ok200 r /\
    sentences r = [] /\ riskLevel r = GREEN /\ warnings r = [].
Proof.
  intros Hk Ht Hb Hshow.
  destruct (loadGlossary_total file glossaryCache) as [glossary [c Hl]].
  rewrite (POST_valid env file oracle text glossaryCache c glossary Hk Ht Hl).
  rewrite (pipeline_served oracle glossary text).
  - exists (responseOf oracle glossary text).
    split; [reflexivity|]. unfold responseOf. cbv zeta.
    cbn [sentences riskLevel warnings].
    rewrite (splitIntoSentences_blank text Hb).
    rewrite detector_filter, (matchKanji_blank text Hb).
    repeat split.
  - rewrite (splitIntoSentences_blank text Hb). apply Nat.le_0_l.
  - split; [intros i s _; apply Hshow | right].
    intros i s Hi. rewrite (splitIntoSentences_blank text Hb) in Hi.
    inversion Hi.
Qed.

Lemma whitespace_text_is_served_witness :
  exists r,
    fst (POST configured (Holds people) silent
              (Body (Some (utf16 "  ")) VISA_STRICT) None)
    = Ok200 r /\
    sentences r = [] /\ riskLevel r = GREEN /\ warnings r = [].
Proof.
  apply (whitespace_text_is_served configured (Holds people) silent
           (utf16 "  ") None);
    first [reflexivity | intros i s; exact I].
Defined.

(** * Properties of the earlier versions *)

Section LegacyFacts.

Lemma completeAndParse_cases (reply : ModelReply) (sentence : jsstring) :
  (failed reply /\ exists m, completeAndParse reply sentence = Throw m) \/
  (~ failed reply /\
   completeAndParse reply sentence
   = Normal {| translated := handedBack reply sentence |}).
Proof.
  destruct reply as [e | | e | [t|] | shown]; simpl.
  - left. split; [exact I | exists e; reflexivity].
  - left. split; [exact I | exists NO_RESPONSE; reflexivity].
  - left. split; [exact I | exists e; reflexivity].
  - right. split; [intros [] | reflexivity].
  - right. split; [intros [] | reflexivity].
  - right. split; [intros [] | reflexivity].
Qed.

Lemma Promise_all_fulfilled {A : Type} (race : nat) (values : list A) :
  Legacy.Promise_all race (map Normal values) = Normal values.
Proof.
  unfold Legacy.Promise_all.
  assert (R : Legacy.rejections (map (@Normal A) values) = []).
  { induction values as [|v values IH]; [reflexivity|].
    unfold Legacy.rejections in *. cbn [map flat_map app]. exact IH. }
  rewrite R. induction values as [|v values IH]; [reflexivity|].
  cbn [map mapM bind]. rewrite IH.
  - reflexivity.
  - unfold Legacy.rejections in *. cbn [map flat_map app] in R. exact R.
Qed.

Lemma rejections_In {A : Type} (promises : list (Completion A))
  (m : jsstring) :
  In m (Legacy.rejections promises) <-> In (Throw m) promises.
Proof.
  unfold Legacy.rejections. rewrite in_flat_map. split.
  - intros [c [Hc Hm]]. destruct c as [v | e]; [destruct Hm|].
    destruct Hm as [-> | []]. exact Hc.
  - intros H. exists (Throw m). split; [exact H | left; reflexivity].
Qed.

Lemma Promise_all_rejected {A : Type} (race : nat)
  (promises : list (Completion A)) (m0 : jsstring) :
  In (Throw m0) promises ->
  exists m, In (Throw m) promises /\
            Legacy.Promise_all race promises = Throw m.
Proof.
  intros H. apply rejections_In in H. unfold Legacy.Promise_all.
  destruct (Legacy.rejections promises) as [|r rs] eqn:E; [destruct H|].
  exists (nth race (r :: rs) r). split; [|reflexivity].
  apply rejections_In. rewrite E.
  destruct (Nat.lt_ge_cases race (length (r :: rs))) as [Hlt | Hge].
  - apply nth_In. exact Hlt.
  - rewrite nth_overflow by exact Hge. left. reflexivity.
Qed.

Lemma some_or_none (Q : ModelReply -> Prop)
  (oracle : nat -> jsstring -> ModelReply) (l : list (nat * jsstring)) :
  (forall reply, Q reply \/ ~ Q reply) ->
  (forall ix, In ix l -> ~ Q (oracle (fst ix) (snd ix))) \/
  (exists ix, In ix l /\ Q (oracle (fst ix) (snd ix))).
Proof.
  intros dec. induction l as [|ix l [IH | [jx [Hj Fj]]]].
  - left. intros ix [].
  - destruct (dec (oracle (fst ix) (snd ix))) as [F | F].
    + right. exists ix. split; [left; reflexivity | exact F].
    + left. intros jx [<- | Hj]; [exact F | exact (IH jx Hj)].
  - right. exists jx. split; [right; exact Hj | exact Fj].
Qed.

Lemma failed_dec (reply : ModelReply) : failed reply \/ ~ failed reply.
Proof.
  destruct reply as [e| |e|[t|]|shown]; simpl; auto.
Qed.

Lemma not_showable_dec (reply : ModelReply) :
  ~ showable reply \/ ~ ~ showable reply.
Proof. destruct (showable_dec reply); auto. Qed.

Lemma indexed_sentence (sentences : list jsstring) (ix : nat * jsstring) :
  In ix (combine (seq 0 (length sentences)) sentences) <->
  nth_error sentences (fst ix) = Some (snd ix).
Proof.
  destruct ix as [i s]. cbn [fst snd]. split.
  - intros H. apply In_indexed in H as [_ H].
    rewrite Nat.sub_0_r in H. exact H.
  - intros H. apply (nth_error_In _ i).
    exact (nth_error_indexed sentences 0 i s H).
Qed.

(** The sentences of a text either all get an answer that can be converted
    to a string, or one does not. *)
Lemma all_or_one_not_shown (oracle : nat -> jsstring -> ModelReply)
  (text : jsstring) :
  (forall i s, nth_error (splitIntoSentences text) i = Some s ->
               showable (oracle i s)) \/
  (exists i s, nth_error (splitIntoSentences text) i = Some s /\
               ~ showable (oracle i s)).
Proof.
  destruct (some_or_none (fun reply => ~ showable reply) oracle
              (combine (seq 0 (length (splitIntoSentences text)))
                       (splitIntoSentences text)) not_showable_dec)
    as [H | [[i s] [Hin Hn]]].
  - left. intros i s His.
    destruct (showable_dec (oracle i s)) as [Hs | Hs]; [exact Hs|].
    destruct (H (i, s) (proj2 (indexed_sentence _ (i, s)) His) Hs).
  - right. exists i, s. split; [|exact Hn].
    apply (indexed_sentence _ (i, s)). exact Hin.
Qed.

Lemma plainTranslations_length (oracle : nat -> jsstring -> ModelReply)
  (text : jsstring) :
  length (plainTranslations oracle text) = length (splitIntoSentences text).
Proof.
  unfold plainTranslations. cbv zeta.
  rewrite length_map, length_combine, length_seq. apply Nat.min_id.
Qed.

Lemma plainTranslations_In (oracle : nat -> jsstring -> ModelReply)
  (text : jsstring) (st : Translated) :
  In st (plainTranslations oracle text) <->
  exists i s, nth_error (splitIntoSentences text) i = Some s /\
              st = {| translated := handedBack (oracle i s) s |}.
Proof.
  unfold plainTranslations. cbv zeta. rewrite in_map_iff. split.
  - intros [[i s] [<- Hin]]. exists i, s. split; [|reflexivity].
    apply (indexed_sentence _ (i, s)). exact Hin.
  - intros [i [s [His ->]]]. exists (i, s). split; [reflexivity|].
    apply (indexed_sentence _ (i, s)). exact His.
Qed.

Lemma plain_texts (oracle : nat -> jsstring -> ModelReply) (text : jsstring) :
  (forall i s, nth_error (splitIntoSentences text) i = Some s ->
               showable (oracle i s)) ->
  mapM toText (map translated (plainTranslations oracle text))
  = Normal (map (fun st => stringOf (translated st))
                (plainTranslations oracle text)).
Proof.
  intros H. rewrite <- (map_map translated stringOf).
  apply mapM_Normal. intros v Hv.
  apply in_map_iff in Hv as [st [<- Hst]].
  apply plainTranslations_In in Hst as [i [s [Hs ->]]]. cbn [translated].
  apply handedBack_showable. exact (H i s Hs).
Qed.

Lemma plain_texts_throw (oracle : nat -> jsstring -> ModelReply)
  (text : jsstring) (i : nat) (s : jsstring) :
  nth_error (splitIntoSentences text) i = Some s -> ~ showable (oracle i s) ->
  exists e,
    mapM toText (map translated (plainTranslations oracle text)) = Throw e.
Proof.
  intros Hs Hn.
  destruct (handedBack_not_showable (oracle i s) s Hn) as [e He].
  apply (mapM_Throw toText _ (handedBack (oracle i s) s) e); [|exact He].
  apply in_map_iff. exists {| translated := handedBack (oracle i s) s |}.
  split; [reflexivity|]. apply plainTranslations_In. exists i, s.
  split; [exact Hs | reflexivity].
Qed.

Lemma buildResponse_served (sentences : list jsstring)
  (sentenceTranslations : list Translated) (texts : list jsstring) :
  length sentences <= length sentenceTranslations ->
  mapM toText (map translated sentenceTranslations) = Normal texts ->
  Legacy.buildResponse sentences sentenceTranslations
  = Normal
      {| Legacy.translatedText := join SPACE texts;
         Legacy.sentences :=
           map (fun io =>
                  {| Sentence.original := snd io;
                     Sentence.translated :=
                       translated (nth (fst io) sentenceTranslations
                                       {| translated := JsString [] |}) |})
               (combine (seq 0 (length sentences)) sentences) |}.
Proof.
  intros Hlen Htexts. unfold Legacy.buildResponse. rewrite Htexts.
  cbn [bind]. cbv zeta.
  rewrite (mapM_Normal _
             (fun io =>
                {| Sentence.original := snd io;
                   Sentence.translated :=
                     translated (nth (fst io) sentenceTranslations
                                     {| translated := JsString [] |}) |})).
  - reflexivity.
  - intros [i o] Hin. apply In_indexed in Hin as [_ Hin].
    rewrite Nat.sub_0_r in Hin. cbn [fst snd].
    assert (Hi : i < length sentenceTranslations).
    { apply (Nat.lt_le_trans _ (length sentences)); [|exact Hlen].
      apply nth_error_Some. rewrite Hin. discriminate. }
    rewrite (nth_error_nth' sentenceTranslations
                            {| translated := JsString [] |} Hi).
    reflexivity.
Qed.

Lemma buildResponse_plain (oracle : nat -> jsstring -> ModelReply)
  (text : jsstring) :
  (forall i s, nth_error (splitIntoSentences text) i = Some s ->
               showable (oracle i s)) ->
  Legacy.buildResponse (splitIntoSentences text)
                       (plainTranslations oracle text)
  = Normal (plainResponse oracle text).
Proof.
  intros H.
  rewrite (buildResponse_served _ _ _
             (Nat.eq_le_incl _ _ (eq_sym (plainTranslations_length oracle text)))
             (plain_texts oracle text H)).
  reflexivity.
Qed.

Lemma buildResponse_not_shown (oracle : nat -> jsstring -> ModelReply)
  (text : jsstring) (i : nat) (s : jsstring) :
  nth_error (splitIntoSentences text) i = Some s -> ~ showable (oracle i s) ->
  exists e,
    Legacy.buildResponse (splitIntoSentences text)
                         (plainTranslations oracle text)
    = Throw e.
Proof.
  intros Hs Hn. destruct (plain_texts_throw oracle text i s Hs Hn) as [e He].
  exists e. unfold Legacy.buildResponse. rewrite He. reflexivity.
Qed.

(** The first version, for a valid request: no call fails and every answer
    can be converted to a string, and the response is built; or the reason
    of one failing call is sent back; or no call fails, an answer cannot be
    converted, and the reason of that is sent back. *)
Lemma First_POST_cases (env : Environment)
  (oracle : nat -> jsstring -> ModelReply) (race : nat) (text : jsstring) :
  hasApiKey env = true -> nonEmpty text = true ->
  ((forall i s, nth_error (splitIntoSentences text) i = Some s ->
                ~ failed (oracle i s) /\ showable (oracle i s)) /\
   Legacy.First.POST env oracle race (Body (Some text) VISA_STRICT)
   = Legacy.Ok200 (plainResponse oracle text)) \/
  (exists i s m,
      nth_error (splitIntoSentences text) i = Some s /\
      completeAndParse (oracle i s) s = Throw m /\
      Legacy.First.POST env oracle race (Body (Some text) VISA_STRICT)
      = Legacy.Failed 500 (TRANSLATION_FAILED_PREFIX ++ m)) \/
  ((forall i s, nth_error (splitIntoSentences text) i = Some s ->
                ~ failed (oracle i s)) /\
   (exists i s, nth_error (splitIntoSentences text) i = Some s /\
                ~ showable (oracle i s)) /\
   exists e,
     Legacy.First.POST env oracle race (Body (Some text) VISA_STRICT)
     = Legacy.Failed 500 (TRANSLATION_FAILED_PREFIX ++ e)).
Proof.
  intros Hk Ht. unfold Legacy.First.POST.
  rewrite Hk, Ht, eqs_refl. cbn [negb]. cbv zeta.
  unfold Legacy.First.translateSentence.
  set (l := combine (seq 0 (length (splitIntoSentences text)))
                    (splitIntoSentences text)).
  destruct (some_or_none failed oracle l failed_dec)
    as [Hnone | [ix [Hix Fix]]].
  - rewrite (map_ext_in
               (fun ix => completeAndParse (oracle (fst ix) (snd ix)) (snd ix))
               (fun ix => Normal
                  {| translated :=
                       handedBack (oracle (fst ix) (snd ix)) (snd ix) |})).
    + rewrite <- (map_map
                    (fun ix => {| translated :=
                         handedBack (oracle (fst ix) (snd ix)) (snd ix) |})
                    Normal).
      rewrite Promise_all_fulfilled. cbn [bind].
      fold l. change (map _ l) with (plainTranslations oracle text).
      destruct (all_or_one_not_shown oracle text)
        as [Hall | [i [s [His Hn]]]].
      * left. split.
        -- intros i s His. split; [|exact (Hall i s His)].
           apply (Hnone (i, s)). apply indexed_sentence. exact His.
        -- rewrite (buildResponse_plain oracle text Hall). reflexivity.
      * right. right. split; [|split; [exists i, s; split; assumption|]].
        -- intros j t Hjt. apply (Hnone (j, t)).
           apply indexed_sentence. exact Hjt.
        -- destruct (buildResponse_not_shown oracle text i s His Hn)
             as [e He].
           exists e. rewrite He. reflexivity.
    + intros jx Hjx.
      destruct (completeAndParse_cases (oracle (fst jx) (snd jx)) (snd jx))
        as [[F _] | [_ E]]; [destruct (Hnone jx Hjx F) | exact E].
  - right. left.
    destruct (completeAndParse_cases (oracle (fst ix) (snd ix)) (snd ix))
      as [[_ [m0 E0]] | [F _]]; [|destruct (F Fix)].
    assert (Hin : In (Throw m0)
                     (map (fun ix => completeAndParse (oracle (fst ix) (snd ix))
                                                      (snd ix)) l)).
    { apply in_map_iff. exists ix. split; [exact E0 | exact Hix]. }
    destruct (Promise_all_rejected race _ m0 Hin) as [m [Hm Ep]].
    apply in_map_iff in Hm as [[i s] [Em Hjs]]. cbn [fst snd] in Em.
    exists i, s, m. split; [|split].
    + apply (indexed_sentence _ (i, s)). exact Hjs.
    + exact Em.
    + rewrite Ep. reflexivity.
Qed.

(** The second version, for a valid request: the response is built when
    every answer can be converted to a string, and only then. *)
Lemma Second_POST_cases (env : Environment)
  (oracle : nat -> jsstring -> ModelReply) (text : jsstring) :
  hasApiKey env = true -> nonEmpty text = true ->
  ((forall i s, nth_error (splitIntoSentences text) i = Some s ->
                showable (oracle i s)) /\
   Legacy.Second.POST env oracle (Body (Some text) VISA_STRICT)
   = Legacy.Ok200 (plainResponse oracle text)) \/
  ((exists i s, nth_error (splitIntoSentences text) i = Some s /\
                ~ showable (oracle i s)) /\
   Legacy.Second.POST env oracle (Body (Some text) VISA_STRICT)
   = Legacy.Failed 500 INTERNAL_ERROR).
Proof.
  intros Hk Ht. unfold Legacy.Second.POST.
  rewrite Hk, Ht, eqs_refl. cbn [negb]. cbv zeta.
  rewrite (mapM_Normal _
             (fun ix => {| translated :=
                  handedBack (oracle (fst ix) (snd ix)) (snd ix) |}))
    by (intros ix _; apply translateSentence_Normal).
  cbn [bind]. change (map _ (combine _ _)) with (plainTranslations oracle text).
  destruct (all_or_one_not_shown oracle text) as [Hall | [i [s [His Hn]]]].
  - left. split; [exact Hall|].
    rewrite (buildResponse_plain oracle text Hall). reflexivity.
  - right. split; [exists i, s; split; assumption|].
    destruct (buildResponse_not_shown oracle text i s His Hn) as [e He].
    rewrite He. reflexivity.
Qed.

Lemma plainResponse_length (oracle : nat -> jsstring -> ModelReply)
  (text : jsstring) :
  length (Legacy.sentences (plainResponse oracle text))
  = length (splitIntoSentences text).
Proof.
  unfold plainResponse. cbv zeta. cbn [Legacy.sentences].
  rewrite length_map, length_combine, length_seq. apply Nat.min_id.
Qed.



Lemma plainTranslations_ext (oracle oracle' : nat -> jsstring -> ModelReply)
  (text : jsstring) :
  (forall i s, nth_error (splitIntoSentences text) i = Some s ->
               oracle i s = oracle' i s) ->
  plainTranslations oracle text = plainTranslations oracle' text.
Proof.
  intros H. unfold plainTranslations. cbv zeta. apply map_ext_in.
  intros [i s] Hin. cbn [fst snd].
  rewrite (H i s (proj1 (indexed_sentence _ (i, s)) Hin)). reflexivity.
Qed.

End LegacyFacts.

(** X14. In the first version of the route a valid request is served
    exactly when no call of the model fails and every answer can be
    converted to a string; when a call fails, the client is sent status 500
    with the reason of a failing call after the words
    [Translation failed: ]. *)
Theorem first_route_discloses_failures (env : Environment)
  (oracle : nat -> jsstring -> ModelReply) (race : nat) (text : jsstring) :
  hasApiKey env = true -> nonEmpty text = true ->
  ((exists r,
       Legacy.First.POST env oracle race (Body (Some text) VISA_STRICT)
       = Legacy.Ok200 r) <->
   forall i s, nth_error (splitIntoSentences text) i = Some s ->
               ~ failed (oracle i s) /\ showable (oracle i s)) /\
  (forall r,
      Legacy.First.POST env oracle race (Body (Some text) VISA_STRICT)
      = Legacy.Ok200 r ->
      length (Legacy.sentences r) = length (splitIntoSentences text)) /\
  ((exists i s, nth_error (splitIntoSentences text) i = Some s /\
                failed (oracle i s)) ->
   exists i s m,
     nth_error (splitIntoSentences text) i = Some s /\
     completeAndParse (oracle i s) s = Throw m /\
     Legacy.First.POST env oracle race (Body (Some text) VISA_STRICT)
     = Legacy.Failed 500 (TRANSLATION_FAILED_PREFIX ++ m)).
Proof.
  intros Hk Ht.
  destruct (First_POST_cases env oracle race text Hk Ht)
    as [[Hnone E] | [[i [s [m [His [Em E]]]]]
                    | [Hnone [[i [s [His Hn]]] [e E]]]]];
    (split; [split|split]).
  - intros _. exact Hnone.
  - intros _. exists (plainResponse oracle text). exact E.
  - intros r Hr. rewrite E in Hr. inversion Hr. apply plainResponse_length.
  - intros [i [s [His F]]]. destruct (proj1 (Hnone i s His) F).
  - intros [r Hr]. rewrite E in Hr. discriminate.
  - intros Hnone. exfalso. apply (proj1 (Hnone i s His)).
    destruct (completeAndParse_cases (oracle i s) s)
      as [[F _] | [_ En]]; [exact F | congruence].
  - intros r Hr. rewrite E in Hr. discriminate.
  - intros _. exists i, s, m. repeat split; assumption.
  - intros [r Hr]. rewrite E in Hr. discriminate.
  - intros Hall. destruct (Hn (proj2 (Hall i s His))).
  - intros r Hr. rewrite E in Hr. discriminate.
  - intros [j [t [Hjt F]]]. destruct (Hnone j t Hjt F).
Qed.

Lemma first_route_discloses_failures_witness :
  exists i s m,
    nth_error (splitIntoSentences threeSentences) i = Some s /\
    completeAndParse (secondFails i s) s = Throw m /\
    Legacy.First.POST configured secondFails 0
                      (Body (Some threeSentences) VISA_STRICT)
    = Legacy.Failed 500 (TRANSLATION_FAILED_PREFIX ++ m).
Proof.
  apply (first_route_discloses_failures configured secondFails 0
           threeSentences eq_refl eq_refl).
  exists 1, (utf16 "彼は学生です。"). split; [reflexivity | exact I].
Defined.



(** X16. Take a text in which no source term of the glossary occurs, and
    let the model give the final version, sentence by sentence, the answers
    it gave the second version.  Then whenever the second version served
    the request, the final version serves it with the same combined
    translation and the same sentences, and with no term applied. *)
Theorem glossary_free_text_as_before (env : Environment) (file : GlossaryFile)
  (oracle oracle' : nat -> jsstring -> ModelReply) (text : jsstring)
  (glossaryCache cache' : option Glossary) (glossary : Glossary)
  (r' : Legacy.TranslationResponse) :
  hasApiKey env = true -> nonEmpty text = true ->
  loadGlossary file glossaryCache = (Normal glossary, cache') ->
  (forall t, In t (sourceTerms glossary) -> includes text t = false) ->
  (forall i s, nth_error (splitIntoSentences text) i = Some s ->
               oracle i s = oracle' i s) ->
  Legacy.Second.POST env oracle' (Body (Some text) VISA_STRICT)
  = Legacy.Ok200 r' ->
  exists r,
    fst (POST env file oracle (Body (Some text) VISA_STRICT) glossaryCache)
    = Ok200 r /\
    outputText r = Legacy.translatedText r' /\
    sentences r = Legacy.sentences r' /\
    appliedGlossary r = [].
Proof.
  intros Hk Ht Hl Hnone Hsame H2.
  assert (Hp : protectProperNouns text glossary = start text).
  { rewrite protectProperNouns_entries. apply fold_untouched. exact Hnone. }
  destruct (Second_POST_cases env oracle' text Hk Ht)
    as [[Hall E] | [_ E]]; rewrite E in H2; [|discriminate].
  inversion H2; subst r'. clear H2 E.
  assert (Ets : translationsOf oracle glossary text
                = plainTranslations oracle text)
    by (unfold translationsOf, plainTranslations; rewrite Hp; reflexivity).
  exists (responseOf oracle glossary text). split.
  - rewrite (POST_valid env file oracle text glossaryCache cache' glossary
                        Hk Ht Hl).
    rewrite (pipeline_served oracle glossary text); [reflexivity | |].
    + rewrite Hp. apply Nat.le_refl.
    + split; [|left; rewrite Hp; reflexivity].
      rewrite Hp. cbn [start protectedText]. intros i s His.
      rewrite (Hsame i s His). exact (Hall i s His).
  - unfold responseOf, plainResponse, entryOf. cbv zeta.
    cbn [outputText sentences appliedGlossary
         Legacy.translatedText Legacy.sentences].
    rewrite Ets, Hp.
    rewrite (plainTranslations_ext oracle oracle' text Hsame).
    cbn [start placeholderMap foundProperNouns].
    split; [reflexivity|]. split; [|reflexivity].
    apply map_ext. intros io.
    destruct (translated (nth (fst io) (plainTranslations oracle' text)
                              {| translated := JsString [] |}));
      reflexivity.
Qed.

Lemma glossary_free_text_as_before_witness :
  exists r,
    fst (POST configured (Holds people) obliging
              (Body (Some (utf16 "彼は学生です。")) VISA_STRICT) None)
    = Ok200 r /\
    outputText r
    = Legacy.translatedText (plainResponse obliging (utf16 "彼は学生です。")) /\
    sentences r
    = Legacy.sentences (plainResponse obliging (utf16 "彼は学生です。")) /\
    appliedGlossary r = [].
Proof.
  apply (glossary_free_text_as_before configured (Holds people) obliging
           obliging (utf16 "彼は学生です。") None (Some people) people
           (plainResponse obliging (utf16 "彼は学生です。")));
    try reflexivity.
  intros t [<- | []]. reflexivity.
Defined.

(** * Properties of the page *)

(** X17. A click on a text that is not blank leaves the page either with
    the response of the route shown and its output in the editable field,
    or with nothing shown and one of two messages of the route: the page
    never gets the answers 400 of the route. *)
Theorem page_shows_translation_or_server_error (env : Environment)
  (file : GlossaryFile) (oracle : nat -> jsstring -> ModelReply)
  (glossaryCache : option Glossary) (st : Page.State) :
  nonEmpty (trim (Page.inputText st)) = true ->
  let st' :=
    Page.handleTranslate (viaRoute env file oracle glossaryCache) st in
  Page.isLoading st' = false /\
  Page.inputText st' = Page.inputText st /\
  ((exists r,
       fst (POST env file oracle
                 (Body (Some (Page.inputText st)) VISA_STRICT) glossaryCache)
       = Ok200 r /\
       Page.translation st' = Some r /\
       Page.editableTranslation st' = outputText r /\
       Page.error st' = None) \/
   (Page.translation st' = None /\
    Page.editableTranslation st' = [] /\
    (Page.error st' = Some KEY_NOT_CONFIGURED \/
     Page.error st' = Some INTERNAL_ERROR))).
Proof.
  intros Hne. cbv zeta.
  assert (Ht : nonEmpty (Page.inputText st) = true).
  { destruct (Page.inputText st); [discriminate Hne | reflexivity]. }
  unfold Page.handleTranslate. rewrite Hne. cbn [negb]. unfold viaRoute.
  destruct (hasApiKey env) eqn:Hk.
  - destruct (loadGlossary_total file glossaryCache) as [glossary [c Hl]].
    rewrite (POST_valid env file oracle (Page.inputText st) glossaryCache c
                        glossary Hk Ht Hl).
    cbn [fst].
    destruct (pipeline oracle glossary (Page.inputText st)) as [r | e].
    + cbn. split; [reflexivity|]. split; [reflexivity|].
      left. exists r. repeat split.
    + cbn. split; [reflexivity|]. split; [reflexivity|].
      right. split; [reflexivity|]. split; [reflexivity|].
      right. reflexivity.
  - unfold POST. rewrite Hk. cbn [negb fst].
    cbn. split; [reflexivity|]. split; [reflexivity|].
    right. split; [reflexivity|]. split; [reflexivity|].
    left. reflexivity.
Qed.

Lemma page_shows_translation_or_server_error_witness :
  let st' :=
    Page.handleTranslate (viaRoute configured (Holds people) obliging None)
                         (typed threeSentences) in
  Page.isLoading st' = false /\
  Page.inputText st' = Page.inputText (typed threeSentences) /\
  ((exists r,
       fst (POST configured (Holds people) obliging
                 (Body (Some (Page.inputText (typed threeSentences)))
                       VISA_STRICT) None)
       = Ok200 r /\
       Page.translation st' = Some r /\
       Page.editableTranslation st' = outputText r /\
       Page.error st' = None) \/
   (Page.translation st' = None /\
    Page.editableTranslation st' = [] /\
    (Page.error st' = Some KEY_NOT_CONFIGURED \/
     Page.error st' = Some INTERNAL_ERROR))).
Proof.
  apply (page_shows_translation_or_server_error configured (Holds people)
           obliging None (typed threeSentences)).
  reflexivity.
Defined.

(** * What the segmenter keeps of the text *)

Section SegmenterContent.

Lemma splitFrom_concat (s : jsstring) :
  forall (inRun : bool) (cur : jsstring),
    concat (splitFrom inRun cur s) = cur ++ s.
Proof.
  induction s as [|c s IH]; intros inRun cur.
  - destruct inRun; simpl; rewrite ?app_nil_r; reflexivity.
  - cbn [splitFrom]. destruct (isTerminator c), inRun;
      cbn [concat]; rewrite IH; rewrite <- ?app_assoc; reflexivity.
Qed.

Lemma stripWhite_app (a b : jsstring) :
  stripWhite (a ++ b) = stripWhite a ++ stripWhite b.
Proof. apply filter_app. Qed.

Lemma stripWhite_blank (w : jsstring) : blank w = true -> stripWhite w = [].
Proof.
  intros H. apply filter_none. intros c Hc.
  unfold blank in H. rewrite forallb_forall in H. rewrite (H c Hc).
  reflexivity.
Qed.

Lemma stripWhite_marks (m : jsstring) :
  forallb isClosingMark m = true -> stripWhite m = m.
Proof.
  intros H. apply filter_all.
  apply (forallb_impl isClosingMark); [|exact H].
  intros c Hc. rewrite (isClosingMark_not_white c Hc). reflexivity.
Qed.

Lemma trim_split (x : jsstring) :
  exists w1 w2, x = w1 ++ trim x ++ w2 /\ blank w1 = true /\ blank w2 = true.
Proof.
  destruct (trimStart_split x) as [w1 [H1 B1]].
  destruct (trimStart_split (rev (trimStart x))) as [w2 [H2 B2]].
  exists w1, (rev w2). split; [|split].
  - apply (f_equal (@rev unit16)) in H2.
    rewrite rev_involutive, rev_app_distr in H2.
    unfold trim, trimEnd. rewrite <- H2. exact H1.
  - exact B1.
  - unfold blank. rewrite forallb_rev. exact B2.
Qed.

Lemma stripWhite_trim (x : jsstring) : stripWhite (trim x) = stripWhite x.
Proof.
  destruct (trim_split x) as [w1 [w2 [E [B1 B2]]]].
  rewrite E at 2. rewrite !stripWhite_app.
  rewrite (stripWhite_blank w1 B1), (stripWhite_blank w2 B2), app_nil_r.
  reflexivity.
Qed.

Lemma stripWhite_tokens (toks : list jsstring) :
  stripWhite (concat (map trim (filter (fun s => nonEmpty (trim s)) toks)))
  = stripWhite (concat toks).
Proof.
  induction toks as [|x toks IH]; [reflexivity|].
  cbn [filter concat]. rewrite stripWhite_app.
  destruct (nonEmpty (trim x)) eqn:E.
  - cbn [map concat]. rewrite stripWhite_app, stripWhite_trim, IH.
    reflexivity.
  - rewrite IH. rewrite nonEmpty_trim in E. apply negb_false_iff in E.
    rewrite (stripWhite_blank x E). reflexivity.
Qed.

Lemma concat_merge_last (acc : list jsstring) (y : jsstring) :
  acc <> [] ->
  concat (removelast acc ++ [last acc [] ++ y]) = concat acc ++ y.
Proof.
  intros H. rewrite (app_removelast_last [] H) at 3.
  rewrite !concat_app. cbn [concat]. rewrite !app_nil_r, app_assoc.
  reflexivity.
Qed.

(** Once a sentence is there, merging and pushing keep every token. *)
Lemma fold_mergeStep_concat (toks : list jsstring) :
  forall acc,
    acc <> [] ->
    concat (fold_left mergeStep toks acc) = concat acc ++ concat toks.
Proof.
  induction toks as [|y toks IH]; intros acc H.
  - cbn [fold_left concat]. rewrite app_nil_r. reflexivity.
  - cbn [fold_left concat].
    assert (Hm : mergeStep acc y <> [] /\
                 concat (mergeStep acc y) = concat acc ++ y).
    { unfold mergeStep. destruct (isPunctuationOnly y).
      - destruct acc as [|a acc]; [congruence|]. split.
        + intros E. apply app_eq_nil in E as [_ E]. discriminate.
        + apply concat_merge_last. discriminate.
      - split.
        + intros E. apply app_eq_nil in E as [_ E]. discriminate.
        + rewrite concat_app. cbn [concat]. rewrite app_nil_r.
          reflexivity. }
    destruct Hm as [Hne Hc]. rewrite (IH _ Hne), Hc, <- app_assoc.
    reflexivity.
Qed.

(** Before the first sentence, runs of closing marks are dropped. *)
Lemma fold_mergeStep_leading (toks : list jsstring) :
  exists marks,
    forallb isClosingMark marks = true /\
    concat toks = marks ++ concat (fold_left mergeStep toks []).
Proof.
  induction toks as [|y toks IH].
  - exists []. split; reflexivity.
  - cbn [fold_left concat]. unfold mergeStep at 2.
    destruct (isPunctuationOnly y) eqn:Py.
    + destruct IH as [marks [Hm Hc]].
      destruct (punctuation_marks y Py) as [_ My].
      exists (y ++ marks). split.
      * rewrite forallb_app, My, Hm. reflexivity.
      * rewrite Hc, app_assoc. reflexivity.
    + exists []. split; [reflexivity|].
      rewrite fold_mergeStep_concat by discriminate.
      cbn [app concat]. rewrite app_nil_r. reflexivity.
Qed.

End SegmenterContent.

(** X18. The segmenter loses nothing but white space and closing marks
    ahead of the first sentence: without white space, the text is the
    sentences one after the other, preceded by the closing marks that were
    dropped. *)
Theorem segmenter_keeps_content (text : jsstring) :
  exists marks,
    forallb isClosingMark marks = true /\
    stripWhite text
    = marks ++ stripWhite (concat (splitIntoSentences text)).
Proof.
  rewrite splitIntoSentences_fold. unfold trimmedTokens.
  destruct (fold_mergeStep_leading
              (map trim (filter (fun s => nonEmpty (trim s)) (split text))))
    as [marks [Hm Hc]].
  exists marks. split; [exact Hm|].
  rewrite <- (stripWhite_marks marks Hm) at 1.
  rewrite <- stripWhite_app, <- Hc, stripWhite_tokens.
  unfold split. rewrite splitFrom_concat. reflexivity.
Qed.

(** * The handler when the model is out *)

Lemma map_snd_combine {X Y : Type} (a : list X) :
  forall b : list Y, length a = length b -> map snd (combine a b) = b.
Proof.
  induction a as [|x a IH]; intros [|y b] H; try discriminate;
    [reflexivity|].
  simpl. rewrite IH by (simpl in H; lia). reflexivity.
Qed.

(** X19. When every call of the model fails and no source term of the
    glossary occurs in the text, the request is still answered 200: the
    output is the sentences of the text itself joined by single spaces, and
    every sentence is given as its own translation. *)
Theorem model_outage_echoes_text (env : Environment) (file : GlossaryFile)
  (oracle : nat -> jsstring -> ModelReply) (text : jsstring)
  (glossaryCache cache' : option Glossary) (glossary : Glossary) :
  hasApiKey env = true -> nonEmpty text = true ->
  loadGlossary file glossaryCache = (Normal glossary, cache') ->
  (forall t, In t (sourceTerms glossary) -> includes text t = false) ->
  (forall i s, failed (oracle i s)) ->
  exists r,
    fst (POST env file oracle (Body (Some text) VISA_STRICT) glossaryCache)
    = Ok200 r /\
    outputText r = join SPACE (splitIntoSentences text) /\
    map Sentence.original (sentences r) = splitIntoSentences text /\
    map Sentence.translated (sentences r)
    = map JsString (splitIntoSentences text).
Proof.
  intros Hk Ht Hl Hnone Hout.
  assert (Hp : protectProperNouns text glossary = start text).
  { rewrite protectProperNouns_entries. apply fold_untouched. exact Hnone. }
  assert (Hecho : forall i s, handedBack (oracle i s) s = JsString s).
  { intros i s. specialize (Hout i s).
    destruct (oracle i s) as [e| |e|t|shown]; simpl in Hout |- *;
      [reflexivity | reflexivity | reflexivity | destruct Hout
       | destruct Hout]. }
  assert (Ets : map translated (translationsOf oracle glossary text)
                = map JsString (splitIntoSentences text)).
  { unfold translationsOf. cbv zeta. rewrite Hp. cbn [start protectedText].
    rewrite map_map. cbn [translated].
    rewrite (map_ext _ (fun ix => JsString (snd ix)))
      by (intros [i s]; apply Hecho).
    rewrite <- (map_map snd JsString).
    rewrite map_snd_combine by (rewrite length_seq; reflexivity).
    reflexivity. }
  exists (responseOf oracle glossary text).
  split; [|split; [|split]].
  - rewrite (POST_valid env file oracle text glossaryCache cache' glossary
                        Hk Ht Hl).
    rewrite (pipeline_served oracle glossary text); [reflexivity | |].
    + rewrite Hp. apply Nat.le_refl.
    + split.
      * intros i s _. apply textual_showable, failed_textual, Hout.
      * right. intros i s _ _. apply failed_textual, Hout.
  - unfold responseOf. cbv zeta. cbn [outputText].
    rewrite <- (map_map translated stringOf), Ets, map_map, Hp.
    cbn [stringOf toText]. rewrite map_id. reflexivity.
  - unfold responseOf. cbv zeta. cbn [sentences].
    rewrite map_map. cbn [entryOf Sentence.original].
    apply map_snd_combine. rewrite length_seq. reflexivity.
  - rewrite responseOf_translated by (rewrite Hp; reflexivity).
    rewrite <- (map_map translated
                  (fun v => restoredValue
                     v (placeholderMap (protectProperNouns text glossary)))).
    rewrite Ets, Hp, map_map. reflexivity.
Qed.

Lemma model_outage_echoes_text_witness :
  exists r,
    fst (POST configured (Holds people) silent
              (Body (Some (utf16 "彼は学生です。")) VISA_STRICT) None)
    = Ok200 r /\
    outputText r = join SPACE (splitIntoSentences (utf16 "彼は学生です。")) /\
    map Sentence.original (sentences r)
    = splitIntoSentences (utf16 "彼は学生です。") /\
    map Sentence.translated (sentences r)
    = map JsString (splitIntoSentences (utf16 "彼は学生です。")).
Proof.
  apply (model_outage_echoes_text configured (Holds people) silent
           (utf16 "彼は学生です。") None (Some people) people);
    try reflexivity; try (intros i s; exact I).
  intros t [<- | []]. reflexivity.
Defined.

(** * The risk level of a response *)

Lemma risk_of_reported (reported : list jsstring) :
  (fst (determineRisk reported) = GREEN <-> reported = []) /\
  (fst (determineRisk reported) = RED <->
   exists noun, In noun reported /\ nameShaped noun) /\
  (fst (determineRisk reported) = YELLOW <->
   reported <> [] /\ forall noun, In noun reported -> ~ nameShaped noun) /\
  (snd (determineRisk reported) = [] <-> reported = []).
Proof.
  destruct reported as [|d l].
  - cbn. repeat split; try discriminate; try reflexivity.
    + intros [noun [[] _]].
    + intros [H _]. congruence.
  - unfold determineRisk. cbn [length Nat.ltb Nat.leb].
    destruct (hasUnknownPersonNames (d :: l)) eqn:E; cbn [fst snd].
    + apply hasUnknownPersonNames_true in E.
      repeat split; try discriminate; try (intros; exact E).
      intros [_ H]. destruct E as [noun [Hin Hs]].
      destruct (H noun Hin Hs).
    + assert (N : forall noun, In noun (d :: l) -> ~ nameShaped noun).
      { intros noun Hin Hs.
        assert (hasUnknownPersonNames (d :: l) = true)
          by (apply hasUnknownPersonNames_true; exists noun; split; assumption).
        congruence. }
      repeat split; try discriminate; try exact N.
      intros [noun [Hin Hs]]. destruct (N noun Hin Hs).
Qed.

(** X20. The risk level of a 200 response can be read off the text and the
    glossary: GREEN when the text has no maximal run of kanji unrelated to
    the glossary, RED when it has one of at most four kanji, YELLOW when it
    has some and all are longer; a warning is given exactly when the level
    is not GREEN. *)
Theorem risk_level_reads_the_text (env : Environment) (file : GlossaryFile)
  (oracle : nat -> jsstring -> ModelReply) (text : jsstring)
  (glossaryCache cache' : option Glossary) (glossary : Glossary)
  (r : TranslationResponse) :
  loadGlossary file glossaryCache = (Normal glossary, cache') ->
  POST env file oracle (Body (Some text) VISA_STRICT) glossaryCache
  = (Ok200 r, cache') ->
  (riskLevel r = GREEN <-> forall m, ~ reportable text glossary m) /\
  (riskLevel r = RED <->
   exists m, reportable text glossary m /\ length m <= 4) /\
  (riskLevel r = YELLOW <->
   (exists m, reportable text glossary m) /\
   forall m, reportable text glossary m -> 4 < length m) /\
  (warnings r = [] <-> riskLevel r = GREEN).
Proof.
  intros Hl Hp.
  apply POST_served_inv in Hp
    as [_ [text' [g' [Hreq [_ [Hl' Hpipe]]]]]].
  inversion Hreq; subst text'. rewrite Hl in Hl'. inversion Hl'; subst g'.
  apply pipeline_served_inv in Hpipe as [-> _].
  unfold responseOf. cbv zeta.
  cbn [riskLevel warnings].
  assert (Rep : forall m, In m (detectUnknownProperNouns text glossary)
                          <-> reportable text glossary m)
    by (intros m; unfold reportable; rewrite detector_In, matchKanji_exact;
        reflexivity).
  assert (Two : forall m, reportable text glossary m -> 2 <= length m)
    by (intros m [[pre [post [_ [_ [H _]]]]] _]; exact H).
  destruct (risk_of_reported (detectUnknownProperNouns text glossary))
    as [G [R [Y W]]].
  assert (Nil : detectUnknownProperNouns text glossary = []
                <-> forall m, ~ reportable text glossary m).
  { split.
    - intros E m Hm. apply Rep in Hm. rewrite E in Hm. destruct Hm.
    - intros H.
      destruct (detectUnknownProperNouns text glossary) as [|d l] eqn:E;
        [reflexivity|].
      destruct (H d). apply Rep. left. reflexivity. }
  split; [|split; [|split]].
  - rewrite G. exact Nil.
  - rewrite R. split.
    + intros [m [Hin [_ H4]]]. exists m. split; [apply Rep; exact Hin | exact H4].
    + intros [m [Hm H4]]. exists m. split; [apply Rep; exact Hm|].
      split; [exact (Two m Hm) | exact H4].
  - rewrite Y. split.
    + intros [Hne Hall]. split.
      * destruct (detectUnknownProperNouns text glossary) as [|d l] eqn:E;
          [congruence|].
        exists d. apply Rep. left. reflexivity.
      * intros m Hm. apply Nat.nle_gt. intros H4.
        apply (Hall m (proj2 (Rep m) Hm)).
        split; [exact (Two m Hm) | exact H4].
    + intros [[m Hm] Hall]. split.
      * intros E. apply Rep in Hm. rewrite E in Hm. destruct Hm.
      * intros noun Hin [_ H4]. apply Rep in Hin.
        specialize (Hall noun Hin). lia.
  - rewrite W, G. reflexivity.
Qed.

Lemma risk_level_reads_the_text_witness :
  (riskLevel (responseOf obliging people threeSentences) = GREEN <->
   forall m, ~ reportable threeSentences people m) /\
  (riskLevel (responseOf obliging people threeSentences) = RED <->
   exists m, reportable threeSentences people m /\ length m <= 4) /\
  (riskLevel (responseOf obliging people threeSentences) = YELLOW <->
   (exists m, reportable threeSentences people m) /\
   forall m, reportable threeSentences people m -> 4 < length m) /\
  (warnings (responseOf obliging people threeSentences) = [] <->
   riskLevel (responseOf obliging people threeSentences) = GREEN).
Proof.
  apply (risk_level_reads_the_text configured (Holds people) obliging
           threeSentences None (Some people) people
           (responseOf obliging people threeSentences));
    vm_compute; reflexivity.
Defined.

(** * Sentences and translations, index by index *)

(** C1, amended.  The handler does not compare the two segmentations and
    has no fallback.  When the protected text yields at least as many
    sentences as the original text and every answer of the model leaves a
    string, a valid request is served: the response has one entry per
    original sentence, and the [i]-th entry pairs the [i]-th original
    sentence with the restored translation (or, after a failure, the
    restored text) of the [i]-th protected sentence.  When the protected
    text yields fewer sentences, and when a translation paired with an
    original sentence is not a string while a term was applied, the request
    is answered 500. *)
Theorem POST_pairs_by_index (env : Environment) (file : GlossaryFile)
  (oracle : nat -> jsstring -> ModelReply) (text : jsstring)
  (glossaryCache cache' : option Glossary) (glossary : Glossary) :
  let p := protectProperNouns text glossary in
  let originalSentences := splitIntoSentences text in
  let protectedSentences := splitIntoSentences (protectedText p) in
  hasApiKey env = true -> nonEmpty text = true ->
  loadGlossary file glossaryCache = (Normal glossary, cache') ->
  (length originalSentences <= length protectedSentences ->
   (forall i s, nth_error protectedSentences i = Some s ->
                textual (oracle i s)) ->
   exists response,
     POST env file oracle (Body (Some text) VISA_STRICT) glossaryCache
     = (Ok200 response, cache') /\
     length (sentences response) = length originalSentences /\
     forall i o,
       nth_error originalSentences i = Some o ->
       exists s,
         nth_error protectedSentences i = Some s /\
         nth_error (sentences response) i
         = Some {| Sentence.original := o;
                   Sentence.translated :=
                     JsString
                       (restoreProperNouns
                          (translationOrFallback (oracle i s) s)
                          (placeholderMap p)) |}) /\
  (length protectedSentences < length originalSentences ->
   POST env file oracle (Body (Some text) VISA_STRICT) glossaryCache
   = (Failed 500 INTERNAL_ERROR, cache')) /\
  (forall i o s,
      placeholderMap p <> [] ->
      nth_error originalSentences i = Some o ->
      nth_error protectedSentences i = Some s ->
      ~ textual (oracle i s) ->
      POST env file oracle (Body (Some text) VISA_STRICT) glossaryCache
      = (Failed 500 INTERNAL_ERROR, cache')).
Proof.
  intros p originalSentences protectedSentences Hkey Htext Hload.
  rewrite (POST_valid env file oracle text glossaryCache cache' glossary
                      Hkey Htext Hload).
  split; [|split].
  - intros Hlen Hall. exists (responseOf oracle glossary text).
    split; [|split].
    + rewrite (pipeline_served oracle glossary text Hlen); [reflexivity|].
      split.
      * intros i s Hs. apply textual_showable. exact (Hall i s Hs).
      * right. intros i s _ Hs. exact (Hall i s Hs).
    + apply responseOf_sentences_length.
    + intros i o Ho.
      destruct (nth_error protectedSentences i) as [s|] eqn:Es.
      * exists s. split; [reflexivity|].
        rewrite (responseOf_sentence oracle glossary text i o s Ho Es).
        rewrite (handedBack_textual (oracle i s) s (Hall i s Es)).
        reflexivity.
      * apply nth_error_None in Es.
        assert (i < length originalSentences)
          by (apply nth_error_Some; congruence).
        lia.
  - intros Hlen.
    destruct (pipeline_aborted oracle glossary text Hlen) as [e He].
    rewrite He. reflexivity.
  - intros i o s Hm Ho Hs Hn.
    destruct (pipeline_not_restored oracle glossary text i o s Hm Ho Hs Hn)
      as [e He].
    rewrite He. reflexivity.
Qed.

Lemma POST_pairs_by_index_witness :
  exists response,
    POST configured (Holds people) secondFails
         (Body (Some threeSentences) VISA_STRICT) None
    = (Ok200 response, Some people) /\
    length (sentences response) = 3.
Proof.
  assert (H : length (splitIntoSentences threeSentences)
              <= length (splitIntoSentences
                           (protectedText
                              (protectProperNouns threeSentences people))))
    by (vm_compute; lia).
  assert (T : forall i s,
             nth_error (splitIntoSentences
                          (protectedText
                             (protectProperNouns threeSentences people))) i
             = Some s ->
             textual (secondFails i s)).
  { intros i s _. unfold secondFails, obliging.
    destruct (i =? 1); exact I. }
  destruct (proj1 (POST_pairs_by_index configured (Holds people) secondFails
                     threeSentences None (Some people) people
                     eq_refl eq_refl eq_refl) H T)
    as [response [H1 [H2 _]]].
  exists response. split; [exact H1 | exact H2].
Defined.

(** * Translation failures and the response *)

(** C5, as stated, fails.  An answer whose [translated] member is the
    number 42 is a malformed response, yet [translateSentence] does not
    fall back on the sentence: it hands the number on, and when that
    happens for the second of three sentences of a text with a registered
    name, the whole request is answered 500.  And with the space as a
    registered term, the text [あ。 。い] has two sentences and its
    protected text three: the request is served, but the translation of
    [い] is not in the sentences array. *)
Lemma translateSentence_passes_non_strings :
  translateSentence (AnswerOther (Normal FORTY_TWO)) (utf16 "彼は学生です。")
  = Normal {| translated := JsOther (Normal FORTY_TWO) |} /\
  fst (POST configured (Holds people) secondIsNumber
            (Body (Some threeSentences) VISA_STRICT) None)
  = Failed 500 INTERNAL_ERROR /\
  splitIntoSentences (utf16 "あ。 。い") = [utf16 "あ。。"; utf16 "い"] /\
  splitIntoSentences
    (protectedText (protectProperNouns (utf16 "あ。 。い") blankTerm))
  = [utf16 "あ。"; utf16 "__PN_0__。"; utf16 "い"] /\
  exists response,
    fst (POST configured (Holds blankTerm) obliging
              (Body (Some (utf16 "あ。 。い")) VISA_STRICT) None)
    = Ok200 response /\
    sentences response
    = [{| Sentence.original := utf16 "あ。。";
          Sentence.translated := JsString (utf16 "EN:あ。") |};
       {| Sentence.original := utf16 "い";
          Sentence.translated := JsString (utf16 "EN:blank。") |}].
Proof.
  split; [reflexivity|].
  split; [vm_compute; reflexivity|].
  split; [vm_compute; reflexivity|].
  split; [vm_compute; reflexivity|].
  eexists. split; vm_compute; reflexivity.
Qed.

(** C5, amended.  [translateSentence] always completes normally, and when
    the call fails, answers nothing or answers something that is not JSON,
    it hands back the sentence it was given.  Making calls fail never turns
    a served request into a failed one, and a served request has one entry
    per original sentence.  When the original and the protected text
    segment into equally many sentences and every answer leaves a string,
    the request is served, and the entry of a sentence carries its restored
    translation when the capability gave one and the restored sentence
    itself when the call failed. *)
Theorem translateSentence_failure_is_local
  (oracle : nat -> jsstring -> ModelReply) (glossary : Glossary)
  (text : jsstring) :
  let p := protectProperNouns text glossary in
  let originalSentences := splitIntoSentences text in
  let protectedSentences := splitIntoSentences (protectedText p) in
  (forall reply sentence, served (translateSentence reply sentence)) /\
  (forall reply sentence,
      failed reply ->
      translateSentence reply sentence
      = Normal {| translated := JsString sentence |}) /\
  (forall oracle',
      (forall i s, oracle' i s = oracle i s \/ failed (oracle' i s)) ->
      served (pipeline oracle glossary text) ->
      served (pipeline oracle' glossary text)) /\
  (forall response,
      pipeline oracle glossary text = Normal response ->
      length (sentences response) = length originalSentences) /\
  (length originalSentences = length protectedSentences ->
   (forall i s, nth_error protectedSentences i = Some s ->
                textual (oracle i s)) ->
   exists response,
     pipeline oracle glossary text = Normal response /\
     length (sentences response) = length originalSentences /\
     forall i o s,
       nth_error originalSentences i = Some o ->
       nth_error protectedSentences i = Some s ->
       exists e,
         nth_error (sentences response) i = Some e /\
         Sentence.original e = o /\
         (forall t, oracle i s = Answer (Some t) -> nonEmpty t = true ->
                    Sentence.translated e
                    = JsString (restoreProperNouns t (placeholderMap p))) /\
         (failed (oracle i s) ->
          Sentence.translated e
          = JsString (restoreProperNouns s (placeholderMap p)))).
Proof.
  intros p originalSentences protectedSentences.
  split; [|split; [|split; [|split]]].
  - intros reply sentence. eexists. apply translateSentence_Normal.
  - intros [e| |e|t|shown] sentence H; try reflexivity; destruct H.
  - intros oracle' Hdiff Hserved.
    apply pipeline_served_iff in Hserved as [Hlen [Hshow Htext]].
    apply pipeline_served_iff. split; [exact Hlen|]. split.
    + intros i s Hs. destruct (Hdiff i s) as [-> | F].
      * exact (Hshow i s Hs).
      * apply textual_showable, failed_textual, F.
    + destruct Htext as [Hm | Htext]; [left; exact Hm | right].
      intros i s Hi Hs. destruct (Hdiff i s) as [-> | F].
      * exact (Htext i s Hi Hs).
      * apply failed_textual, F.
  - intros response Hr. apply pipeline_served_inv in Hr as [-> _].
    apply responseOf_sentences_length.
  - intros Hlen Hall. exists (responseOf oracle glossary text).
    split; [|split].
    + apply pipeline_served.
      * fold p originalSentences protectedSentences. lia.
      * split.
        -- intros i s Hs. apply textual_showable. exact (Hall i s Hs).
        -- right. intros i s _ Hs. exact (Hall i s Hs).
    + apply responseOf_sentences_length.
    + intros i o s Ho Hs. eexists. split.
      * apply responseOf_sentence; eassumption.
      * cbn [Sentence.original Sentence.translated].
        split; [reflexivity|]. split.
        -- intros t Ht Hne. rewrite Ht. cbn [handedBack restoredValue].
           rewrite Hne. reflexivity.
        -- intros Hf. destruct (oracle i s) as [e| |e|t|shown];
             try reflexivity; destruct Hf.
Qed.

Lemma translateSentence_failure_is_local_witness :
  exists response,
    pipeline secondFails people threeSentences = Normal response /\
    length (sentences response) = 3 /\
    map Sentence.translated (sentences response)
    = [JsString (utf16 "EN:Taro Tanakaは来日した。");
       JsString (utf16 "彼は学生です。");
       JsString (utf16 "EN:住所は東京都です。")].
Proof.
  assert (T : forall i s,
             nth_error (splitIntoSentences
                          (protectedText
                             (protectProperNouns threeSentences people))) i
             = Some s ->
             textual (secondFails i s)).
  { intros i s _. unfold secondFails, obliging.
    destruct (i =? 1); exact I. }
  destruct (translateSentence_failure_is_local secondFails people threeSentences)
    as [_ [_ [_ [_ H]]]].
  destruct (H eq_refl T) as [response [Hp [Hl _]]].
  exists response. split; [exact Hp|]. split; [exact Hl|].
  assert (E : Normal response
              = Normal (responseOf secondFails people threeSentences)).
  { rewrite <- Hp. apply pipeline_served.
    - vm_compute. lia.
    - split; [intros i s Hs; apply textual_showable, (T i s Hs)|].
      right. intros i s _ Hs. exact (T i s Hs). }
  inversion E. vm_compute. reflexivity.
Defined.

(** * The loader when the file fails *)




